(** * Biathlon competition log processor: a shallow embedding of [main.go]

    The development follows the Go program function by function.  Library
    packages the program calls ([time], [strconv], [strings], [regexp],
    [bufio], [sort]) are modelled in modules of the same name, as far as
    the program uses them; the program's own functions ([parseEvent],
    [loadEvents], [parseDelta], [main] with its event loop, the status
    computation of [printResults]) keep their names.  The file system and
    the JSON decoder are outside: what [os.Open] gives for the events file
    and what [loadConfig] returns are the inputs of [main].

    Conventions
    - Go [int] is the 64-bit two's complement integer: a [Z] kept in range
      with [wrap64].
    - A [string] is a sequence of bytes ([Stdlib.Strings.String]).
    - [time.Time] is the number of nanoseconds since the zero [Time]
      (January 1, year 1, 00:00:00 UTC); [time.Duration] is an [int64] count
      of nanoseconds.
    - The registry [map[int]*Competitor] is a [gmap Z Competitor]: every key
      owns its record (a pointer is never stored under two keys), a missing
      key yields the nil pointer, and dereferencing nil panics. *)

From Stdlib Require Import ZArith Lia Bool Ascii String List.
From Stdlib Require Import Floats.SpecFloat.
From stdpp Require Import base tactics option list gmap strings sorting.

Open Scope string_scope.
Open Scope Z_scope.
Open Scope list_scope.

(** ** Machine integers *)

Definition min_int64 : Z := - 2 ^ 63.
Definition max_int64 : Z := 2 ^ 63 - 1.

(** Two's complement wrap-around of Go's [int] / [int64] arithmetic. *)
Definition wrap64 (z : Z) : Z := (z + 2 ^ 63) mod 2 ^ 64 - 2 ^ 63.

Definition in_int64 (z : Z) : Prop := min_int64 <= z <= max_int64.

(** ** Errors and results

    A Go function returning [(T, error)] is a [result T].  The error
    values the program can see are those it makes itself, those of
    [time.Parse] (a [*time.ParseError] keeps the layout and the value that
    failed to parse), the scanner's [bufio.ErrTooLong], and those that come
    from outside, from the file system or the JSON decoder, of which only
    the text is kept. *)

Inductive error :=
| ErrInvalidEventFormat
| ErrInvalidDelta (s : string)
| ErrParseTime (layout value : string)
| ErrTooLong
| ErrOutside (text : string).

Inductive result (A : Type) :=
| Ok (a : A)
| Err (e : error).
Arguments Ok {A} a.
Arguments Err {A} e.

Definition is_Err {A} (r : result A) : bool :=
  match r with Ok _ => false | Err _ => true end.

(** ** Bytes *)

Definition byte_val (c : ascii) : Z := Z.of_N (N_of_ascii c).

Definition isDigitB (c : ascii) : bool :=
  (48 <=? byte_val c) && (byte_val c <=? 57).

Definition digit_val (c : ascii) : Z := byte_val c - 48.

Fixpoint drop_str (n : nat) (s : string) : string :=
  match n, s with
  | O, _ => s
  | S n', String _ s' => drop_str n' s'
  | S _, EmptyString => EmptyString
  end.

Fixpoint take_str (n : nat) (s : string) : string :=
  match n, s with
  | S n', String c s' => String c (take_str n' s')
  | _, _ => EmptyString
  end.

(** [%d] of a non-negative number. *)
Fixpoint utoa_fuel (fuel : nat) (z : Z) (acc : string) : string :=
  match fuel with
  | O => acc
  | S f =>
      let acc' := String (ascii_of_N (Z.to_N (48 + z mod 10))) acc in
      if z <? 10 then acc' else utoa_fuel f (z / 10) acc'
  end.

Definition utoa (z : Z) : string := utoa_fuel 20 z "".

(** [%d] of a Go [int]. *)
Definition itoa (z : Z) : string :=
  if z <? 0 then "-" +:+ utoa (- z) else utoa z.

(** [%0wd] of a non-negative number. *)
Definition pad0 (w : nat) (z : Z) : string :=
  let s := utoa z in
  String.concat "" (replicate (w - String.length s)%nat "0") +:+ s.

(** ** Package [time] *)

Module time.

(** Nanoseconds since the zero Time; the program only ever holds the zero
    Time, times of day on January 1 of year 0, and such a time plus one
    Duration, all of which this representation holds exactly. *)
Definition Time := Z.
Definition Duration := Z.

(** [time.Time{}] *)
Definition zero : Time := 0.

Definition Nanosecond : Duration := 1.
Definition Microsecond : Duration := 1000 * Nanosecond.
Definition Millisecond : Duration := 1000 * Microsecond.
Definition Second : Duration := 1000 * Millisecond.
Definition Minute : Duration := 60 * Second.
Definition Hour : Duration := 60 * Minute.
Definition Day : Z := 24 * Hour.

(** Year 0 is a leap year of the proleptic Gregorian calendar: January 1
    of year 0 lies 366 days before the zero Time. *)
Definition year0 : Time := - (366 * Day).

(** [time.Date(0, January, 1, h, m, s, ns, UTC)], what [Parse] builds from a
    layout that has no date. *)
Definition clock (h m s ns : Z) : Time :=
  year0 + h * Hour + m * Minute + s * Second + ns.

Definition Equal (t u : Time) : bool := bool_decide (t = u).
Definition Before (t u : Time) : bool := bool_decide (t < u).
Definition After (t u : Time) : bool := bool_decide (u < t).

(** [t.Sub(u)]: the difference, saturated to the Duration range. *)
Definition Sub (t u : Time) : Duration :=
  let d := t - u in
  if bool_decide (d < min_int64) then min_int64
  else if bool_decide (max_int64 < d) then max_int64
  else d.

Definition Add (t : Time) (d : Duration) : Time := t + d.

(** Midnight of the day of [t], as
    [time.Date(t.Year(), t.Month(), t.Day(), 0, 0, 0, 0, t.Location())]. *)
Definition midnight (t : Time) : Time := t - t mod Day.

(** *** Parsing

    [Parse] walks the layout chunk by chunk ([nextStdChunk]): a literal
    prefix, then one element.  The program uses two layouts, given below
    already cut into chunks. *)

Inductive std :=
| stdHour                        (* "15" *)
| stdZeroMinute                  (* "04" *)
| stdZeroSecond                  (* "05" *)
| stdFracSecond0 (digits : nat)  (* ".000" *).

Record Layout := { text : string; chunks : list (string * std) }.

(** ["15:04:05.000"], the program's [timeLayout]. *)
Definition layoutMilli : Layout :=
  {| text := "15:04:05.000";
     chunks := [("", stdHour); (":", stdZeroMinute); (":", stdZeroSecond);
                ("", stdFracSecond0 3)] |}.

(** ["15:04:05"] *)
Definition layoutClock : Layout :=
  {| text := "15:04:05";
     chunks := [("", stdHour); (":", stdZeroMinute); (":", stdZeroSecond)] |}.

(** [skip(value, prefix)] for a prefix without spaces. *)
Fixpoint skip (value prefix : string) {struct prefix} : option string :=
  match prefix with
  | EmptyString => Some value
  | String p prefix' =>
      match value with
      | String v value' =>
          if bool_decide (v = p) then skip value' prefix' else None
      | EmptyString => None
      end
  end.

(** [getnum(s, fixed)]: one or two digits, exactly two when [fixed]. *)
Definition getnum (s : string) (fixed : bool) : option (Z * string) :=
  match s with
  | String c0 s1 =>
      if isDigitB c0 then
        match s1 with
        | String c1 s2 =>
            if isDigitB c1 then Some (digit_val c0 * 10 + digit_val c1, s2)
            else if fixed then None else Some (digit_val c0, s1)
        | EmptyString => if fixed then None else Some (digit_val c0, s1)
        end
      else None
  | EmptyString => None
  end.

Definition commaOrPeriod (c : ascii) : bool :=
  bool_decide (c = "."%char) || bool_decide (c = ","%char).

(** [leadingInt(s)]: the leading digits as a [uint64], the rest of the
    string; [None] on overflow past [1<<63]. *)
Fixpoint leadingInt (x : Z) (s : string) : option (Z * string) :=
  match s with
  | String c s' =>
      if isDigitB c then
        if 2 ^ 63 / 10 <? x then None
        else
          let x' := x * 10 + digit_val c in
          if 2 ^ 63 <? x' then None else leadingInt x' s'
      else Some (x, s)
  | EmptyString => Some (x, s)
  end.

(** The package's own [atoi]: an optional sign, then digits only. *)
Definition atoi (s : string) : option Z :=
  let '(neg, s') :=
    match s with
    | String c r =>
        if bool_decide (c = "-"%char) then (true, r)
        else if bool_decide (c = "+"%char) then (false, r)
        else (false, s)
    | EmptyString => (false, s)
    end in
  match leadingInt 0 s' with
  | Some (q, EmptyString) =>
      let x := wrap64 q in Some (if neg : bool then wrap64 (- x) else x)
  | _ => None
  end.

(** [parseNanoseconds(value, nbytes)]: a separator and [nbytes - 1]
    digits, scaled to nanoseconds. *)
Definition parseNanoseconds (value : string) (nbytes : nat) : option Z :=
  match value with
  | String c _ =>
      if commaOrPeriod c then
        let nbytes := Nat.min nbytes 10 in
        match atoi (drop_str 1 (take_str nbytes value)) with
        | Some ns =>
            if ns <? 0 then None
            else Some (ns * 10 ^ (10 - Z.of_nat nbytes))
        | None => None
        end
      else None
  | EmptyString => None
  end.

(** The number of leading digits of [s]. *)
Fixpoint span_digits (s : string) : nat :=
  match s with
  | String c s' => if isDigitB c then S (span_digits s') else O
  | EmptyString => O
  end.

(** Does the value go on with a separator and a digit? *)
Definition has_fraction (value : string) : bool :=
  match value with
  | String c (String d _) => commaOrPeriod c && isDigitB d
  | _ => false
  end.

Definition next_is_frac (cs : list (string * std)) : bool :=
  match cs with
  | (_, stdFracSecond0 _) :: _ => true
  | _ => false
  end.

Fixpoint parse_chunks (cs : list (string * std)) (value : string)
    (hour min sec nsec : Z) : option (Z * Z * Z * Z) :=
  match cs with
  | [] =>
      match value with
      | EmptyString => Some (hour, min, sec, nsec)
      | _ => None (* extra text *)
      end
  | (prefix, el) :: cs' =>
      match skip value prefix with
      | None => None
      | Some value =>
          match el with
          | stdHour =>
              match getnum value false with
              | Some (h, value') =>
                  if 24 <=? h then None
                  else parse_chunks cs' value' h min sec nsec
              | None => None
              end
          | stdZeroMinute =>
              match getnum value true with
              | Some (m, value') =>
                  if 60 <=? m then None
                  else parse_chunks cs' value' hour m sec nsec
              | None => None
              end
          | stdZeroSecond =>
              match getnum value true with
              | Some (s, value') =>
                  if 60 <=? s then None
                  else if has_fraction value' && negb (next_is_frac cs') then
                    (* a fractional second in the input but none in the
                       layout: it is taken all the same *)
                    let n := S (span_digits (drop_str 1 value')) in
                    match parseNanoseconds value' n with
                    | Some ns =>
                        parse_chunks cs' (drop_str n value') hour min s ns
                    | None => None
                    end
                  else parse_chunks cs' value' hour min s nsec
              | None => None
              end
          | stdFracSecond0 d =>
              let ndigit := S d in
              if (String.length value <? ndigit)%nat then None
              else
                match parseNanoseconds value ndigit with
                | Some ns =>
                    parse_chunks cs' (drop_str ndigit value) hour min sec ns
                | None => None
                end
          end
      end
  end.

(** [time.Parse(layout, value)]; on failure Go returns the zero Time
    together with the error. *)
Definition Parse (layout : Layout) (value : string) : result Time :=
  match parse_chunks (chunks layout) value 0 0 0 0 with
  | Some (h, m, s, ns) => Ok (clock h m s ns)
  | None => Err (ErrParseTime (text layout) value)
  end.

(** The [Time] a caller holds after [t, err := Parse(...)]. *)
Definition value_of (r : result Time) : Time :=
  match r with Ok t => t | Err _ => zero end.

(** [t.Format("15:04:05.000")] *)
Definition Format (t : Time) : string :=
  let tod := t mod Day in
  pad0 2 (tod / Hour) +:+ ":" +:+ pad0 2 (tod mod Hour / Minute) +:+ ":"
    +:+ pad0 2 (tod mod Minute / Second) +:+ "."
    +:+ pad0 3 (tod mod Second / Millisecond).

(** *** [Duration.String] *)

(** [fmtFrac(buf, v, prec)]: the last [prec] digits of [v] without their
    trailing zeros, after a point if any digit is left; and [v] without
    these digits. *)
Fixpoint fmtFrac (prec : nat) (v : Z) (print : bool) (acc : string)
    : string * Z :=
  match prec with
  | O => (if print then "." +:+ acc else acc, v)
  | S prec' =>
      let digit := v mod 10 in
      let print := print || negb (digit =? 0) in
      fmtFrac prec' (v / 10) print
        (if print then String (ascii_of_N (Z.to_N (48 + digit))) acc
         else acc)
  end.

(** [d.String()], as in ["1h2m3.5s"], ["10m0s"], ["1.5ms"], ["0s"]. *)
Definition String_ (d : Duration) : string :=
  let neg := d <? 0 in
  let u := if neg then - d else d in
  let body :=
    if u <? Second then
      if u =? 0 then "0s"
      else if u <? Microsecond then utoa u +:+ "ns"
      else if u <? Millisecond then
        let '(frac, v) := fmtFrac 3 u false "" in
        utoa v +:+ frac
          +:+ String (ascii_of_N 194) (String (ascii_of_N 181) "s")
      else
        let '(frac, v) := fmtFrac 6 u false "" in
        utoa v +:+ frac +:+ "ms"
    else
      let '(frac, v) := fmtFrac 9 u false "" in
      let secs := utoa (v mod 60) +:+ frac +:+ "s" in
      let v := v / 60 in
      if 0 <? v then
        let mins := utoa (v mod 60) +:+ "m" +:+ secs in
        let v := v / 60 in
        if 0 <? v then utoa v +:+ "h" +:+ mins else mins
      else secs in
  if neg then "-" +:+ body else body.

End time.

(** ** Package [strconv] *)

Module strconv.

Inductive NumError := ErrSyntax | ErrRange.

(** [lower(c)]: [c | ('x' - 'X')]. *)
Definition lower (c : ascii) : Z := Z.lor (byte_val c) 32.

(** *** Integers *)

(** The loop of [ParseUint(s, 10, 64)]: a byte that is not a digit is a
    syntax error, a value past [1<<64 - 1] a range error, whichever comes
    first. *)
Fixpoint parseUint_loop (n : Z) (s : string) : Z * option NumError :=
  match s with
  | EmptyString => (n, None)
  | String c s' =>
      if isDigitB c then
        if (2 ^ 64 - 1) / 10 + 1 <=? n then (2 ^ 64 - 1, Some ErrRange)
        else
          let n1 := n * 10 + digit_val c in
          if 2 ^ 64 - 1 <? n1 then (2 ^ 64 - 1, Some ErrRange)
          else parseUint_loop n1 s'
      else (0, Some ErrSyntax)
  end.

Definition ParseUint (s : string) : Z * option NumError :=
  match s with
  | EmptyString => (0, Some ErrSyntax)
  | _ => parseUint_loop 0 s
  end.

(** [ParseInt(s, 10, 0)] *)
Definition ParseInt (s : string) : Z * option NumError :=
  match s with
  | EmptyString => (0, Some ErrSyntax)
  | String c r =>
      let '(neg, s') :=
        if bool_decide (c = "+"%char) then (false, r)
        else if bool_decide (c = "-"%char) then (true, r)
        else (false, s) in
      match ParseUint s' with
      | (_, Some ErrSyntax) => (0, Some ErrSyntax)
      | (un, _) =>
          if negb neg && (2 ^ 63 <=? un) then (2 ^ 63 - 1, Some ErrRange)
          else if neg && (2 ^ 63 <? un) then (- 2 ^ 63, Some ErrRange)
          else (if neg : bool then - un else un, None)
      end
  end.

(** The fast path of [Atoi]: digits after an optional sign. *)
Fixpoint atoi_fast (n : Z) (s : string) : option Z :=
  match s with
  | EmptyString => Some n
  | String c s' =>
      if isDigitB c then atoi_fast (n * 10 + digit_val c) s' else None
  end.

Definition Atoi (s : string) : Z * option NumError :=
  let sLen := String.length s in
  if ((0 <? sLen) && (sLen <? 19))%nat then
    match s with
    | String c r =>
        let signed :=
          bool_decide (c = "-"%char) || bool_decide (c = "+"%char) in
        let digits := if signed then r else s in
        match digits with
        | EmptyString => (0, Some ErrSyntax)
        | _ =>
            match atoi_fast 0 digits with
            | Some n =>
                (if bool_decide (c = "-"%char) then - n else n, None)
            | None => (0, Some ErrSyntax)
            end
        end
    | EmptyString => (0, Some ErrSyntax)
    end
  else ParseInt s.

(** *** Floating point

    A [float64] is a [spec_float] of the Standard Library's executable
    IEEE 754 specification at precision 53 and maximal exponent 1024; the
    operations round to nearest, ties to even, as the hardware does. *)

Definition float64 := spec_float.

Definition prec : Z := 53.
Definition emax : Z := 1024.

Definition fsub : float64 -> float64 -> float64 := SFsub prec emax.
Definition fmul : float64 -> float64 -> float64 := SFmul prec emax.

(** [float64(n)] for an integer [n]. *)
Definition of_int (n : Z) : float64 := binary_normalize prec emax n 0 false.

(** The correctly rounded quotient of two positive integers. *)
Definition round_quot (neg : bool) (n d : positive) : float64 :=
  SFdiv prec emax (S754_finite neg n 0) (S754_finite false d 0).

(** [int(f)]: the value truncated toward zero.  Go leaves the conversion
    of a NaN, an infinity or a value outside [int64] to the
    implementation; amd64 yields the least [int64], which is what is
    modelled. *)
Definition to_int (f : float64) : Z :=
  match f with
  | S754_zero _ => 0
  | S754_finite s m e =>
      let a :=
        match e with
        | Zneg p => Z.pos m / 2 ^ Z.pos p
        | _ => Z.pos m * 2 ^ e
        end in
      let v := if s then - a else a in
      if (min_int64 <=? v) && (v <=? max_int64) then v else min_int64
  | _ => min_int64
  end.

(** [commonPrefixLenIgnoreCase(s, prefix)], [prefix] in lower case. *)
Fixpoint commonPrefixLenIgnoreCase (s prefix : string) : nat :=
  match s, prefix with
  | String c s', String p prefix' =>
      let c' :=
        if (65 <=? byte_val c) && (byte_val c <=? 90)
        then byte_val c + 32 else byte_val c in
      if c' =? byte_val p then S (commonPrefixLenIgnoreCase s' prefix')
      else O
  | _, _ => O
  end.

(** [special(s)]: an infinity or a NaN, and the number of bytes read. *)
Definition special (s : string) : option (float64 * nat) :=
  let inf (neg : bool) (nsign : nat) (s : string) :=
    let n := commonPrefixLenIgnoreCase s "infinity" in
    let n := if ((3 <? n) && (n <? 8))%nat then 3%nat else n in
    if ((n =? 3) || (n =? 8))%nat
    then Some (S754_infinity neg, (nsign + n)%nat) else None in
  match s with
  | EmptyString => None
  | String c r =>
      if bool_decide (c = "+"%char) then inf false 1%nat r
      else if bool_decide (c = "-"%char) then inf true 1%nat r
      else if bool_decide (c = "i"%char) || bool_decide (c = "I"%char)
      then inf false 0%nat s
      else if bool_decide (c = "n"%char) || bool_decide (c = "N"%char)
      then if (commonPrefixLenIgnoreCase s "nan" =? 3)%nat
           then Some (S754_nan, 3%nat) else None
      else None
  end.

(** [underscoreOK(s)]: underscores only between digits, or between a base
    prefix and a digit.  [saw] is the kind of the last byte. *)
Inductive saw := SawStart | SawDigit | SawUnderscore | SawOther.

Fixpoint underscore_scan (hex : bool) (last : saw) (s : string) : bool :=
  match s with
  | EmptyString => match last with SawUnderscore => false | _ => true end
  | String c s' =>
      if isDigitB c || (hex && (97 <=? lower c) && (lower c <=? 102))
      then underscore_scan hex SawDigit s'
      else if bool_decide (c = "_"%char) then
        match last with
        | SawDigit => underscore_scan hex SawUnderscore s'
        | _ => false
        end
      else
        match last with
        | SawUnderscore => false
        | _ => underscore_scan hex SawOther s'
        end
  end.

Definition underscoreOK (s : string) : bool :=
  let s :=
    match s with
    | String c r =>
        if bool_decide (c = "-"%char) || bool_decide (c = "+"%char)
        then r else s
    | EmptyString => s
    end in
  match s with
  | String c0 (String c1 r) =>
      if bool_decide (c0 = "0"%char)
         && ((lower c1 =? 98) || (lower c1 =? 111) || (lower c1 =? 120))
      then underscore_scan (lower c1 =? 120) SawDigit r
      else underscore_scan false SawStart s
  | _ => underscore_scan false SawStart s
  end.

(** The digits loop of [readFloat].  [mant] holds every significant digit
    (Go keeps 19 of them and a flag for the rest, and reads the string
    again at full precision when the flag matters), [nd] counts them, and
    [dp] is the position of the point. *)
Record mantissa := {
  sawdot : bool; sawdigits : bool; underscores : bool;
  nd : Z; dp : Z; mant : Z
}.

Fixpoint read_mantissa (hex : bool) (st : mantissa) (s : string)
    : mantissa * string :=
  match s with
  | EmptyString => (st, s)
  | String c s' =>
      if bool_decide (c = "_"%char) then
        read_mantissa hex
          {| sawdot := sawdot st; sawdigits := sawdigits st;
             underscores := true; nd := nd st; dp := dp st;
             mant := mant st |} s'
      else if bool_decide (c = "."%char) then
        if sawdot st then (st, s)
        else
          read_mantissa hex
            {| sawdot := true; sawdigits := sawdigits st;
               underscores := underscores st; nd := nd st; dp := nd st;
               mant := mant st |} s'
      else if isDigitB c then
        if bool_decide (c = "0"%char) && (nd st =? 0) then
          read_mantissa hex
            {| sawdot := sawdot st; sawdigits := true;
               underscores := underscores st; nd := nd st; dp := dp st - 1;
               mant := mant st |} s'
        else
          read_mantissa hex
            {| sawdot := sawdot st; sawdigits := true;
               underscores := underscores st; nd := nd st + 1; dp := dp st;
               mant := mant st * (if hex then 16 else 10) + digit_val c |}
            s'
      else if hex && (97 <=? lower c) && (lower c <=? 102) then
        read_mantissa hex
          {| sawdot := sawdot st; sawdigits := true;
             underscores := underscores st; nd := nd st + 1; dp := dp st;
             mant := mant st * 16 + (lower c - 97 + 10) |} s'
      else (st, s)
  end.

(** The digits of the exponent; past 10000 the value stops growing. *)
Fixpoint read_exponent (e : Z) (us : bool) (s : string)
    : Z * bool * string :=
  match s with
  | String c s' =>
      if bool_decide (c = "_"%char) then read_exponent e true s'
      else if isDigitB c then
        read_exponent (if e <? 10000 then e * 10 + digit_val c else e) us s'
      else (e, us, s)
  | EmptyString => (e, us, s)
  end.

Record parsed := {
  p_neg : bool; p_hex : bool;
  p_mant : Z;   (* every significant digit *)
  p_exp : Z;    (* power of ten, or of two when [p_hex] *)
  p_rest : string
}.

(** [readFloat(s)]; [None] when [ok] is false. *)
Definition readFloat (s : string) : option parsed :=
  match s with
  | EmptyString => None
  | String c r =>
      let '(neg, s1) :=
        if bool_decide (c = "+"%char) then (false, r)
        else if bool_decide (c = "-"%char) then (true, r)
        else (false, s) in
      let '(hex, s2) :=
        match s1 with
        | String c0 (String c1 (String c2 r2)) =>
            if bool_decide (c0 = "0"%char) && (lower c1 =? 120)
            then (true, String c2 r2) else (false, s1)
        | _ => (false, s1)
        end in
      let '(m, s3) :=
        read_mantissa hex
          {| sawdot := false; sawdigits := false; underscores := false;
             nd := 0; dp := 0; mant := 0 |} s2 in
      if negb (sawdigits m) then None
      else
        let dp0 := if sawdot m then dp m else nd m in
        let dp1 := if hex then dp0 * 4 else dp0 in
        let nd1 := if hex then nd m * 4 else nd m in
        let finish (dp2 : Z) (us : bool) (rest : string) :=
          let consumed :=
            take_str (String.length s - String.length rest) s in
          if us && negb (underscoreOK consumed) then None
          else
            Some {| p_neg := neg; p_hex := hex; p_mant := mant m;
                    p_exp := if mant m =? 0 then 0 else dp2 - nd1;
                    p_rest := rest |} in
        match s3 with
        | String ce s4 =>
            if lower ce =? (if hex then 112 else 101) then
              match s4 with
              | EmptyString => None
              | String cs s5 =>
                  let '(esign, s6) :=
                    if bool_decide (cs = "+"%char) then (1, s5)
                    else if bool_decide (cs = "-"%char) then (-1, s5)
                    else (1, s4) in
                  match s6 with
                  | String cd _ =>
                      if isDigitB cd then
                        let '(e, us, rest) :=
                          read_exponent 0 (underscores m) s6 in
                        finish (dp1 + e * esign) us rest
                      else None
                  | EmptyString => None
                  end
              end
            else if hex then None
            else finish dp1 (underscores m) s3
        | EmptyString =>
            if hex then None else finish dp1 (underscores m) s3
        end
  end.

(** The nearest [float64] to [mant * 10^exp], or to [mant * 2^exp]. *)
Definition nearest (p : parsed) : float64 :=
  match p_mant p with
  | Zpos m =>
      if p_hex p then
        binary_normalize prec emax
          (if p_neg p then Z.neg m else Z.pos m) (p_exp p) false
      else
        match p_exp p with
        | Zneg e => round_quot (p_neg p) m (10 ^ e)%positive
        | e =>
            binary_normalize prec emax
              ((if p_neg p then Z.neg m else Z.pos m) * 10 ^ e) 0 false
        end
  | _ => S754_zero (p_neg p)
  end.

(** [ParseFloat(s, 64)].  With a syntax error the value is 0; out of range
    it is an infinity. *)
Definition ParseFloat (s : string) : float64 * option NumError :=
  match special s with
  | Some (f, n) =>
      if (n =? String.length s)%nat then (f, None)
      else (S754_zero false, Some ErrSyntax)
  | None =>
      match readFloat s with
      | Some p =>
          match p_rest p with
          | EmptyString =>
              let f := nearest p in
              (f, match f with
                  | S754_infinity _ => Some ErrRange
                  | _ => None
                  end)
          | _ => (S754_zero false, Some ErrSyntax)
          end
      | None => (S754_zero false, Some ErrSyntax)
      end
  end.

End strconv.

(** ** Package [strings] *)

Module strings.

(** [strings.Split(s, sep)] for a one-byte separator: the pieces between
    the separators, one more than there are separators. *)
Fixpoint Split (s : string) (sep : ascii) : list string :=
  match s with
  | EmptyString => [EmptyString]
  | String c s' =>
      if bool_decide (c = sep) then EmptyString :: Split s' sep
      else
        match Split s' sep with
        | p :: ps => String c p :: ps
        | [] => [String c EmptyString]
        end
  end.

End strings.

(** ** Package [regexp]

    The fragment of the RE2 syntax that the program's pattern is written
    in: single bytes, the classes [\d] and [.], concatenation, a greedy
    star over a class, a greedy [?], and capturing groups.  [\d] is the
    ASCII digits, and [.] is every byte but the newline. *)

Module regexp.

Inductive cls :=
| Byte (c : ascii)
| Digit
| Dot.

Definition cls_match (cl : cls) (b : ascii) : bool :=
  match cl with
  | Byte c => bool_decide (b = c)
  | Digit => isDigitB b
  | Dot => negb (byte_val b =? 10)
  end.

Inductive Regexp :=
| Chr (cl : cls)
| Cat (r1 r2 : Regexp)
| Star (cl : cls)
| Quest (r : Regexp)
| Group (n : nat) (r : Regexp).

(** What a group has captured, the latest capture first. *)
Definition caps := list (nat * string).

Fixpoint cap (n : nat) (c : caps) : string :=
  match c with
  | [] => EmptyString
  | (i, t) :: c' => if (i =? n)%nat then t else cap n c'
  end.

Section Matcher.
Context {R : Type}.

(** A greedy star: as many bytes as possible first, then fewer. *)
Fixpoint star (cl : cls) (s : string) (k : string -> option R)
    : option R :=
  match s with
  | String b s' =>
      if cls_match cl b then
        match star cl s' k with
        | Some x => Some x
        | None => k s
        end
      else k s
  | EmptyString => k s
  end.

(** The leftmost-first match a backtracking engine finds at the start
    of [s]: [k] receives what is left of the input and the captures. *)
Fixpoint run (r : Regexp) (s : string) (c : caps)
    (k : string -> caps -> option R) : option R :=
  match r with
  | Chr cl =>
      match s with
      | String b s' => if cls_match cl b then k s' c else None
      | EmptyString => None
      end
  | Cat r1 r2 => run r1 s c (fun s' c' => run r2 s' c' k)
  | Star cl => star cl s (fun s' => k s' c)
  | Quest r' =>
      match run r' s c k with
      | Some x => Some x
      | None => k s c
      end
  | Group n r' =>
      run r' s c
        (fun s' c' =>
           k s' ((n, take_str (String.length s - String.length s') s)
                   :: c'))
  end.
End Matcher.

(** [re.FindStringSubmatch(s)] for a pattern with [groups] groups: the
    match that starts earliest, as the text of the whole match followed
    by the text of each group (empty for a group that took no part);
    [None] is the nil slice. *)
Fixpoint FindStringSubmatch (re : Regexp) (groups : nat) (s : string)
    : option (list string) :=
  match
    run re s []
      (fun rest c =>
         Some (take_str (String.length s - String.length rest) s
                 :: map (fun i => cap i c) (seq 1 groups)))
  with
  | Some ms => Some ms
  | None =>
      match s with
      | String _ s' => FindStringSubmatch re groups s'
      | EmptyString => None
      end
  end.

(** The language of a pattern: the strings it matches as a whole. *)
Inductive Matches : Regexp -> string -> Prop :=
| MChr cl b : cls_match cl b = true -> Matches (Chr cl) (String b EmptyString)
| MCat r1 r2 s1 s2 :
    Matches r1 s1 -> Matches r2 s2 -> Matches (Cat r1 r2) (s1 +:+ s2)
| MStarNil cl : Matches (Star cl) EmptyString
| MStarCons cl b s :
    cls_match cl b = true -> Matches (Star cl) s ->
    Matches (Star cl) (String b s)
| MQuestNone r : Matches (Quest r) EmptyString
| MQuestSome r s : Matches r s -> Matches (Quest r) s
| MGroup n r s : Matches r s -> Matches (Group n r) s.

(** The same with the captures: [r] matches [s] and turns the captures
    [c] into [c']. *)
Inductive Captures : Regexp -> string -> caps -> caps -> Prop :=
| CChr cl b c :
    cls_match cl b = true -> Captures (Chr cl) (String b EmptyString) c c
| CCat r1 r2 s1 s2 c c1 c2 :
    Captures r1 s1 c c1 -> Captures r2 s2 c1 c2 ->
    Captures (Cat r1 r2) (s1 +:+ s2) c c2
| CStar cl s c : Matches (Star cl) s -> Captures (Star cl) s c c
| CQuestNone r c : Captures (Quest r) EmptyString c c
| CQuestSome r s c c' : Captures r s c c' -> Captures (Quest r) s c c'
| CGroup n r s c c' :
    Captures r s c c' -> Captures (Group n r) s c ((n, s) :: c').

(** The groups of a pattern. *)
Fixpoint groups (r : Regexp) : list nat :=
  match r with
  | Chr _ | Star _ => []
  | Cat r1 r2 => groups r1 ++ groups r2
  | Quest r' => groups r'
  | Group n r' => n :: groups r'
  end.

End regexp.

(** ** Packages [os] and [bufio] *)

Module os.

(** A file open for reading: the bytes it yields, and the error that
    ends the reading if that is not the end of the file. *)
Record File := { content : string; readErr : option error }.

End os.

Module bufio.

(** [MaxScanTokenSize]: the size the buffer of a [Scanner] made by
    [NewScanner] grows to at most. *)
Definition MaxScanTokenSize : Z := 64 * 1024.

(** [dropCR]: the line without the carriage return at its end. *)
Fixpoint dropCR (data : string) : string :=
  match data with
  | EmptyString => EmptyString
  | String c EmptyString =>
      if bool_decide (c = ascii_of_N 13) then EmptyString else data
  | String c data' => String c (dropCR data')
  end.

(** The run of [for s.Scan() { ... s.Text() ... }] with the split
    function [ScanLines], and [s.Err()] after it: the lines, cut at every
    newline, a last line without newline being one if it is not empty;
    and the error the scanner has stopped with.  [line] are the bytes of
    the line under way and [n] their number.  A line that fills the
    buffer before its newline has come is too long: the scanner stops
    there, what it had of the line is no token.  The error of the reader
    ends the input as the end of the file does, and is kept. *)
Fixpoint scan (line : string) (n : Z) (input : string)
    (readErr : option error) : list string * option error :=
  match input with
  | EmptyString =>
      (if n =? 0 then [] else [dropCR line], readErr)
  | String c input' =>
      if bool_decide (c = ascii_of_N 10) then
        let '(tokens, err) := scan EmptyString 0 input' readErr in
        (dropCR line :: tokens, err)
      else if n + 1 =? MaxScanTokenSize then ([], Some ErrTooLong)
      else scan (line +:+ String c EmptyString) (n + 1) input' readErr
  end.

Definition Scan (f : os.File) : list string * option error :=
  scan EmptyString 0 (os.content f) (os.readErr f).

End bufio.

(** ** Package [sort] *)

(** [sort.Slice] as of Go 1.19 and later: a pattern-defeating quicksort
    over the index-based [less] and [swap] of the slice.  The slice is a
    list and an index a [nat].  Go panics on an index outside the slice;
    here [Less] is then false and [Swap] does nothing. *)

Module sort.

Section Pdqsort.
Context {A : Type} (lt : A -> A -> bool).

(** [data.Less(i, j)] *)
Definition Less (d : list A) (i j : nat) : bool :=
  match d !! i, d !! j with
  | Some x, Some y => lt x y
  | _, _ => false
  end.

(** [data.Swap(i, j)] *)
Definition Swap (d : list A) (i j : nat) : list A :=
  match d !! i, d !! j with
  | Some x, Some y => <[i:=y]> (<[j:=x]> d)
  | _, _ => d
  end.

(** The inner loop of the insertion sort:
    [for j := i; j > a && Less(j, j-1); j-- { Swap(j, j-1) }]. *)
Fixpoint sink (d : list A) (a j : nat) : list A :=
  match j with
  | O => d
  | S j' =>
      if (a <? j)%nat && Less d j j' then sink (Swap d j j') a j' else d
  end.

(** [for i := ...; i < b; i++], [n] iterations left. *)
Fixpoint insertion_loop (n : nat) (d : list A) (a i : nat) : list A :=
  match n with
  | O => d
  | S n' => insertion_loop n' (sink d a i) a (S i)
  end.

Definition insertionSort_func (d : list A) (a b : nat) : list A :=
  insertion_loop (b - (a + 1)) d a (a + 1).

(** [siftDown_func]; [root] grows with every round, [fuel] bounds the
    rounds. *)
Fixpoint siftDown_func (fuel : nat) (d : list A) (lo hi first : nat)
    : list A :=
  match fuel with
  | O => d
  | S fuel' =>
      let root := lo in
      let child := (2 * root + 1)%nat in
      if (hi <=? child)%nat then d
      else
        let child :=
          if ((child + 1 <? hi)%nat
              && Less d (first + child) (first + child + 1))
          then (child + 1)%nat else child in
        if negb (Less d (first + root) (first + child)) then d
        else
          siftDown_func fuel' (Swap d (first + root) (first + child))
            child hi first
  end.

(** [for i := (hi - 1) / 2; i >= 0; i--] *)
Fixpoint heapify (i : nat) (d : list A) (hi first : nat) : list A :=
  let d' := siftDown_func hi d i hi first in
  match i with
  | O => d'
  | S i' => heapify i' d' hi first
  end.

(** [for i := hi - 1; i >= 0; i--] *)
Fixpoint heap_pop (i : nat) (d : list A) (first : nat) : list A :=
  let d' := siftDown_func (S i) (Swap d first (first + i)) 0 i first in
  match i with
  | O => d'
  | S i' => heap_pop i' d' first
  end.

Definition heapSort_func (d : list A) (a b : nat) : list A :=
  let first := a in
  let hi := (b - a)%nat in
  match hi with
  | O => d (* both loops start below zero *)
  | S hi' => heap_pop hi' (heapify (hi' / 2) d hi first) first
  end.

(** [for i <= j && Less(i, a) { i++ }] *)
Fixpoint scan_up (fuel : nat) (d : list A) (a i j : nat) : nat :=
  match fuel with
  | O => i
  | S fuel' =>
      if (i <=? j)%nat && Less d i a then scan_up fuel' d a (S i) j
      else i
  end.

(** [for i <= j && !Less(j, a) { j-- }]; here [1 <= i]. *)
Fixpoint scan_down (d : list A) (a i j : nat) : nat :=
  match j with
  | O => j
  | S j' =>
      if (i <=? j)%nat && negb (Less d j a) then scan_down d a i j'
      else j
  end.

(** The [for] loop in the second half of [partition_func]. *)
Fixpoint partition_loop (fuel : nat) (d : list A) (a i j : nat)
    : list A * nat :=
  match fuel with
  | O => (d, j)
  | S fuel' =>
      let i := scan_up (S j) d a i j in
      let j := scan_down d a i j in
      if (j <? i)%nat then (d, j)
      else partition_loop fuel' (Swap d i j) a (S i) (j - 1)
  end.

Definition partition_func (d : list A) (a b pivot : nat)
    : list A * nat * bool :=
  let d := Swap d a pivot in
  let i := (a + 1)%nat in
  let j := (b - 1)%nat in
  let i := scan_up (S j) d a i j in
  let j := scan_down d a i j in
  if (j <? i)%nat then (Swap d j a, j, true)
  else
    let '(d, j) := partition_loop (b - a) (Swap d i j) a (S i) (j - 1) in
    (Swap d j a, j, false).

(** [for i <= j && !Less(a, i) { i++ }] *)
Fixpoint scan_up_eq (fuel : nat) (d : list A) (a i j : nat) : nat :=
  match fuel with
  | O => i
  | S fuel' =>
      if (i <=? j)%nat && negb (Less d a i)
      then scan_up_eq fuel' d a (S i) j else i
  end.

(** [for i <= j && Less(a, j) { j-- }] *)
Fixpoint scan_down_eq (d : list A) (a i j : nat) : nat :=
  match j with
  | O => j
  | S j' =>
      if (i <=? j)%nat && Less d a j then scan_down_eq d a i j' else j
  end.

Fixpoint partitionEqual_loop (fuel : nat) (d : list A) (a i j : nat)
    : list A * nat :=
  match fuel with
  | O => (d, i)
  | S fuel' =>
      let i := scan_up_eq (S j) d a i j in
      let j := scan_down_eq d a i j in
      if (j <? i)%nat then (d, i)
      else partitionEqual_loop fuel' (Swap d i j) a (S i) (j - 1)
  end.

Definition partitionEqual_func (d : list A) (a b pivot : nat)
    : list A * nat :=
  partitionEqual_loop (S (b - a)) (Swap d a pivot) a (a + 1) (b - 1).

(** The two shifting loops of [partialInsertionSort_func]. *)
Fixpoint shift_left (d : list A) (j : nat) : list A :=
  match j with
  | O => d (* the loop runs while [j >= 1] *)
  | S j' => if Less d j j' then shift_left (Swap d j j') j' else d
  end.

Fixpoint shift_right (fuel : nat) (d : list A) (j b : nat) : list A :=
  match fuel with
  | O => d
  | S fuel' =>
      if (j <? b)%nat && Less d j (j - 1)
      then shift_right fuel' (Swap d j (j - 1)) (S j) b else d
  end.

(** [for i < b && !Less(i, i-1) { i++ }] *)
Fixpoint skip_ordered (fuel : nat) (d : list A) (i b : nat) : nat :=
  match fuel with
  | O => i
  | S fuel' =>
      if (i <? b)%nat && negb (Less d i (i - 1))
      then skip_ordered fuel' d (S i) b else i
  end.

(** [for j := 0; j < maxSteps; j++], [steps] rounds left. *)
Fixpoint partial_loop (steps : nat) (d : list A) (a b i : nat)
    : list A * bool :=
  match steps with
  | O => (d, false)
  | S steps' =>
      let i := skip_ordered b d i b in
      if (i =? b)%nat then (d, true)
      else if (b - a <? 50)%nat then (d, false)
      else
        let d := Swap d i (i - 1) in
        let d := if (2 <=? i - a)%nat then shift_left d (i - 1) else d in
        let d :=
          if (2 <=? b - i)%nat then shift_right b d (i + 1) b else d in
        partial_loop steps' d a b i
  end.

Definition partialInsertionSort_func (d : list A) (a b : nat)
    : list A * bool :=
  partial_loop 5 d a b (a + 1).

(** [xorshift.Next] on a [uint64], with the shifts 13, 7 and 17 of the
  64-bit generator. *)
Definition xorshift_Next (r : Z) : Z :=
  let r := Z.lxor r (Z.shiftl r 13 mod 2 ^ 64) in
  let r := Z.lxor r (Z.shiftr r 7) in
  Z.lxor r (Z.shiftl r 17 mod 2 ^ 64).

(** [bits.Len(uint(n))] *)
Definition bits_Len (n : nat) : nat :=
  match n with
  | O => O
  | _ => Z.to_nat (Z.log2 (Z.of_nat n) + 1)
  end.

Fixpoint breakPatterns_loop (n : nat) (d : list A) (random : Z)
    (a length idx i : nat) : list A :=
  match n with
  | O => d
  | S n' =>
      let random := xorshift_Next random in
      let modulus := 2 ^ Z.of_nat (bits_Len length) in
      let other := Z.to_nat (Z.land random (modulus - 1)) in
      let other :=
        if (length <=? other)%nat then (other - length)%nat else other in
      breakPatterns_loop n' (Swap d (idx + i) (a + other)) random
        a length idx (S i)
  end.

Definition breakPatterns_func (d : list A) (a b : nat) : list A :=
  let length := (b - a)%nat in
  if (8 <=? length)%nat then
    breakPatterns_loop 3 d (Z.of_nat length) a length
      (a + length / 4 * 2 - 1) 0
  else d.

Inductive sortedHint := unknownHint | increasingHint | decreasingHint.

(** [order2_func]: the two indexes in order, and the swaps counted. *)
Definition order2_func (d : list A) (a b swaps : nat)
    : nat * nat * nat :=
  if Less d b a then (b, a, S swaps) else (a, b, swaps).

Definition median_func (d : list A) (a b c swaps : nat) : nat * nat :=
  let '(a, b, swaps) := order2_func d a b swaps in
  let '(b, c, swaps) := order2_func d b c swaps in
  let '(a, b, swaps) := order2_func d a b swaps in
  (b, swaps).

Definition medianAdjacent_func (d : list A) (a swaps : nat) : nat * nat :=
  median_func d (a - 1) a (a + 1) swaps.

Definition choosePivot_func (d : list A) (a b : nat)
    : nat * sortedHint :=
  let l := (b - a)%nat in
  let i := (a + l / 4 * 1)%nat in
  let j := (a + l / 4 * 2)%nat in
  let k := (a + l / 4 * 3)%nat in
  let '(j, swaps) :=
    if (8 <=? l)%nat then
      let '(i, j, k, swaps) :=
        if (50 <=? l)%nat then
          let '(i, swaps) := medianAdjacent_func d i 0 in
          let '(j, swaps) := medianAdjacent_func d j swaps in
          let '(k, swaps) := medianAdjacent_func d k swaps in
          (i, j, k, swaps)
        else (i, j, k, 0%nat) in
      median_func d i j k swaps
    else (j, 0%nat) in
  match swaps with
  | 0%nat => (j, increasingHint)
  | 12%nat => (j, decreasingHint)
  | _ => (j, unknownHint)
  end.

(** [for i < j { Swap(i, j); i++; j-- }] *)
Fixpoint reverse_loop (fuel : nat) (d : list A) (i j : nat) : list A :=
  match fuel with
  | O => d
  | S fuel' =>
      if (i <? j)%nat then reverse_loop fuel' (Swap d i j) (S i) (j - 1)
      else d
  end.

Definition reverseRange_func (d : list A) (a b : nat) : list A :=
  reverse_loop (b - a) d a (b - 1).

(** [pdqsort_func(data, a, b, limit)].  Every round of its loop, and
    every call of itself, works on a shorter range; [fuel] counts them,
    and [None] means that it did not suffice. *)
Fixpoint pdqsort_func (fuel : nat) (d : list A) (a b limit : nat)
    (wasBalanced wasPartitioned : bool) : option (list A) :=
  match fuel with
  | O => None
  | S fuel' =>
      let length := (b - a)%nat in
      if (length <=? 12)%nat then Some (insertionSort_func d a b)
      else if (limit =? 0)%nat then Some (heapSort_func d a b)
      else
        let '(d, limit) :=
          if negb wasBalanced
          then (breakPatterns_func d a b, (limit - 1)%nat)
          else (d, limit) in
        let '(pivot, hint) := choosePivot_func d a b in
        let '(d, pivot, hint) :=
          match hint with
          | decreasingHint =>
              (reverseRange_func d a b, (b - 1 - (pivot - a))%nat,
               increasingHint)
          | _ => (d, pivot, hint)
          end in
        let '(d, sorted) :=
          match hint with
          | increasingHint =>
              if wasBalanced && wasPartitioned
              then partialInsertionSort_func d a b
              else (d, false)
          | _ => (d, false)
          end in
        if sorted then Some d
        else if (0 <? a)%nat && negb (Less d (a - 1) pivot) then
          let '(d, mid) := partitionEqual_func d a b pivot in
          pdqsort_func fuel' d mid b limit wasBalanced wasPartitioned
        else
          let '(d, mid, alreadyPartitioned) :=
            partition_func d a b pivot in
          let leftLen := (mid - a)%nat in
          let rightLen := (b - mid)%nat in
          let balanceThreshold := (length / 8)%nat in
          if (leftLen <? rightLen)%nat then
            match
              pdqsort_func fuel' d a mid limit true true
            with
            | Some d =>
                pdqsort_func fuel' d (mid + 1) b limit
                  (balanceThreshold <=? leftLen)%nat alreadyPartitioned
            | None => None
            end
          else
            match
              pdqsort_func fuel' d (mid + 1) b limit true true
            with
            | Some d =>
                pdqsort_func fuel' d a mid limit
                  (balanceThreshold <=? rightLen)%nat alreadyPartitioned
            | None => None
            end
  end.

Definition Slice_fuel (d : list A) : option (list A) :=
  let length := List.length d in
  pdqsort_func (S length) d 0 length (bits_Len length) true true.

(** [sort.Slice(x, less)]; the fuel given always suffices
    ([sort_Slice_fuel] below). *)
Definition Slice (d : list A) : list A := default d (Slice_fuel d).

End Pdqsort.

End sort.

(** ** The program's data *)

Record Config := {
  Laps : Z;
  LapLen : Z;
  PenaltyLen : Z;
  FiringLines : Z;
  Start : string;
  StartDelta : string
}.

Record Event := {
  Time : time.Time;
  RawTime : string;
  EventID : Z;
  CompetitorID : Z;
  Extra : string
}.

Record Competitor := {
  ID : Z;
  Started : bool;
  LapsCompleted : Z;
  Hits : Z;
  isDisqualified : bool;
  isNotFinished : bool;
  StartTime : time.Time;
  FinishTime : time.Time;
  StartPenalty : time.Time;
  lapTimes : list time.Duration;
  PenaltyTimes : list time.Duration
}.

(** [&Competitor{ID: id}]: every other field has its zero value. *)
Definition newCompetitor (id : Z) : Competitor :=
  {| ID := id; Started := false; LapsCompleted := 0; Hits := 0;
     isDisqualified := false; isNotFinished := false;
     StartTime := time.zero; FinishTime := time.zero;
     StartPenalty := time.zero; lapTimes := []; PenaltyTimes := [] |}.

(** The event kinds, the [iota] constants of the source. *)
Definition undefined : Z := 0.
Definition register : Z := 1.
Definition startTime : Z := 2.
Definition startLine : Z := 3.
Definition isStarted : Z := 4.
Definition onTheFiringRange : Z := 5.
Definition hit : Z := 6.
Definition leftTheFiringRange : Z := 7.
Definition enteredThePenaltyLaps : Z := 8.
Definition leftThePenaltyLaps : Z := 9.
Definition endedTheMainLap : Z := 10.
Definition comment : Z := 11.

(** [cfg.Laps] and the counters are Go [int]s. *)

Definition set_Started (c : Competitor) (v : bool) : Competitor :=
  {| ID := ID c; Started := v; LapsCompleted := LapsCompleted c;
     Hits := Hits c; isDisqualified := isDisqualified c;
     isNotFinished := isNotFinished c; StartTime := StartTime c;
     FinishTime := FinishTime c; StartPenalty := StartPenalty c;
     lapTimes := lapTimes c; PenaltyTimes := PenaltyTimes c |}.

Definition set_LapsCompleted (c : Competitor) (v : Z) : Competitor :=
  {| ID := ID c; Started := Started c; LapsCompleted := v;
     Hits := Hits c; isDisqualified := isDisqualified c;
     isNotFinished := isNotFinished c; StartTime := StartTime c;
     FinishTime := FinishTime c; StartPenalty := StartPenalty c;
     lapTimes := lapTimes c; PenaltyTimes := PenaltyTimes c |}.

Definition set_Hits (c : Competitor) (v : Z) : Competitor :=
  {| ID := ID c; Started := Started c; LapsCompleted := LapsCompleted c;
     Hits := v; isDisqualified := isDisqualified c;
     isNotFinished := isNotFinished c; StartTime := StartTime c;
     FinishTime := FinishTime c; StartPenalty := StartPenalty c;
     lapTimes := lapTimes c; PenaltyTimes := PenaltyTimes c |}.

Definition set_isDisqualified (c : Competitor) (v : bool) : Competitor :=
  {| ID := ID c; Started := Started c; LapsCompleted := LapsCompleted c;
     Hits := Hits c; isDisqualified := v;
     isNotFinished := isNotFinished c; StartTime := StartTime c;
     FinishTime := FinishTime c; StartPenalty := StartPenalty c;
     lapTimes := lapTimes c; PenaltyTimes := PenaltyTimes c |}.

Definition set_isNotFinished (c : Competitor) (v : bool) : Competitor :=
  {| ID := ID c; Started := Started c; LapsCompleted := LapsCompleted c;
     Hits := Hits c; isDisqualified := isDisqualified c;
     isNotFinished := v; StartTime := StartTime c;
     FinishTime := FinishTime c; StartPenalty := StartPenalty c;
     lapTimes := lapTimes c; PenaltyTimes := PenaltyTimes c |}.

Definition set_StartTime (c : Competitor) (v : time.Time) : Competitor :=
  {| ID := ID c; Started := Started c; LapsCompleted := LapsCompleted c;
     Hits := Hits c; isDisqualified := isDisqualified c;
     isNotFinished := isNotFinished c; StartTime := v;
     FinishTime := FinishTime c; StartPenalty := StartPenalty c;
     lapTimes := lapTimes c; PenaltyTimes := PenaltyTimes c |}.

Definition set_FinishTime (c : Competitor) (v : time.Time) : Competitor :=
  {| ID := ID c; Started := Started c; LapsCompleted := LapsCompleted c;
     Hits := Hits c; isDisqualified := isDisqualified c;
     isNotFinished := isNotFinished c; StartTime := StartTime c;
     FinishTime := v; StartPenalty := StartPenalty c;
     lapTimes := lapTimes c; PenaltyTimes := PenaltyTimes c |}.

Definition set_StartPenalty (c : Competitor) (v : time.Time) : Competitor :=
  {| ID := ID c; Started := Started c; LapsCompleted := LapsCompleted c;
     Hits := Hits c; isDisqualified := isDisqualified c;
     isNotFinished := isNotFinished c; StartTime := StartTime c;
     FinishTime := FinishTime c; StartPenalty := v;
     lapTimes := lapTimes c; PenaltyTimes := PenaltyTimes c |}.

Definition set_lapTimes (c : Competitor) (v : list time.Duration)
    : Competitor :=
  {| ID := ID c; Started := Started c; LapsCompleted := LapsCompleted c;
     Hits := Hits c; isDisqualified := isDisqualified c;
     isNotFinished := isNotFinished c; StartTime := StartTime c;
     FinishTime := FinishTime c; StartPenalty := StartPenalty c;
     lapTimes := v; PenaltyTimes := PenaltyTimes c |}.

Definition set_PenaltyTimes (c : Competitor) (v : list time.Duration)
    : Competitor :=
  {| ID := ID c; Started := Started c; LapsCompleted := LapsCompleted c;
     Hits := Hits c; isDisqualified := isDisqualified c;
     isNotFinished := isNotFinished c; StartTime := StartTime c;
     FinishTime := FinishTime c; StartPenalty := StartPenalty c;
     lapTimes := lapTimes c; PenaltyTimes := v |}.

(** ** [eventRegex] and [parseEvent] *)

Import regexp.

Definition digit2 : Regexp := Cat (Chr Digit) (Chr Digit).
Definition digit3 : Regexp := Cat (Chr Digit) digit2.
Definition digits1 : Regexp := Cat (Chr Digit) (Star Digit).
Definition lit (c : ascii) : Regexp := Chr (Byte c).

(** The pattern of the source, piece by piece: an opening bracket; group 1,
    [\d{2}:\d{2}:\d{2}\.\d{3}]; a closing bracket and a space; group 2,
    [\d+]; a space; group 3, [\d+]; and an optional, greedy, non-capturing
    group made of a space and group 4, the star of [.]. *)
Definition stampRegex : Regexp :=
  Cat digit2 (Cat (lit ":"%char) (Cat digit2 (Cat (lit ":"%char)
 (Cat digit2 (Cat (lit "."%char) digit3))))).

Definition tailRegex : Regexp :=
  Cat (lit "]"%char)
 (Cat (lit " "%char)
 (Cat (Group 2 digits1)
 (Cat (lit " "%char)
 (Cat (Group 3 digits1)
      (Quest (Cat (lit " "%char) (Group 4 (Star Dot)))))))).

Definition eventRegex : Regexp :=
  Cat (lit "["%char) (Cat (Group 1 stampRegex) tailRegex).

Definition timeLayout : time.Layout := time.layoutMilli.

Definition parseEvent (line : string) : result Event :=
  match FindStringSubmatch eventRegex 4 line with
  | Some [_; m1; m2; m3; m4] =>
      match time.Parse timeLayout m1 with
      | Err err => Err err
      | Ok t =>
          let eid := fst (strconv.Atoi m2) in
          let cid := fst (strconv.Atoi m3) in
          let extra := m4 in
          Ok {| Time := t; RawTime := m1; EventID := eid;
                CompetitorID := cid; Extra := extra |}
      end
  | _ => Err ErrInvalidEventFormat
  end.

(** The loop of [loadEvents] over the lines the scanner yields, and the
    [return events, s.Err()] after it: [events] are the events appended so
    far, [err] is the error the scanner will have stopped with. *)
Fixpoint loadEvents_loop (lines : list string) (events : list Event)
    (err : option error) : list Event * option error :=
  match lines with
  | [] => (events, err)
  | l :: lines' =>
      match parseEvent l with
      | Err err => ([], Some err)
      | Ok e => loadEvents_loop lines' (events ++ [e]) err
      end
  end.

(** [loadEvents]; [opened] is what [os.Open(path)] has given. *)
Definition loadEvents (opened : result os.File)
    : list Event * option error :=
  match opened with
  | Err err => ([], Some err)
  | Ok f =>
      let '(lines, err) := bufio.Scan f in loadEvents_loop lines [] err
  end.

(** ** [parseDelta] *)

Definition parseDelta (s : string) : result time.Duration :=
  match strings.Split s ":"%char with
  | [p0; p1; p2] =>
      let h := fst (strconv.Atoi p0) in
      let m := fst (strconv.Atoi p1) in
      let sSec := fst (strconv.ParseFloat p2) in
      let sec := strconv.to_int sSec in
      let msec :=
        strconv.to_int
          (strconv.fmul (strconv.fsub sSec (strconv.of_int sec))
             (strconv.of_int 1000)) in
      Ok (wrap64 (wrap64 (wrap64 (wrap64 (h * time.Hour)
                                  + wrap64 (m * time.Minute))
                          + wrap64 (sec * time.Second))
                  + wrap64 (msec * time.Millisecond)))
  | _ => Err (ErrInvalidDelta s)
  end.

(** ** The status of [printResults]

    The first lines of the loop body of [printResults]: the text printed in
    front of a competitor's result. *)

Definition status (comp : Competitor) (cfg : Config) : string :=
  if time.Equal (FinishTime comp) time.zero
     || isDisqualified comp
     || negb (LapsCompleted comp =? Laps cfg)
  then "[NotFinished]"
  else if isNotFinished comp then "[NotStarted]"
  else if Started comp
  then time.String_ (time.Sub (FinishTime comp) (StartTime comp))
  else "[Unknown]".

(** ** The event loop of [main] *)

(** What the program has printed: the text of a [Printf], or a [Println] of
    a message and an error. *)
Inductive line :=
| Text (s : string)
| ErrorLine (msg : string) (err : error).

Definition nl : string := String (ascii_of_N 10) EmptyString.

(** The variables the loop works on: the registry, [startOrder], and the
    standard output so far. *)
Record State := {
  competitors : gmap Z Competitor;
  startOrder : list Competitor;
  out : list line
}.

(** The loop goes on, or the program has died of a nil pointer
    dereference, having printed what it had printed. *)
Inductive outcome :=
| Running (st : State)
| Panic (printed : list line).

Definition print (st : State) (ls : list line) : list line :=
  (out st ++ ls)%list.

(** [comp.X] on the pointer [competitors[e.CompetitorID]]: nil panics. *)
Definition deref (st : State) (comp : option Competitor)
    (k : Competitor -> outcome) : outcome :=
  match comp with
  | Some c => k c
  | None => Panic (out st)
  end.

(** One round of [for _, e := range events], the [switch] on the event
    kind.  [baseStart] and [delta] are the variables of [main]. *)
Definition processEvent (cfg : Config) (baseStart : time.Time)
    (delta : time.Duration) (st : State) (e : Event) : outcome :=
  let id := CompetitorID e in
  let comp := competitors st !! id in
  let tag := "[" +:+ RawTime e +:+ "] " in
  let who := "The competitor(" +:+ itoa id +:+ ")" in
  let store (c : Competitor) (ls : list line) :=
    Running {| competitors := <[id:=c]> (competitors st);
               startOrder := startOrder st;
               out := print st ls |} in
  let say (ls : list line) :=
    Running {| competitors := competitors st;
               startOrder := startOrder st;
               out := print st ls |} in
  match EventID e with
  | 1 (* register *) =>
      store (newCompetitor id) [Text (tag +:+ who +:+ " registered" +:+ nl)]
  | 2 (* startTime *) =>
      let parsed := time.Parse timeLayout (Extra e) in
      deref st comp (fun c =>
        let c := set_StartTime c (time.value_of parsed) in
        let l1 :=
          match parsed with
          | Err err => [ErrorLine "Invalid incoming startTime in events:" err]
          | Ok _ => []
          end in
        let parsedDelta := time.Parse time.layoutClock (StartDelta cfg) in
        let deltaTime := time.value_of parsedDelta in
        let l2 :=
          match parsedDelta with
          | Err err => [ErrorLine "Invalid delta time in config:" err]
          | Ok _ => []
          end in
        let interval := time.Sub deltaTime (time.midnight deltaTime) in
        let previous :=
          match last (startOrder st) with
          | None => baseStart
          | Some p => StartTime p
          end in
        let c :=
          if interval <? time.Sub (StartTime c) previous
          then set_isNotFinished c true else c in
        Running
          {| competitors := <[id:=c]> (competitors st);
             startOrder := (startOrder st ++ [c])%list;
             out := print st
                      (l1 ++ l2 ++
                       [Text (tag +:+ "The start time for the competitor("
                              +:+ itoa id +:+ ") was set by a draw to "
                              +:+ time.Format (StartTime c) +:+ nl)])%list
          |})
  | 3 (* startLine *) =>
      say [Text (tag +:+ "The competitor is on the start line" +:+ nl)]
  | 4 (* isStarted *) =>
      deref st comp (fun c =>
        let allowed := time.Add (StartTime c) delta in
        let late := time.After (Time e) allowed in
        let c := if late then set_isNotFinished c true else c in
        let l1 :=
          if late
          then [Text (tag +:+ who +:+ " is disqualified for late start"
                      +:+ nl)]
          else [] in
        store (set_Started c true)
          (l1 ++ [Text (tag +:+ who +:+ " has started" +:+ nl)])%list)
  | 5 (* onTheFiringRange *) =>
      say [Text (tag +:+ who +:+ " is on the firing range (" +:+ Extra e
                 +:+ ")" +:+ nl)]
  | 6 (* hit *) =>
      deref st comp (fun c =>
        store (set_Hits c (wrap64 (Hits c + 1)))
          [Text (tag +:+ "The target has been hit (" +:+ Extra e
                 +:+ ") by competitor(" +:+ itoa id +:+ ")" +:+ nl)])
  | 7 (* leftTheFiringRange *) =>
      deref st comp (fun c =>
        say [Text (tag +:+ who +:+ " left the firing range ("
                   +:+ itoa (LapsCompleted c) +:+ ")" +:+ nl)])
  | 8 (* enteredThePenaltyLaps *) =>
      deref st comp (fun c =>
        store (set_StartPenalty c (Time e))
          [Text (tag +:+ who +:+ " entered the penalty laps" +:+ nl)])
  | 9 (* leftThePenaltyLaps *) =>
      deref st comp (fun c =>
        store
          (set_PenaltyTimes c
             (PenaltyTimes c ++ [time.Sub (Time e) (StartPenalty c)])%list)
          [Text (tag +:+ who +:+ " left the penalty laps" +:+ nl)])
  | 10 (* endedTheMainLap *) =>
      deref st comp (fun c =>
        let c := set_LapsCompleted c (wrap64 (LapsCompleted c + 1)) in
        let c :=
          if (length (lapTimes c) =? 0)%nat && (LapsCompleted c =? Laps cfg)
          then set_lapTimes c
                 (lapTimes c ++ [time.Sub (Time e) (StartTime c)])%list
          else c in
        store (set_FinishTime c (Time e))
          [Text (tag +:+ who +:+ " ended the main lap" +:+ nl)])
  | 11 (* comment *) =>
      deref st comp (fun c =>
        let c :=
          if negb (LapsCompleted c =? Laps cfg)
          then set_lapTimes c
                 (lapTimes c ++ [time.Sub (Time e) (StartTime c)])%list
          else c in
        store (set_isDisqualified c true)
          [Text (tag +:+ who +:+ " can`t continue: " +:+ Extra e +:+ nl)])
  | _ =>
      say [Text ("Unknown EventId " +:+ itoa (EventID e) +:+ nl
                 +:+ ". The EventID must be in the range [1, 11]")]
  end.

(** [for _, e := range events] *)
Fixpoint processEvents (cfg : Config) (baseStart : time.Time)
    (delta : time.Duration) (st : State) (events : list Event) : outcome :=
  match events with
  | [] => Running st
  | e :: events' =>
      match processEvent cfg baseStart delta st e with
      | Running st' => processEvents cfg baseStart delta st' events'
      | Panic printed => Panic printed
      end
  end.

(** The comparison handed to [sort.Slice]. *)
Definition before (x y : Event) : bool := time.Before (Time x) (Time y).

Definition initial : State :=
  {| competitors := ∅; startOrder := []; out := [] |}.

(** How [main] ends: it returns early on an error, it dies in the loop, or
    it reaches [printResults] with the final registry. *)
Inductive exit :=
| Aborted (printed : list line)
| Crashed (printed : list line)
| Completed (st : State).

(** [main].  [config] is what [loadConfig("config/config.json")] has
    returned, and [opened] what [os.Open("events")] gives [loadEvents]. *)
Definition main (config : result Config) (opened : result os.File) : exit :=
  match config with
  | Err err => Aborted [ErrorLine "Config error:" err]
  | Ok cfg =>
      match time.Parse timeLayout (Start cfg) with
      | Err err => Aborted [ErrorLine "Invalid start time in config:" err]
      | Ok baseStart =>
          match parseDelta (StartDelta cfg) with
          | Err err =>
              Aborted [ErrorLine "Invalid startDelta in config:" err]
          | Ok delta =>
              match loadEvents opened with
              | (_, Some err) => Aborted [ErrorLine "Events error:" err]
              | (events, None) =>
                  match
                    processEvents cfg baseStart delta initial
                      (sort.Slice before events)
                  with
                  | Panic printed => Crashed printed
                  | Running st => Completed st
                  end
              end
          end
      end
  end.

(** ** Vocabulary of the properties

    The notions the statements below are written in. *)

(** The first rule of the status precedence: the finish time is unset, or
    the competitor is disqualified, or the laps are not the configured
    number. *)
Definition didNotFinish (cfg : Config) (comp : Competitor) : Prop :=
  FinishTime comp = time.zero \/ isDisqualified comp = true
  \/ LapsCompleted comp <> Laps cfg.

(** The kinds the [switch] has a case for. *)
Definition knownKind (k : Z) : Prop := 1 <= k <= 11.

(** The kinds whose case reads or writes the competitor's record. *)
Definition usesRecord (k : Z) : Prop :=
  k = startTime \/ k = isStarted \/ k = hit \/ k = leftTheFiringRange
  \/ k = enteredThePenaltyLaps \/ k = leftThePenaltyLaps
  \/ k = endedTheMainLap \/ k = comment.

(** [e] registers [id]. *)
Definition registers (id : Z) (e : Event) : Prop :=
  EventID e = register /\ CompetitorID e = id.

(** [e] is [id] entering the penalty laps. *)
Definition entersPenalty (id : Z) (e : Event) : Prop :=
  EventID e = enteredThePenaltyLaps /\ CompetitorID e = id.

(** The start time an AssignedStartTime event assigns: its payload read as
    a time of day, the zero Time if it cannot be read. *)
Definition assignedStart (e : Event) : time.Time :=
  time.value_of (time.Parse timeLayout (Extra e)).


(** The start interval as the AssignedStartTime case reads it from the
    configuration: [startDelta] as a time of day, counted from midnight. *)
Definition scheduledInterval (cfg : Config) : time.Duration :=
  let deltaTime :=
    time.value_of (time.Parse time.layoutClock (StartDelta cfg)) in
  time.Sub deltaTime (time.midnight deltaTime).

(** The start time the next AssignedStartTime event is compared with. *)
Definition baseline (baseStart : time.Time) (st : State) : time.Time :=
  match last (startOrder st) with
  | None => baseStart
  | Some p => StartTime p
  end.

(** The number of [:]-separated fields of [s], and of its colons. *)
Definition fieldCount (s : string) : nat :=
  length (strings.Split s ":"%char).

Fixpoint colons (s : string) : nat :=
  match s with
  | EmptyString => O
  | String c s' =>
      ((if bool_decide (c = ":"%char) then 1 else 0) + colons s')%nat
  end.

Fixpoint free_of (sep : ascii) (s : string) : bool :=
  match s with
  | EmptyString => true
  | String c s' => negb (bool_decide (c = sep)) && free_of sep s'
  end.

(** The numerals of two and of three digits, and the strings [HH:MM:SS]
    and [HH:MM:SS.mmm]. *)
Definition two (n : Z) : string := pad0 2 n.
Definition three (n : Z) : string := pad0 3 n.

Definition hms (H M S : Z) : string :=
  two H +:+ ":" +:+ two M +:+ ":" +:+ two S.

Definition hmsm (H M S ms : Z) : string := hms H M S +:+ "." +:+ three ms.

(** A field [strconv] takes for no number: it is empty, or it begins with a
    byte that begins neither an integer nor a floating-point number, an
    infinity or a NaN. *)
Definition notNumber (p : string) : bool :=
  match p with
  | EmptyString => true
  | String c _ =>
      negb (isDigitB c
            || existsb (fun x => bool_decide (c = x))
                 ["+"; "-"; "."; "_"; "i"; "I"; "n"; "N"]%char)
  end.

(** The fields [parseDelta] is shown to read as the number [n]: the
    two-digit numeral of [n], and for 0 also every field without colon
    that is no number. *)
Definition readAs (p : string) (n : Z) : Prop :=
  (0 <= n < 100 /\ p = two n)
  \/ (notNumber p = true /\ free_of ":"%char p = true /\ n = 0).

Definition validClock (H M S : Z) : bool :=
  (H <? 24) && (M <? 60) && (S <? 60).

Definition below100 : list Z := map Z.of_nat (seq 0 100).
Definition below1000 : list Z := map Z.of_nat (seq 0 1000).

(** What [parseDelta] makes of a two-digit field, read as hours or minutes
    and read as seconds with their milliseconds. *)
Definition field_ok (n : Z) : bool :=
  free_of ":"%char (two n)
  && (fst (strconv.Atoi (two n)) =? n)
  && (strconv.to_int (fst (strconv.ParseFloat (two n))) =? n)
  && (strconv.to_int
        (strconv.fmul
           (strconv.fsub (fst (strconv.ParseFloat (two n)))
              (strconv.of_int n))
           (strconv.of_int 1000)) =? 0).

Definition two_digits (n : Z) : bool :=
  match two n with
  | String a (String b EmptyString) =>
      isDigitB a && isDigitB b && (digit_val a * 10 + digit_val b =? n)
  | _ => false
  end.

Definition three_digits (n : Z) : bool :=
  match three n with
  | String a (String b (String c EmptyString)) =>
      isDigitB a && isDigitB b && isDigitB c
      && match time.atoi (three n) with
         | Some v => v =? n
         | None => false
         end
  | _ => false
  end.

Definition digit_chars : list ascii :=
  ["0"; "1"; "2"; "3"; "4"; "5"; "6"; "7"; "8"; "9"]%char.

(** A numeral is made of its digits. *)
Definition two_of (a b : ascii) : bool :=
  String.eqb (two (digit_val a * 10 + digit_val b))
    (String a (String b EmptyString))
  && (digit_val a * 10 + digit_val b <? 100).

Definition three_of (a b c : ascii) : bool :=
  String.eqb (three (digit_val a * 100 + digit_val b * 10 + digit_val c))
    (String a (String b (String c EmptyString)))
  && (digit_val a * 100 + digit_val b * 10 + digit_val c <? 1000).

(** [mid] occurs in [s]. *)
Definition substring (mid s : string) : Prop :=
  exists pre post, s = pre +:+ mid +:+ post.

(** Does the pattern match the whole of [s]? *)
Definition wholeMatch (re : Regexp) (s : string) : bool :=
  match
    run re s []
      (fun rest _ =>
         match rest with EmptyString => Some tt | _ => None end)
  with
  | Some _ => true
  | None => false
  end.

(** Insertion sort on lists.  The sorted prefix is held in reverse, and a
    new element moves down it the way [sort.sink] moves it down the slice:
    past every element it is less than. *)
Fixpoint sink_rev {A} (lt : A -> A -> bool) (x : A) (rp : list A)
    : list A :=
  match rp with
  | [] => [x]
  | y :: rp' => if lt x y then y :: sink_rev lt x rp' else x :: rp
  end.

Definition isort {A} (lt : A -> A -> bool) (d : list A) : list A :=
  reverse (fold_left (fun acc x => sink_rev lt x acc) d []).

Definition ascending {A} (key : A -> Z) : list A -> Prop :=
  StronglySorted (fun x y => key x <= key y).

(** ** A race to try things on *)

Definition cfg0 : Config :=
  {| Laps := 2; LapLen := 3500; PenaltyLen := 150; FiringLines := 1;
     Start := "10:00:00.000"; StartDelta := "00:01:30" |}.


Definition base0 : time.Time := time.clock 10 0 0 0.
Definition delta0 : time.Duration := 90 * time.Second.

(** An event of kind [k] for competitor [id] at [h:m:s]. *)
Definition ev (k id h m s : Z) (extra : string) : Event :=
  {| Time := time.clock h m s 0; RawTime := hmsm h m s 0; EventID := k;
     CompetitorID := id; Extra := extra |}.

(** The lines in a row, a newline after each, and the events file that
    holds just them. *)
Definition unlines (lines : list string) : string :=
  String.concat "" (map (fun l => l +:+ nl) lines).

Definition eventsFile (lines : list string) : result os.File :=
  Ok {| os.content := unlines lines; os.readErr := None |}.

(** Twelve registrations at ten o'clock, then one stamped a second
    earlier. *)
Definition thirteen : list string :=
  map (fun k => "[10:00:00.000] 1 " +:+ itoa k)
    [1; 2; 3; 4; 5; 6; 7; 8; 9; 10; 11; 12]
  ++ ["[09:59:59.000] 1 13"].

(** The state the loop has reached, the initial one if it has died. *)
Definition reached (o : outcome) : State :=
  match o with
  | Running st => st
  | Panic _ => initial
  end.

(** A competitor who has run the two laps in ten minutes. *)
Definition finisher : Competitor :=
  {| ID := 1; Started := true; LapsCompleted := 2; Hits := 1;
     isDisqualified := false; isNotFinished := false;
     StartTime := time.clock 10 0 0 0; FinishTime := time.clock 10 10 0 0;
     StartPenalty := time.zero; lapTimes := [600 * time.Second];
     PenaltyTimes := [] |}.

(** The registry with competitor 1 just registered. *)
Definition registered1 : State :=
  {| competitors := {[1 := newCompetitor 1]}; startOrder := []; out := [] |}.

(** Competitor 1 on the course: start drawn for ten o'clock, one lap of the
    two done at a quarter past. *)
Definition runner : Competitor :=
  {| ID := 1; Started := true; LapsCompleted := 1; Hits := 0;
     isDisqualified := false; isNotFinished := false;
     StartTime := time.clock 10 0 0 0; FinishTime := time.clock 10 15 0 0;
     StartPenalty := time.zero; lapTimes := []; PenaltyTimes := [] |}.

Definition running1 : State :=
  {| competitors := {[1 := runner]}; startOrder := [runner]; out := [] |}.

(** The registry with competitor 1 disqualified. *)
Definition disqualified1 : State :=
  {| competitors := {[1 := set_isDisqualified (newCompetitor 1) true]};
     startOrder := []; out := [] |}.

(** ** Vocabulary of the properties of the event loop *)

(** [e] is an event of kind [k] for competitor [id]. *)
Definition concerns (k id : Z) (e : Event) : bool :=
  (EventID e =? k) && (CompetitorID e =? id).

(** How many of the events are of kind [k] for [id], and the last of
    them. *)
Definition occurrences (k id : Z) (events : list Event) : Z :=
  Z.of_nat (length (List.filter (concerns k id) events)).

Definition lastOf (k id : Z) (events : list Event) : option Event :=
  last (List.filter (concerns k id) events).

(** The kinds whose case sets the not-started flag. *)
Definition flagsStart (id : Z) (e : Event) : bool :=
  concerns startTime id e || concerns isStarted id e.

(** A time of day on January 1 of year 0, which is what [time.Parse] makes
    of a clock reading. *)
Definition timeOfDay (t : time.Time) : Prop :=
  time.year0 <= t < time.year0 + time.Day.

(** Every event of a kind that reads or writes the record comes after an
    event that registers its competitor. *)
Definition registeredBeforeUse (events : list Event) : Prop :=
  forall pre e post,
    events = pre ++ e :: post -> usesRecord (EventID e) ->
    Exists (registers (CompetitorID e)) pre.

(** ** Vocabulary of the properties of the parsers *)

Fixpoint all_digits (s : string) : bool :=
  match s with
  | EmptyString => true
  | String c s' => isDigitB c && all_digits s'
  end.

Definition newline : ascii := ascii_of_N 10.

(** A line of the events file as the documented grammar has it: the
    timestamp in brackets, the kind of the event, the competitor, and what
    follows them. *)
Definition eventLine (H M S ms kind id : Z) (rest : string) : string :=
  "[" +:+ hmsm H M S ms +:+ "] " +:+ itoa kind +:+ " " +:+ itoa id +:+ rest.

(** A line the scanner takes whole: no newline in it, and short enough for
    the buffer. *)
Definition fitsScanner (l : string) : Prop :=
  free_of newline l = true
  /\ Z.of_nat (String.length l) < bufio.MaxScanTokenSize.

(** [n] times the byte [c]. *)
Definition bytes (n : nat) (c : ascii) : string :=
  string_of_list_ascii (repeat c n).

(** [time.Time{}.Add(lap).Format(timeLayout)], the text [printResults]
    prints for the duration of a lap or of a penalty segment. *)
Definition lapClock (lap : time.Duration) : string :=
  time.Format (time.Add time.zero lap).

(** ** Vocabulary of the properties of sorting *)

(** The key of the element at index [i], 0 past the end. *)
Definition keyAt {A} (key : A -> Z) (d : list A) (i : nat) : Z :=
  from_option key 0 (d !! i).

(** The keys at the indexes from [a] up to [b], [b] left out, ascend. *)
Definition sortedOn {A} (key : A -> Z) (d : list A) (a b : nat) : Prop :=
  forall i j, (a <= i)%nat -> (i <= j)%nat -> (j < b)%nat ->
    keyAt key d i <= keyAt key d j.

(** [d'] is as long as [d], has the keys of [d] outside the indexes from
    [a] up to [b], and between them keys that [d] has between them. *)
Definition keeps {A} (key : A -> Z) (d d' : list A) (a b : nat) : Prop :=
  length d' = length d
  /\ (forall k, (k < a \/ b <= k)%nat -> keyAt key d' k = keyAt key d k)
  /\ (forall k, (a <= k < b)%nat ->
        exists k', (a <= k' < b)%nat /\ keyAt key d' k = keyAt key d k').

(** No key from [a] up to [b] is below the key in front of [a]. *)
Definition boundedBelow {A} (key : A -> Z) (d : list A) (a b : nat) : Prop :=
  (0 < a)%nat ->
  forall k, (a <= k < b)%nat -> keyAt key d (a - 1) <= keyAt key d k.

(** The heap of [siftDown_func]: among the [hi] elements from index
    [first] on, numbered from 0, no element numbered [lo] or more has a
    child with a greater key. *)
Definition heapFrom {A} (key : A -> Z) (d : list A) (first lo hi : nat)
    : Prop :=
  forall r c, (lo <= r)%nat -> (c < hi)%nat ->
    (c = 2 * r + 1 \/ c = 2 * r + 2)%nat ->
    keyAt key d (first + c) <= keyAt key d (first + r).

(** * Properties *)

(** ** Machine integers and time *)

Lemma wrap64_id z : min_int64 <= z <= max_int64 -> wrap64 z = z.
Proof.
  unfold wrap64, min_int64, max_int64. intros H.
  rewrite Z.mod_small; lia.
Qed.

Lemma time_Sub_exact t u :
  min_int64 <= t - u <= max_int64 -> time.Sub t u = t - u.
Proof.
  intros H. unfold time.Sub. cbv zeta.
  rewrite !bool_decide_eq_false_2 by lia. reflexivity.
Qed.

(** [t.Sub(u)] is the difference, or the end of the range of a Duration it
    lies beyond. *)
Lemma time_Sub_clamp t u :
  time.Sub t u = Z.max min_int64 (Z.min max_int64 (t - u)).
Proof.
  unfold time.Sub, min_int64, max_int64. cbv zeta.
  repeat case_bool_decide; lia.
Qed.

(** ** The final status (C1) *)

Lemma didNotFinish_test cfg comp :
  time.Equal (FinishTime comp) time.zero || isDisqualified comp
    || negb (LapsCompleted comp =? Laps cfg) = true
  <-> didNotFinish cfg comp.
Proof.
  unfold didNotFinish, time.Equal.
  rewrite !orb_true_iff, bool_decide_eq_true, negb_true_iff, Z.eqb_neq.
  tauto.
Qed.

(** C1.  The status [printResults] gives a competitor follows the
    precedence, first match first: [NotFinished] if the finish time is
    unset, or the competitor is disqualified, or the laps completed differ
    from the configured laps; otherwise [NotStarted] if the not-started flag
    is set; otherwise, if the competitor has started, the elapsed time, the
    finish time minus the scheduled start time; otherwise [Unknown]. *)
Theorem status_precedence cfg comp :
  (didNotFinish cfg comp -> status comp cfg = "[NotFinished]") /\
  (~ didNotFinish cfg comp -> isNotFinished comp = true ->
     status comp cfg = "[NotStarted]") /\
  (~ didNotFinish cfg comp -> isNotFinished comp = false ->
     Started comp = true ->
     status comp cfg
       = time.String_ (time.Sub (FinishTime comp) (StartTime comp))) /\
  (~ didNotFinish cfg comp -> isNotFinished comp = false ->
     Started comp = false -> status comp cfg = "[Unknown]").
Proof.
  unfold status.
  destruct (time.Equal (FinishTime comp) time.zero || isDisqualified comp
              || negb (LapsCompleted comp =? Laps cfg)) eqn:E.
  - apply didNotFinish_test in E. repeat split; intros; tauto.
  - assert (~ didNotFinish cfg comp) as N.
    { rewrite <- didNotFinish_test, E. discriminate. }
    repeat split; intros; try tauto.
    + by rewrite H0.
    + by rewrite H0, H1.
    + by rewrite H0, H1.
Qed.

(** ** One event *)

Ltac step_kind H :=
  unfold processEvent; rewrite H; cbv beta iota zeta.

(** *** EndedMainLap (C3) *)

(** C3.  An EndedMainLap event for a registered competitor adds one to the
    laps completed; if no lap duration is on record and the laps now equal
    the configured laps, it appends one duration to the lap durations, the
    event's timestamp minus the scheduled start time, and it leaves the lap
    durations alone otherwise; it sets the finish time to the event's
    timestamp; and it changes nothing else of the record.  The duration is
    the difference itself whenever that is an [int64] count of nanoseconds,
    as it is between any two times of a day, and the end of that range
    otherwise. *)
Theorem endedMainLap_effect cfg baseStart delta st e c :
  EventID e = endedTheMainLap ->
  competitors st !! CompetitorID e = Some c ->
  exists st' c',
    processEvent cfg baseStart delta st e = Running st' /\
    competitors st' = <[CompetitorID e := c']> (competitors st) /\
    LapsCompleted c' = wrap64 (LapsCompleted c + 1) /\
    (min_int64 <= LapsCompleted c < max_int64 ->
       LapsCompleted c' = LapsCompleted c + 1) /\
    lapTimes c' =
      (if decide (lapTimes c = [] /\ LapsCompleted c' = Laps cfg)
       then (lapTimes c
             ++ [Z.max min_int64
                   (Z.min max_int64 (Time e - StartTime c))])%list
       else lapTimes c) /\
    (lapTimes c = [] -> LapsCompleted c' = Laps cfg ->
     in_int64 (Time e - StartTime c) ->
       lapTimes c' = [Time e - StartTime c]) /\
    FinishTime c' = Time e /\
    ID c' = ID c /\ Started c' = Started c /\ Hits c' = Hits c /\
    isDisqualified c' = isDisqualified c /\
    isNotFinished c' = isNotFinished c /\
    StartTime c' = StartTime c /\ StartPenalty c' = StartPenalty c /\
    PenaltyTimes c' = PenaltyTimes c.
Proof.
  intros Hk Hc. unfold endedTheMainLap in Hk.
  step_kind Hk. rewrite Hc. cbn [deref].
  eexists _, _. split; [reflexivity|]. cbn [competitors]. split; [reflexivity|].
  cbn [set_LapsCompleted LapsCompleted lapTimes StartTime].
  rewrite time_Sub_clamp.
  destruct ((length (lapTimes c) =? 0)%nat
            && (wrap64 (LapsCompleted c + 1) =? Laps cfg)) eqn:E; cbn.
  - apply andb_true_iff in E as [E1 E2].
    apply Nat.eqb_eq in E1. apply Z.eqb_eq in E2.
    destruct (lapTimes c) eqn:El; [|discriminate E1].
    repeat split; try reflexivity.
    + intros. apply wrap64_id. unfold min_int64, max_int64 in *. lia.
    + rewrite decide_True by (split; [reflexivity | exact E2]). reflexivity.
    + intros _ _ Hr. unfold in_int64 in Hr. cbn. f_equal. lia.
  - repeat split; try reflexivity.
    + intros. apply wrap64_id. unfold min_int64, max_int64 in *. lia.
    + rewrite decide_False; [reflexivity|]. intros [E1 E2].
      rewrite E1 in E. cbn in E. apply Z.eqb_neq in E. contradiction.
    + intros E1 E2 _. rewrite E1 in E. cbn in E. apply Z.eqb_neq in E.
      contradiction.
Qed.

(** *** LeftPenaltyLaps (C6) *)

Lemma leftPenaltyLaps_effect cfg baseStart delta st e c :
  EventID e = leftThePenaltyLaps ->
  competitors st !! CompetitorID e = Some c ->
  exists st' c' text,
    processEvent cfg baseStart delta st e = Running st' /\
    competitors st' = <[CompetitorID e := c']> (competitors st) /\
    out st' = (out st ++ [Text text])%list /\
    PenaltyTimes c' =
      (PenaltyTimes c ++ [time.Sub (Time e) (StartPenalty c)])%list /\
    (StartPenalty c = time.zero -> in_int64 (Time e) ->
       PenaltyTimes c' = (PenaltyTimes c ++ [Time e])%list) /\
    ID c' = ID c /\ Started c' = Started c /\
    LapsCompleted c' = LapsCompleted c /\ Hits c' = Hits c /\
    isDisqualified c' = isDisqualified c /\
    isNotFinished c' = isNotFinished c /\
    StartTime c' = StartTime c /\ FinishTime c' = FinishTime c /\
    StartPenalty c' = StartPenalty c /\ lapTimes c' = lapTimes c.
Proof.
  intros Hk Hc. unfold leftThePenaltyLaps in Hk.
  step_kind Hk. rewrite Hc. cbn [deref].
  eexists _, _, _. split; [reflexivity|]. cbn.
  repeat split; try reflexivity.
  intros Hz Hr. rewrite Hz. rewrite time_Sub_exact.
  - unfold time.zero. by rewrite Z.sub_0_r.
  - unfold time.zero, in_int64 in *. lia.
Qed.

(** *** Unknown kinds *)

Lemma processEvent_unknown cfg baseStart delta st e :
  ~ knownKind (EventID e) ->
  processEvent cfg baseStart delta st e =
    Running {| competitors := competitors st; startOrder := startOrder st;
               out := print st
                 [Text ("Unknown EventId " +:+ itoa (EventID e) +:+ nl
                   +:+ ". The EventID must be in the range [1, 11]")] |}.
Proof.
  unfold knownKind, processEvent. intros H.
  destruct (EventID e) as [|p|p]; try reflexivity.
  do 4 (try destruct p as [p|p|]); try reflexivity; lia.
Qed.

Lemma kind_cases (k : Z) :
  k = register \/ k = startTime \/ k = startLine \/ k = isStarted
  \/ k = onTheFiringRange \/ k = hit \/ k = leftTheFiringRange
  \/ k = enteredThePenaltyLaps \/ k = leftThePenaltyLaps
  \/ k = endedTheMainLap \/ k = comment \/ ~ knownKind k.
Proof.
  unfold register, startTime, startLine, isStarted, onTheFiringRange, hit,
    leftTheFiringRange, enteredThePenaltyLaps, leftThePenaltyLaps,
    endedTheMainLap, comment, knownKind. lia.
Qed.

(** Splits on the kind of [e] and reduces [processEvent] in every case. *)
Ltac by_kind e :=
  let H := fresh "Hkind" in
  destruct (kind_cases (EventID e))
    as [H|[H|[H|[H|[H|[H|[H|[H|[H|[H|[H|H]]]]]]]]]]];
  [ unfold register in H | unfold startTime in H | unfold startLine in H
  | unfold isStarted in H | unfold onTheFiringRange in H | unfold hit in H
  | unfold leftTheFiringRange in H | unfold enteredThePenaltyLaps in H
  | unfold leftThePenaltyLaps in H | unfold endedTheMainLap in H
  | unfold comment in H | ];
  [ step_kind H .. | rewrite (processEvent_unknown _ _ _ _ _ H) ].

(** An event leaves the records of the other competitors alone. *)
Lemma processEvent_other cfg baseStart delta st e st' id :
  processEvent cfg baseStart delta st e = Running st' ->
  id <> CompetitorID e ->
  competitors st' !! id = competitors st !! id.
Proof.
  intros H Hne. revert H. by_kind e;
    try (destruct (competitors st !! CompetitorID e); cbn [deref]);
    intros [= <-]; cbn [competitors];
    rewrite ?lookup_insert_ne by congruence; reflexivity.
Qed.

(** *** Events for an identifier without a record (C2) *)

Lemma unregistered_step cfg baseStart delta st e :
  EventID e <> register ->
  competitors st !! CompetitorID e = None ->
  (usesRecord (EventID e) /\
     processEvent cfg baseStart delta st e = Panic (out st))
  \/ (~ usesRecord (EventID e) /\
      exists text,
        processEvent cfg baseStart delta st e =
          Running {| competitors := competitors st;
                     startOrder := startOrder st;
                     out := (out st ++ [Text text])%list |}).
Proof.
  intros Hnr Hc. unfold usesRecord.
  unfold startTime, isStarted, hit, leftTheFiringRange,
    enteredThePenaltyLaps, leftThePenaltyLaps, endedTheMainLap, comment.
  by_kind e; try rewrite Hc; cbn [deref];
    try (left; split; [lia | reflexivity]);
    try (right; split; [unfold knownKind in *; lia | eexists; reflexivity]).
  unfold register in Hnr. lia.
Qed.

(** ** Sequences of events *)

Section Run.
Context (cfg : Config) (baseStart : time.Time) (delta : time.Duration).

Local Abbreviation step := (processEvent cfg baseStart delta).
Local Abbreviation steps := (processEvents cfg baseStart delta).

Lemma processEvents_app st l1 l2 :
  steps st (l1 ++ l2) =
    match steps st l1 with
    | Running st' => steps st' l2
    | Panic printed => Panic printed
    end.
Proof.
  revert st. induction l1 as [|e l1 IH]; intros st; cbn; [reflexivity|].
  destruct (step st e); [apply IH | reflexivity].
Qed.

(** A property of the state that every event preserves holds after any
    number of events: the induction all the invariants below use. *)
Lemma processEvents_invariant (P : list Event -> State -> Prop) st0 :
  P [] st0 ->
  (forall pre st e st',
      P pre st -> step st e = Running st' -> P (pre ++ [e]) st') ->
  forall pre st, steps st0 pre = Running st -> P pre st.
Proof.
  intros H0 Hstep pre. induction pre as [|e pre IH] using rev_ind; intros st.
  - cbn. intros [= <-]. exact H0.
  - rewrite processEvents_app.
    destruct (steps st0 pre) as [st1|] eqn:E1; [|discriminate].
    cbn. destruct (step st1 e) as [st2|] eqn:E2; [|discriminate].
    intros [= <-]. eapply Hstep; eauto.
Qed.

Lemma processEvent_registered st e st' id :
  step st e = Running st' ->
  is_Some (competitors st' !! id)
  <-> is_Some (competitors st !! id) \/ registers id e.
Proof.
  intros H. unfold registers, register.
  destruct (decide (id = CompetitorID e)) as [->|Hne].
  - revert H. by_kind e;
      try (destruct (competitors st !! CompetitorID e) eqn:Hc;
           cbn [deref]);
      intros [= <-]; cbn [competitors];
      rewrite ?lookup_insert_eq, ?Hc;
      unfold knownKind in *;
      (split; [intros Hs | intros [Hs|[Hs _]]]);
      first [ by eauto | by right; split; [lia | done]
            | by left; eauto | by destruct (is_Some_None Hs) | lia ].
  - rewrite (processEvent_other _ _ _ _ _ _ _ H Hne).
    split; [tauto | intros [?|[_ ?]]; [done | congruence]].
Qed.

(** The registry holds exactly the identifiers registered so far. *)
Lemma registered_iff pre st id :
  steps initial pre = Running st ->
  is_Some (competitors st !! id) <-> Exists (registers id) pre.
Proof.
  revert pre st.
  apply (processEvents_invariant
           (fun pre st =>
              is_Some (competitors st !! id) <-> Exists (registers id) pre)).
  - cbn. rewrite lookup_empty, Exists_nil. split; [intros [? [=]] | tauto].
  - intros pre st e st' IH Hs.
    rewrite (processEvent_registered _ _ _ _ Hs), IH, Exists_app,
      Exists_cons, Exists_nil. tauto.
Qed.

(** *** Unregistered identifiers (C2) *)

(** C2, amended.  An event of another kind than Register, for an
    identifier no event has registered so far, never creates or changes a
    record: if the loop goes on, the registry is as it was, and holds
    nothing for the identifier.  For the kinds that do not touch the
    record (OnStartLine, OnFiringRange, and the unknown ones) the loop
    does go on, having printed its line of narration and no error. *)
Theorem unregistered_reference pre st e :
  steps initial pre = Running st ->
  EventID e <> register ->
  ~ Exists (registers (CompetitorID e)) pre ->
  (forall st', step st e = Running st' ->
     competitors st' = competitors st
     /\ competitors st' !! CompetitorID e = None)
  /\ (~ usesRecord (EventID e) ->
      exists text,
        step st e =
          Running {| competitors := competitors st;
                     startOrder := startOrder st;
                     out := out st ++ [Text text] |}).
Proof.
  intros Hpre Hk Hno.
  assert (competitors st !! CompetitorID e = None) as Hc.
  { apply eq_None_not_Some. by rewrite (registered_iff _ _ _ Hpre). }
  destruct (unregistered_step cfg baseStart delta st e Hk Hc)
    as [[Hu Hp]|[Hu [text Hr]]].
  - split; [intros st'; rewrite Hp; discriminate | tauto].
  - split; [|intros _; eauto].
    intros st'. rewrite Hr. intros [= <-]. cbn. auto.
Qed.

(** *** Disqualification (C7) *)

Lemma disqualified_step st e st' id c :
  competitors st !! id = Some c ->
  isDisqualified c = true ->
  ~ registers id e ->
  step st e = Running st' ->
  exists c', competitors st' !! id = Some c' /\ isDisqualified c' = true.
Proof.
  intros Hc Hd Hnr Hs.
  destruct (decide (id = CompetitorID e)) as [->|Hne].
  - revert Hs. unfold registers, register in Hnr.
    by_kind e; try rewrite Hc; cbn [deref];
      intros [= <-]; cbn [competitors]; rewrite ?lookup_insert_eq;
      try (eexists; split; [reflexivity|]);
      try (by repeat case_match); try tauto; eauto.
  - rewrite <- (processEvent_other _ _ _ _ _ _ _ Hs Hne) in Hc. eauto.
Qed.

(** C7, amended.  Once a competitor is disqualified, the competitor stays
    so through every sequence of events that does not register the
    identifier again, whatever their kind and whomever they are for; and
    an event that registers the identifier again puts a fresh record in
    the place of the competitor's, which is not disqualified. *)
Theorem disqualified_permanent events st st' id c :
  competitors st !! id = Some c ->
  isDisqualified c = true ->
  Forall (fun e => ~ registers id e) events ->
  steps st events = Running st' ->
  (exists c', competitors st' !! id = Some c' /\ isDisqualified c' = true)
  /\ (forall e, registers id e ->
        exists st1,
          step st' e = Running st1
          /\ competitors st1 !! id = Some (newCompetitor id)
          /\ isDisqualified (newCompetitor id) = false).
Proof.
  intros Hc Hd Hall Hrun. split.
  - revert st c Hc Hd Hrun.
    induction Hall as [|e events He Hall IH]; intros st c Hc Hd; cbn.
    + intros [= <-]. eauto.
    + destruct (step st e) as [st1|] eqn:E1; [|discriminate].
      destruct (disqualified_step _ _ _ _ _ Hc Hd He E1)
        as (c1 & Hc1 & Hd1).
      eauto.
  - intros e [Hk <-]. unfold register in Hk. step_kind Hk.
    eexists. split; [reflexivity|]. cbn [competitors].
    by rewrite lookup_insert_eq.
Qed.

(** *** AssignedStartTime (C4) *)

Lemma assignedStart_step st e c :
  EventID e = startTime ->
  competitors st !! CompetitorID e = Some c ->
  exists st' c',
    step st e = Running st' /\
    competitors st' = <[CompetitorID e := c']> (competitors st) /\
    startOrder st' = startOrder st ++ [c'] /\
    StartTime c' = assignedStart e /\
    isNotFinished c' =
      (if decide (scheduledInterval cfg
                    < time.Sub (assignedStart e) (baseline baseStart st))
       then true else isNotFinished c) /\
    ID c' = ID c /\ Started c' = Started c /\
    LapsCompleted c' = LapsCompleted c /\ Hits c' = Hits c /\
    isDisqualified c' = isDisqualified c /\
    FinishTime c' = FinishTime c /\ StartPenalty c' = StartPenalty c /\
    lapTimes c' = lapTimes c /\ PenaltyTimes c' = PenaltyTimes c.
Proof.
  intros Hk Hc. unfold startTime in Hk.
  step_kind Hk. rewrite Hc. cbn [deref].
  eexists _, _. split; [reflexivity|]. cbn [competitors startOrder].
  split; [reflexivity|]. split; [reflexivity|].
  fold (scheduledInterval cfg). fold (baseline baseStart st). fold (assignedStart e).
  cbn [StartTime set_StartTime].
  destruct (decide (scheduledInterval cfg
                      < time.Sub (assignedStart e) (baseline baseStart st))) as [L|L].
  - rewrite (proj2 (Z.ltb_lt _ _) L). cbn. tauto.
  - rewrite (proj2 (Z.ltb_ge _ _)) by lia. cbn. tauto.
Qed.




(** *** Penalty segments (C6) *)

Lemma penaltyStart_step st e st' id :
  (forall c, competitors st !! id = Some c -> StartPenalty c = time.zero) ->
  ~ entersPenalty id e ->
  step st e = Running st' ->
  forall c', competitors st' !! id = Some c' -> StartPenalty c' = time.zero.
Proof.
  intros Hz Hne Hs.
  destruct (decide (id = CompetitorID e)) as [->|Hid].
  - revert Hs. unfold entersPenalty, enteredThePenaltyLaps in Hne.
    by_kind e;
      try (destruct (competitors st !! CompetitorID e) as [c|] eqn:Hc;
           cbn [deref]; [specialize (Hz c eq_refl)|]);
      try discriminate;
      intros [= <-] c'; cbn [competitors]; rewrite ?lookup_insert_eq;
      try (intros [= <-]; cbn; repeat case_match; cbn; done);
      try (rewrite Hc; intros [= <-]; assumption);
      try (rewrite Hc; discriminate);
      try tauto; eauto.
  - intros c'. rewrite (processEvent_other _ _ _ _ _ _ _ Hs Hid). auto.
Qed.

Lemma penaltyStart_unset pre st id c :
  steps initial pre = Running st ->
  Forall (fun e => ~ entersPenalty id e) pre ->
  competitors st !! id = Some c -> StartPenalty c = time.zero.
Proof.
  intros Hpre Hall Hc. revert c Hall Hc. revert pre st Hpre.
  apply (processEvents_invariant
           (fun pre st =>
              forall c, Forall (fun e => ~ entersPenalty id e) pre ->
                competitors st !! id = Some c ->
                StartPenalty c = time.zero)).
  - cbn. intros c _. by rewrite lookup_empty.
  - intros pre st e st' IH Hs c Hall.
    apply Forall_app in Hall as [Hpre He]. apply Forall_inv in He.
    eapply penaltyStart_step; eauto.
Qed.

(** C6, amended.  A LeftPenaltyLaps event for a registered competitor
    appends its timestamp minus the start of the penalty segment to the
    penalty durations, prints its narration, and reports no error, whether
    the start was ever set or not; if the competitor has not entered the
    penalty laps so far, the start is the zero Time. *)
Theorem leftPenaltyLaps_appends pre st e c :
  steps initial pre = Running st ->
  EventID e = leftThePenaltyLaps ->
  competitors st !! CompetitorID e = Some c ->
  exists st' c' text,
    step st e = Running st' /\
    competitors st' !! CompetitorID e = Some c' /\
    out st' = out st ++ [Text text] /\
    PenaltyTimes c' =
      PenaltyTimes c ++ [time.Sub (Time e) (StartPenalty c)] /\
    (Forall (fun e0 => ~ entersPenalty (CompetitorID e) e0) pre ->
       StartPenalty c = time.zero).
Proof.
  intros Hpre Hk Hc.
  destruct (leftPenaltyLaps_effect cfg baseStart delta st e c Hk Hc)
    as (st' & c' & text & Hs & Hm & Ho & Hp & _).
  exists st', c', text. rewrite Hm, lookup_insert_eq.
  repeat split; auto.
  intros Hall. eapply penaltyStart_unset; eauto.
Qed.

End Run.

(** ** Regular expressions *)

Section Regexp.
Import regexp.

Lemma app_str_cons a (s1 s2 : string) :
  String a s1 +:+ s2 = String a (s1 +:+ s2).
Proof. reflexivity. Qed.

Lemma app_str_nil_l (s : string) : "" +:+ s = s.
Proof. reflexivity. Qed.

Lemma app_str_assoc (s1 s2 s3 : string) :
  (s1 +:+ s2) +:+ s3 = s1 +:+ (s2 +:+ s3).
Proof.
  induction s1 as [|a s1 IH]; [done|]. by rewrite !app_str_cons, IH.
Qed.

Lemma app_str_nil_r (s : string) : s +:+ "" = s.
Proof. induction s as [|a s IH]; [done|]. by rewrite app_str_cons, IH. Qed.

Context {R : Type}.

Lemma star_sound cl s (k : string -> option R) x :
  star cl s k = Some x ->
  exists s1 s2, s = s1 +:+ s2 /\ Matches (Star cl) s1 /\ k s2 = Some x.
Proof.
  induction s as [|b s IH]; cbn.
  - intros H. exists "", "". rewrite app_str_nil_l. eauto using Matches.
  - destruct (cls_match cl b) eqn:Eb.
    + destruct (star cl s k) as [y|] eqn:Es.
      * intros [= ->]. destruct (IH eq_refl) as (s1 & s2 & -> & Hm & Hk).
        exists (String b s1), s2. rewrite app_str_cons.
        eauto using Matches.
      * intros H. exists "", (String b s). rewrite app_str_nil_l.
        eauto using Matches.
    + intros H. exists "", (String b s). rewrite app_str_nil_l.
      eauto using Matches.
Qed.

Lemma star_complete cl s1 s2 (k : string -> option R) :
  Matches (Star cl) s1 -> is_Some (k s2) -> is_Some (star cl (s1 +:+ s2) k).
Proof.
  intros Hm Hk. remember (Star cl) as r eqn:Er.
  induction Hm; try discriminate; injection Er as ->.
  - rewrite app_str_nil_l. destruct s2 as [|b s2]; cbn; [exact Hk|].
    destruct (cls_match cl b); [|exact Hk].
    destruct (star cl s2 k); eauto.
  - rewrite app_str_cons. cbn. rewrite H.
    specialize (IHHm eq_refl).
    destruct (star cl (s +:+ s2) k) eqn:E; [eauto|].
    by destruct (is_Some_None IHHm).
Qed.

Lemma run_sound r : forall s c (k : string -> caps -> option R) x,
  run r s c k = Some x ->
  exists s1 s2 c', s = s1 +:+ s2 /\ Matches r s1 /\ k s2 c' = Some x.
Proof.
  induction r as [cl|r1 IH1 r2 IH2|cl|r IH|n r IH]; intros s c k x; cbn.
  - destruct s as [|b s]; [discriminate|].
    destruct (cls_match cl b) eqn:Eb; [|discriminate].
    intros H. exists (String b ""), s, c.
    rewrite app_str_cons, app_str_nil_l. eauto using Matches.
  - intros H. apply IH1 in H as (s1 & s' & c1 & -> & Hm1 & H).
    apply IH2 in H as (s2 & s3 & c2 & -> & Hm2 & H).
    exists (s1 +:+ s2), s3, c2. rewrite app_str_assoc. eauto using Matches.
  - intros H. apply star_sound in H as (s1 & s2 & -> & Hm & H). eauto 6.
  - destruct (run r s c k) as [y|] eqn:E.
    + intros [= ->]. apply IH in E as (s1 & s2 & c' & -> & Hm & H).
      eauto 7 using Matches.
    + intros H. exists "", s, c. rewrite app_str_nil_l.
      eauto using Matches.
  - intros H. apply IH in H as (s1 & s2 & c' & -> & Hm & H).
    eauto 7 using Matches.
Qed.

Lemma length_app_str (s1 s2 : string) :
  String.length (s1 +:+ s2) = (String.length s1 + String.length s2)%nat.
Proof.
  induction s1 as [|a s1 IH]; [done|]. rewrite app_str_cons. cbn.
  by rewrite IH.
Qed.

Lemma take_str_app (s1 s2 : string) :
  take_str (String.length (s1 +:+ s2) - String.length s2) (s1 +:+ s2) = s1.
Proof.
  rewrite length_app_str.
  replace (String.length s1 + String.length s2 - String.length s2)%nat
    with (String.length s1) by lia.
  induction s1 as [|a s1 IH]; [by destruct s2|].
  rewrite app_str_cons. cbn. by rewrite IH.
Qed.

Lemma run_captures r : forall s c (k : string -> caps -> option R) x,
  run r s c k = Some x ->
  exists s1 s2 c', s = s1 +:+ s2 /\ Captures r s1 c c' /\ k s2 c' = Some x.
Proof.
  induction r as [cl|r1 IH1 r2 IH2|cl|r IH|n r IH]; intros s c k x; cbn.
  - destruct s as [|b s]; [discriminate|].
    destruct (cls_match cl b) eqn:Eb; [|discriminate].
    intros H. exists (String b ""), s, c.
    rewrite app_str_cons, app_str_nil_l. eauto using Captures.
  - intros H. apply IH1 in H as (s1 & s' & c1 & -> & Hm1 & H).
    apply IH2 in H as (s2 & s3 & c2 & -> & Hm2 & H).
    exists (s1 +:+ s2), s3, c2. rewrite app_str_assoc.
    eauto using Captures.
  - intros H. apply star_sound in H as (s1 & s2 & -> & Hm & H).
    eauto 7 using Captures.
  - destruct (run r s c k) as [y|] eqn:E.
    + intros [= ->]. apply IH in E as (s1 & s2 & c' & -> & Hm & H).
      eauto 7 using Captures.
    + intros H. exists "", s, c. rewrite app_str_nil_l.
      eauto using Captures.
  - intros H. apply IH in H as (s1 & s2 & c' & -> & Hm & H).
    rewrite take_str_app in H. eauto 7 using Captures.
Qed.

Lemma run_complete r s1 : Matches r s1 ->
  forall s2 c (k : string -> caps -> option R),
    (forall c', is_Some (k s2 c')) -> is_Some (run r (s1 +:+ s2) c k).
Proof.
  induction 1 as [cl b Hb|r1 r2 s1 s2 H1 IH1 H2 IH2|cl|cl b s Hb Hs _
                 |r|r s Hs IH|n r s Hs IH]; intros s' c k Hk.
  - rewrite app_str_cons, app_str_nil_l. cbn. rewrite Hb. apply Hk.
  - cbn. rewrite app_str_assoc. apply IH1. intros c'. by apply IH2.
  - cbn [run]. apply (star_complete cl "" s'); [constructor | apply Hk].
  - cbn [run]. apply (star_complete cl (String b s) s');
      [by constructor | apply Hk].
  - rewrite app_str_nil_l. cbn. destruct (run r s' c k); [eauto | apply Hk].
  - cbn. destruct (run r (s +:+ s') c k) eqn:E; [eauto|].
    specialize (IH s' c k Hk). rewrite E in IH. by destruct (is_Some_None IH).
  - cbn. apply IH. intros c'. apply Hk.
Qed.

End Regexp.

Section Find.
Import regexp.

Lemma FindStringSubmatch_None re n s :
  FindStringSubmatch re n s = None <->
  forall mid, substring mid s -> ~ Matches re mid.
Proof.
  induction s as [|b s IH].
  - cbn. destruct (run re "" [] _) as [ms|] eqn:E.
    + split; [discriminate|]. intros H. exfalso.
      apply run_sound in E as (s1 & s2 & c' & Hs & Hm & _).
      apply (H s1); [|exact Hm]. exists "", s2.
      by rewrite app_str_nil_l.
    + split; [|reflexivity]. intros _ mid (pre & post & Hs) Hm.
      destruct pre; [|discriminate]. rewrite app_str_nil_l in Hs.
      assert (is_Some (run re (mid +:+ post) []
        (fun rest c => Some (take_str (String.length "" - String.length rest) ""
                 :: map (fun i => cap i c) (seq 1 n))))) as Hsome.
      { apply run_complete; eauto. }
      rewrite <- Hs in Hsome. cbn in Hsome. rewrite E in Hsome.
      by destruct (is_Some_None Hsome).
  - cbn [FindStringSubmatch].
    destruct (run re (String b s) [] _) as [ms|] eqn:E.
    + split; [discriminate|]. intros H. exfalso.
      apply run_sound in E as (s1 & s2 & c' & Hs & Hm & _).
      apply (H s1); [|exact Hm]. exists "", s2.
      by rewrite app_str_nil_l.
    + rewrite IH. split.
      * intros H mid (pre & post & Hs) Hm. destruct pre as [|b' pre].
        -- rewrite app_str_nil_l in Hs.
           assert (is_Some (run re (mid +:+ post) []
             (fun rest c =>
                Some (take_str (String.length (String b s)
                                - String.length rest) (String b s)
                 :: map (fun i => cap i c) (seq 1 n))))) as Hsome.
           { apply run_complete; eauto. }
           rewrite <- Hs in Hsome. rewrite E in Hsome.
           by destruct (is_Some_None Hsome).
        -- rewrite app_str_cons in Hs. injection Hs as -> ->.
           apply (H mid); [|exact Hm]. by exists pre, post.
      * intros H mid (pre & post & ->) Hm.
        apply (H mid); [|exact Hm]. exists (String b pre), post.
        by rewrite app_str_cons.
Qed.

Lemma Captures_Matches r s c c' : Captures r s c c' -> Matches r s.
Proof. induction 1; eauto using Matches. Qed.

(** A pattern leaves the captures of the groups it does not have. *)
Lemma Captures_other r s c c' n :
  Captures r s c c' -> n ∉ groups r -> cap n c' = cap n c.
Proof.
  induction 1 as [| r1 r2 s1 s2 c c1 c2 _ IH1 _ IH2 | | |
                  | m r s c c' _ IH]; cbn [groups]; intros Hn;
    try reflexivity.
  - rewrite not_elem_of_app in Hn. destruct Hn as [Hn1 Hn2].
    by rewrite IH2, IH1.
  - by apply IHCaptures.
  - rewrite not_elem_of_cons in Hn. destruct Hn as [Hn1 Hn2].
    cbn [cap]. rewrite (proj2 (Nat.eqb_neq m n)) by congruence.
    by apply IH.
Qed.

Lemma FindStringSubmatch_captures re n s ms :
  FindStringSubmatch re n s = Some ms ->
  exists whole c',
    Captures re whole [] c'
    /\ ms = whole :: map (fun i => cap i c') (seq 1 n).
Proof.
  induction s as [|b s IH]; cbn [FindStringSubmatch].
  - destruct (run re "" [] _) as [ms'|] eqn:E; [|discriminate].
    intros [= ->].
    apply run_captures in E as (s1 & s2 & c' & Hs & Hc & [= <-]).
    destruct s1; [|discriminate Hs]. eauto.
  - destruct (run re (String b s) [] _) as [ms'|] eqn:E; [|exact IH].
    intros [= ->].
    apply run_captures in E as (s1 & s2 & c' & Hs & Hc & [= <-]).
    change (S (String.length s)) with (String.length (String b s)).
    rewrite Hs, take_str_app. eauto.
Qed.

End Find.

(** ** [parseDelta] (C9) *)

Lemma Split_nonempty s sep : strings.Split s sep <> [].
Proof.
  induction s as [|c s IH]; cbn; [done|].
  case_bool_decide; [done|]. by destruct (strings.Split s sep).
Qed.

Lemma fieldCount_colons s : fieldCount s = S (colons s).
Proof.
  unfold fieldCount. induction s as [|c s IH]; cbn; [done|].
  case_bool_decide; cbn; [by rewrite IH|].
  pose proof (Split_nonempty s ":"%char).
  destruct (strings.Split s ":"%char); [done|]. exact IH.
Qed.

Lemma parseDelta_error_iff s :
  is_Err (parseDelta s) = true <-> fieldCount s <> 3%nat.
Proof.
  unfold parseDelta, fieldCount.
  destruct (strings.Split s ":"%char) as [|p0 [|p1 [|p2 [|p3 ps]]]]; cbn;
    split; (done || lia || auto).
Qed.

Lemma Split_piece sep a rest :
  free_of sep a = true ->
  strings.Split (a +:+ String sep rest) sep = a :: strings.Split rest sep.
Proof.
  induction a as [|c a IH]; intros H.
  - rewrite app_str_nil_l. cbn. by rewrite bool_decide_eq_true_2.
  - rewrite app_str_cons. cbn in *. apply andb_true_iff in H as [Hc Ha].
    apply negb_true_iff in Hc. rewrite Hc, IH by exact Ha. done.
Qed.

Lemma Split_last sep a :
  free_of sep a = true -> strings.Split a sep = [a].
Proof.
  induction a as [|c a IH]; intros H; cbn in *; [done|].
  apply andb_true_iff in H as [Hc Ha]. apply negb_true_iff in Hc.
  by rewrite Hc, IH.
Qed.

Lemma below100_all (P : Z -> bool) :
  forallb P below100 = true -> forall n, 0 <= n < 100 -> P n = true.
Proof.
  intros H n Hn. rewrite forallb_forall in H. apply H.
  unfold below100. apply in_map_iff. exists (Z.to_nat n).
  split; [lia|]. apply in_seq. lia.
Qed.

Lemma field_ok_all n : 0 <= n < 100 -> field_ok n = true.
Proof. apply below100_all. vm_compute. reflexivity. Qed.

Lemma parseDelta_clock H M S :
  0 <= H < 100 -> 0 <= M < 100 -> 0 <= S < 100 ->
  parseDelta (two H +:+ ":" +:+ two M +:+ ":" +:+ two S)
  = Ok (H * time.Hour + M * time.Minute + S * time.Second).
Proof.
  intros HH HM HS.
  pose proof (field_ok_all H HH) as FH.
  pose proof (field_ok_all M HM) as FM.
  pose proof (field_ok_all S HS) as FS.
  unfold field_ok in *.
  repeat match goal with
         | F : _ && _ = true |- _ => apply andb_true_iff in F as [F ?]
         | F : (_ =? _) = true |- _ => apply Z.eqb_eq in F
         end.
  unfold parseDelta.
  change (two H +:+ ":" +:+ two M +:+ ":" +:+ two S)
    with (two H +:+ String ":"%char (two M +:+ String ":"%char (two S))).
  rewrite !Split_piece, Split_last by assumption.
  cbv beta iota zeta.
  repeat match goal with
         | F : strconv.to_int _ = _ |- _ => rewrite F
         | F : fst _ = _ |- _ => rewrite F
         end.
  f_equal.
  assert (time.Hour = 3600000000000) as -> by reflexivity.
  assert (time.Minute = 60000000000) as -> by reflexivity.
  assert (time.Second = 1000000000) as -> by reflexivity.
  rewrite Z.mul_0_l.
  assert (forall z, - 2 ^ 62 <= z <= 2 ^ 62 -> wrap64 z = z) as W.
  { intros z Hz. apply wrap64_id. unfold min_int64, max_int64. lia. }
  rewrite (W 0), (W (H * _)), (W (M * _)), (W (S * _)) by lia.
  rewrite (W (H * _ + M * _)) by lia.
  rewrite (W (H * _ + M * _ + S * _)) by lia.
  rewrite W by lia. lia.
Qed.

(** ** Clock strings *)

Lemma below1000_all (P : Z -> bool) :
  forallb P below1000 = true -> forall n, 0 <= n < 1000 -> P n = true.
Proof.
  intros H n Hn. rewrite forallb_forall in H. apply H.
  unfold below1000. apply in_map_iff. exists (Z.to_nat n).
  split; [lia|]. apply in_seq. lia.
Qed.

Lemma two_shape n :
  0 <= n < 100 ->
  exists a b, two n = String a (String b "")
    /\ isDigitB a = true /\ isDigitB b = true
    /\ digit_val a * 10 + digit_val b = n.
Proof.
  intros Hn.
  assert (two_digits n = true) as H.
  { revert n Hn. apply below100_all. vm_compute. reflexivity. }
  unfold two_digits in H.
  destruct (two n) as [|a [|b [|]]]; try discriminate.
  apply andb_true_iff in H as [H H3]. apply andb_true_iff in H as [H1 H2].
  apply Z.eqb_eq in H3. eauto 6.
Qed.

Lemma three_shape n :
  0 <= n < 1000 ->
  exists a b c, three n = String a (String b (String c ""))
    /\ isDigitB a = true /\ isDigitB b = true /\ isDigitB c = true
    /\ time.atoi (three n) = Some n.
Proof.
  intros Hn.
  assert (three_digits n = true) as H.
  { revert n Hn. apply below1000_all. vm_compute. reflexivity. }
  unfold three_digits in H.
  destruct (three n) as [|a [|b [|c [|]]]]; try discriminate.
  apply andb_true_iff in H as [H H2].
  apply andb_true_iff in H as [H Hc].
  apply andb_true_iff in H as [Ha Hb].
  destruct (time.atoi _) as [v|]; [|discriminate].
  apply Z.eqb_eq in H2 as ->. eauto 9.
Qed.

Lemma getnum_two a b rest fixed :
  isDigitB a = true -> isDigitB b = true ->
  time.getnum (String a (String b rest)) fixed
  = Some (digit_val a * 10 + digit_val b, rest).
Proof. intros Ha Hb. cbn. by rewrite Ha, Hb. Qed.

Lemma skip_colon rest : time.skip (String ":" rest) ":" = Some rest.
Proof. cbn. by rewrite bool_decide_eq_true_2. Qed.

Lemma skip_nothing value : time.skip value "" = Some value.
Proof. reflexivity. Qed.

Ltac clock_fields H M S :=
  destruct (two_shape H) as (? & ? & -> & ? & ? & <-); [assumption|];
  destruct (two_shape M) as (? & ? & -> & ? & ? & <-); [assumption|];
  destruct (two_shape S) as (? & ? & -> & ? & ? & <-); [assumption|].


Lemma Parse_milli H M S ms :
  0 <= H < 100 -> 0 <= M < 100 -> 0 <= S < 100 -> 0 <= ms < 1000 ->
  time.Parse timeLayout (hmsm H M S ms)
  = if validClock H M S
    then Ok (time.clock H M S (ms * time.Millisecond))
    else Err (ErrParseTime "15:04:05.000" (hmsm H M S ms)).
Proof.
  intros HH HM HS Hms. unfold time.Parse, hmsm, hms, validClock.
  destruct (three_shape ms Hms) as (a & b & c & E & Ha & Hb & Hc & Hat).
  rewrite E in *. clock_fields H M S.
  repeat (rewrite ?app_str_assoc, ?app_str_cons, ?app_str_nil_l).
  cbn [time.chunks timeLayout time.layoutMilli time.text time.parse_chunks].
  rewrite skip_nothing, getnum_two by assumption.
  rewrite Z.leb_antisym. destruct (_ <? 24); cbn [negb andb]; [|done].
  rewrite skip_colon, getnum_two by assumption.
  rewrite Z.leb_antisym. destruct (_ <? 60); cbn [negb andb]; [|done].
  rewrite skip_colon, getnum_two by assumption.
  rewrite Z.leb_antisym. destruct (_ <? 60); cbn [negb andb]; [|done].
  cbn [time.has_fraction time.next_is_frac negb andb time.skip].
  rewrite andb_false_r.
  cbn [String.length Nat.ltb Nat.leb time.parseNanoseconds].
  assert (time.commaOrPeriod "." = true) as -> by reflexivity.
  cbn [Nat.min take_str drop_str]. rewrite Hat.
  destruct (ms <? 0) eqn:E0; [lia|]. cbn [drop_str]. done.
Qed.


(** ** [parseEvent] (C10) *)

Lemma wholeMatch_spec re s : wholeMatch re s = true <-> Matches re s.
Proof.
  unfold wholeMatch. split.
  - destruct (run re s [] _) as [[]|] eqn:E; [intros _|discriminate].
    apply run_sound in E as (s1 & s2 & c' & -> & Hm & Hk).
    destruct s2; [|discriminate]. by rewrite app_str_nil_r.
  - intros Hm.
    destruct (run_complete re s Hm "" []
                (fun rest _ =>
                   match rest with EmptyString => Some tt | _ => None end))
      as [x E]; [by eauto|].
    rewrite app_str_nil_r in E. by rewrite E.
Qed.

(** A match is the matched text and one text for each group. *)
Lemma FindStringSubmatch_shape re n s ms :
  FindStringSubmatch re n s = Some ms -> length ms = S n.
Proof.
  induction s as [|b s IH]; cbn [FindStringSubmatch].
  - destruct (run re "" [] _) as [ms'|] eqn:E; [|discriminate].
    intros [= ->]. apply run_sound in E as (s1 & s2 & c' & _ & _ & [= <-]).
    cbn. by rewrite length_map, length_seq.
  - destruct (run re (String b s) [] _) as [ms'|] eqn:E; [|exact IH].
    intros [= ->]. apply run_sound in E as (s1 & s2 & c' & _ & _ & [= <-]).
    cbn. by rewrite length_map, length_seq.
Qed.

(** The timestamps [time.Parse] turns down among those the pattern lets
    through. *)
Lemma stamp_rejected H M S ms :
  0 <= H < 100 -> 0 <= M < 100 -> 0 <= S < 100 -> 0 <= ms < 1000 ->
  is_Err (time.Parse timeLayout (hmsm H M S ms)) = true
  <-> 24 <= H \/ 60 <= M \/ 60 <= S.
Proof.
  intros HH HM HS Hms. rewrite Parse_milli by assumption.
  unfold validClock.
  destruct (H <? 24) eqn:E1; [apply Z.ltb_lt in E1 | apply Z.ltb_ge in E1];
    destruct (M <? 60) eqn:E2;
    [apply Z.ltb_lt in E2 | apply Z.ltb_ge in E2 | apply Z.ltb_lt in E2
    | apply Z.ltb_ge in E2];
    destruct (S <? 60) eqn:E3;
    try apply Z.ltb_lt in E3; try apply Z.ltb_ge in E3;
    cbn; split; (discriminate || lia || auto).
Qed.

Lemma digit_char a : isDigitB a = true -> In a digit_chars.
Proof.
  destruct a as [b0 b1 b2 b3 b4 b5 b6 b7].
  destruct b0, b1, b2, b3, b4, b5, b6, b7; vm_compute; intros H;
    try discriminate H; tauto.
Qed.

Lemma two_of_all a b :
  isDigitB a = true -> isDigitB b = true -> two_of a b = true.
Proof.
  intros Ha%digit_char Hb%digit_char.
  assert (forallb (fun a => forallb (two_of a) digit_chars) digit_chars
          = true) as H by (vm_compute; reflexivity).
  rewrite forallb_forall in H. specialize (H a Ha).
  rewrite forallb_forall in H. exact (H b Hb).
Qed.

Lemma three_of_all a b c :
  isDigitB a = true -> isDigitB b = true -> isDigitB c = true ->
  three_of a b c = true.
Proof.
  intros Ha%digit_char Hb%digit_char Hc%digit_char.
  assert (forallb
            (fun a =>
               forallb (fun b => forallb (three_of a b) digit_chars)
                 digit_chars) digit_chars = true) as H
    by (vm_compute; reflexivity).
  rewrite forallb_forall in H. specialize (H a Ha).
  rewrite forallb_forall in H. specialize (H b Hb).
  rewrite forallb_forall in H. exact (H c Hc).
Qed.

Lemma digit_val_range a : isDigitB a = true -> 0 <= digit_val a <= 9.
Proof.
  unfold isDigitB, digit_val. rewrite andb_true_iff, !Z.leb_le. lia.
Qed.

Ltac invert_match :=
  repeat match goal with
         | H : Matches (Cat _ _) _ |- _ => inversion H; subst; clear H
         | H : Matches (Chr _) _ |- _ => inversion H; subst; clear H
         | H : Matches digit2 _ |- _ => unfold digit2 in H
         | H : Matches digit3 _ |- _ => unfold digit3 in H
         | H : Matches (lit _) _ |- _ => unfold lit in H
         | H : cls_match (Byte _) _ = true |- _ =>
             apply bool_decide_eq_true in H; subst
         | H : cls_match Digit _ = true |- _ => cbn [cls_match] in H
         end.

(** The timestamps the pattern lets through are the strings
    HH:MM:SS.mmm. *)
Lemma stamp_form s :
  Matches stampRegex s ->
  exists H M S ms,
    0 <= H < 100 /\ 0 <= M < 100 /\ 0 <= S < 100 /\ 0 <= ms < 1000
    /\ s = hmsm H M S ms.
Proof.
  unfold stampRegex. intros Hm. invert_match.
  repeat (rewrite ?app_str_assoc, ?app_str_cons, ?app_str_nil_l).
  match goal with
  | |- exists H M S ms, _ /\ _ /\ _ /\ _ /\
         String ?a (String ?b (String _ (String ?c (String ?d (String _
           (String ?e (String ?f (String _
             (String ?g (String ?h (String ?i _))))))))))) = _ =>
      pose proof (two_of_all a b ltac:(assumption) ltac:(assumption)) as T1;
      pose proof (two_of_all c d ltac:(assumption) ltac:(assumption)) as T2;
      pose proof (two_of_all e f ltac:(assumption) ltac:(assumption)) as T3;
      pose proof (three_of_all g h i ltac:(assumption) ltac:(assumption)
                    ltac:(assumption)) as T4;
      exists (digit_val a * 10 + digit_val b),
        (digit_val c * 10 + digit_val d),
        (digit_val e * 10 + digit_val f),
        (digit_val g * 100 + digit_val h * 10 + digit_val i)
  end.
  repeat match goal with
         | H : isDigitB ?a = true |- _ =>
             pose proof (digit_val_range a H); clear H
         end.
  unfold two_of, three_of in *.
  apply andb_true_iff in T1 as [T1 L1], T2 as [T2 L2], T3 as [T3 L3],
    T4 as [T4 L4].
  apply String.eqb_eq in T1, T2, T3, T4.
  apply Z.ltb_lt in L1, L2, L3, L4.
  repeat split; try lia.
  unfold hmsm, hms. rewrite T1, T2, T3, T4.
  repeat (rewrite ?app_str_assoc, ?app_str_cons, ?app_str_nil_l).
  reflexivity.
Qed.

Lemma eventRegex_stamp whole c' :
  Captures eventRegex whole [] c' -> Matches stampRegex (cap 1 c').
Proof.
  unfold eventRegex. intros H.
  inversion H as [|? ? s1 s2 ? c1 ? H1 H2| | | |]; subst; clear H.
  inversion H2 as [|? ? s3 s4 ? c2 ? H3 H4| | | |]; subst; clear H2.
  inversion H3 as [| | | | |? ? ? ? c3 H5]; subst; clear H3.
  rewrite (Captures_other _ _ _ _ 1%nat H4).
  - cbn. eapply Captures_Matches, H5.
  - assert (groups tailRegex = [2; 3; 4]%nat) as -> by reflexivity.
    rewrite !not_elem_of_cons. repeat split; [lia..|apply not_elem_of_nil].
Qed.

Lemma FindStringSubmatch_stamp line w m1 m2 m3 m4 :
  FindStringSubmatch eventRegex 4 line = Some [w; m1; m2; m3; m4] ->
  exists H M S ms,
    0 <= H < 100 /\ 0 <= M < 100 /\ 0 <= S < 100 /\ 0 <= ms < 1000
    /\ m1 = hmsm H M S ms.
Proof.
  intros E. apply FindStringSubmatch_captures in E as (whole & c' & Hc & E).
  injection E as _ -> _ _ _. apply eventRegex_stamp in Hc.
  by apply stamp_form in Hc.
Qed.

Lemma parseEvent_error_iff line :
  is_Err (parseEvent line) = true <->
    (forall mid, substring mid line -> ~ Matches eventRegex mid)
    \/ (exists whole stamp kind id payload,
          FindStringSubmatch eventRegex 4 line
          = Some [whole; stamp; kind; id; payload]
          /\ is_Err (time.Parse timeLayout stamp) = true).
Proof.
  rewrite <- (FindStringSubmatch_None eventRegex 4). unfold parseEvent.
  destruct (FindStringSubmatch eventRegex 4 line) as [ms|] eqn:E.
  - pose proof (FindStringSubmatch_shape _ _ _ _ E) as Hlen.
    destruct ms as [|w [|m1 [|m2 [|m3 [|m4 [|]]]]]]; try discriminate Hlen.
    destruct (time.Parse timeLayout m1) as [t|err] eqn:P; cbn.
    + split; [discriminate|].
      intros [Hn|(w' & m1' & m2' & m3' & m4' & Hf & Hp)]; [discriminate|].
      injection Hf as <- <- <- <- <-. rewrite P in Hp. discriminate.
    + split; [|done]. intros _. right. exists w, m1, m2, m3, m4.
      by rewrite P.
  - cbn. split; [by left | done].
Qed.

(** ** The two readings of [startDelta] *)

Lemma time_units :
  time.Hour = 3600000000000 /\ time.Minute = 60000000000
  /\ time.Second = 1000000000 /\ time.Millisecond = 1000000
  /\ time.Day = 86400000000000 /\ time.year0 = -31622400000000000.
Proof. repeat split; reflexivity. Qed.




(** *** AssignedStartTime (C4) *)



(** *** [parseDelta] (C9) *)

Lemma Atoi_syntax p :
  snd (strconv.Atoi p) = Some strconv.ErrSyntax -> fst (strconv.Atoi p) = 0.
Proof.
  unfold strconv.Atoi.
  destruct ((0 <? String.length p) && (String.length p <? 19))%nat.
  - destruct p as [|c r]; [done|].
    destruct (bool_decide (c = "-"%char) || bool_decide (c = "+"%char)).
    + destruct r; [done|]. by destruct (strconv.atoi_fast 0 _).
    + by destruct (strconv.atoi_fast 0 _).
  - unfold strconv.ParseInt. destruct p as [|c r]; [done|].
    destruct (if bool_decide (c = "+"%char) then _ else _) as [neg s'].
    destruct (strconv.ParseUint s') as [un [[]|]]; cbn; try done.
    + destruct (negb neg && (2 ^ 63 <=? un)); [done|].
      by destruct (neg && (2 ^ 63 <? un)).
    + destruct (negb neg && (2 ^ 63 <=? un)); [done|].
      by destruct (neg && (2 ^ 63 <? un)).
Qed.

Lemma ParseFloat_syntax p :
  snd (strconv.ParseFloat p) = Some strconv.ErrSyntax ->
  fst (strconv.ParseFloat p) = S754_zero false.
Proof.
  unfold strconv.ParseFloat.
  destruct (strconv.special p) as [[f n]|].
  - by destruct (n =? String.length p)%nat.
  - destruct (strconv.readFloat p) as [q|]; [|done].
    destruct (strconv.p_rest q); [|done]. cbn.
    by destruct (strconv.nearest q).
Qed.

Lemma notNumber_first c r :
  notNumber (String c r) = true ->
  isDigitB c = false
  /\ c <> "+"%char /\ c <> "-"%char /\ c <> "."%char /\ c <> "_"%char
  /\ c <> "i"%char /\ c <> "I"%char /\ c <> "n"%char /\ c <> "N"%char.
Proof.
  cbn [notNumber existsb]. rewrite negb_true_iff, !orb_false_iff.
  rewrite !bool_decide_eq_false. tauto.
Qed.

(** A field that is no number is a syntax error for [Atoi] and for
    [ParseFloat]. *)
Lemma notNumber_Atoi p :
  notNumber p = true -> snd (strconv.Atoi p) = Some strconv.ErrSyntax.
Proof.
  destruct p as [|c r]; [reflexivity|]. intros H.
  apply notNumber_first in H as (Hd & Hp & Hm & _).
  unfold strconv.Atoi.
  destruct ((0 <? String.length (String c r))
            && (String.length (String c r) <? 19))%nat.
  - rewrite !bool_decide_eq_false_2 by done. cbn [orb strconv.atoi_fast].
    by rewrite Hd.
  - unfold strconv.ParseInt. rewrite !bool_decide_eq_false_2 by done.
    unfold strconv.ParseUint. cbn [strconv.parseUint_loop]. by rewrite Hd.
Qed.

Lemma notNumber_ParseFloat p :
  notNumber p = true -> snd (strconv.ParseFloat p) = Some strconv.ErrSyntax.
Proof.
  destruct p as [|c r]; [reflexivity|]. intros H.
  apply notNumber_first in H as (Hd & Hp & Hm & Hdot & Hu & Hi & HI & Hn & HN).
  assert (c <> "0"%char) as H0 by (intros ->; discriminate Hd).
  unfold strconv.ParseFloat, strconv.special.
  rewrite !bool_decide_eq_false_2 by done. cbn [orb].
  unfold strconv.readFloat. rewrite !bool_decide_eq_false_2 by done.
  cbv beta iota zeta.
  assert (forall (r' : string) (st : strconv.mantissa),
            strconv.read_mantissa false st (String c r')
            = (st, String c r')) as Hm0.
  { intros r' st. cbn [strconv.read_mantissa].
    rewrite !bool_decide_eq_false_2 by done. by rewrite Hd. }
  destruct r as [|c1 [|c2 r2]];
    rewrite ?(bool_decide_eq_false_2 (c = "0"%char)) by done;
    cbn [andb]; rewrite Hm0; reflexivity.
Qed.

(** What [parseDelta] makes of a field it reads as [n]. *)
Lemma readAs_field p n :
  readAs p n ->
  free_of ":"%char p = true
  /\ fst (strconv.Atoi p) = n
  /\ strconv.to_int (fst (strconv.ParseFloat p)) = n
  /\ strconv.to_int
       (strconv.fmul
          (strconv.fsub (fst (strconv.ParseFloat p)) (strconv.of_int n))
          (strconv.of_int 1000)) = 0
  /\ 0 <= n < 100.
Proof.
  intros [[Hn ->]|(Hno & Hfree & ->)].
  - pose proof (field_ok_all n Hn) as F. unfold field_ok in F.
    repeat match goal with
           | F : _ && _ = true |- _ => apply andb_true_iff in F as [F ?]
           | F : (_ =? _) = true |- _ => apply Z.eqb_eq in F
           end.
    done.
  - split; [done|].
    rewrite (Atoi_syntax p (notNumber_Atoi p Hno)).
    rewrite (ParseFloat_syntax p (notNumber_ParseFloat p Hno)).
    repeat split; try reflexivity; lia.
Qed.

Lemma parseDelta_fields p0 p1 p2 H M S :
  readAs p0 H -> readAs p1 M -> readAs p2 S ->
  parseDelta (p0 +:+ ":" +:+ p1 +:+ ":" +:+ p2)
  = Ok (H * time.Hour + M * time.Minute + S * time.Second).
Proof.
  intros (F0 & A0 & _ & _ & HH)%readAs_field (F1 & A1 & _ & _ & HM)%readAs_field
    (F2 & _ & S2 & M2 & HS)%readAs_field.
  unfold parseDelta.
  change (p0 +:+ ":" +:+ p1 +:+ ":" +:+ p2)
    with (p0 +:+ String ":"%char (p1 +:+ String ":"%char p2)).
  rewrite !Split_piece, Split_last by assumption.
  cbv beta iota zeta. rewrite A0, A1, S2, M2.
  f_equal.
  assert (time.Hour = 3600000000000) as -> by reflexivity.
  assert (time.Minute = 60000000000) as -> by reflexivity.
  assert (time.Second = 1000000000) as -> by reflexivity.
  rewrite Z.mul_0_l.
  assert (forall z, - 2 ^ 62 <= z <= 2 ^ 62 -> wrap64 z = z) as W.
  { intros z Hz. apply wrap64_id. unfold min_int64, max_int64. lia. }
  rewrite (W 0), (W (H * _)), (W (M * _)), (W (S * _)) by lia.
  rewrite (W (H * _ + M * _)) by lia.
  rewrite (W (H * _ + M * _ + S * _)) by lia.
  rewrite W by lia. lia.
Qed.

(** C9, amended.  [parseDelta] returns an error exactly for the strings
    that do not have three colon-separated fields, that is, two colons;
    for every string HH:MM:SS of two-digit numbers it returns HH hours
    + MM minutes + SS seconds; and a field that is no number is no error
    but is read as zero, whichever of the three it is and whatever the
    others are. *)
Theorem parseDelta_spec :
  (forall s,
     (is_Err (parseDelta s) = true <-> fieldCount s <> 3%nat)
     /\ fieldCount s = S (colons s))
  /\ (forall H M S,
        0 <= H < 100 -> 0 <= M < 100 -> 0 <= S < 100 ->
        parseDelta (hms H M S)
        = Ok (H * time.Hour + M * time.Minute + S * time.Second))
  /\ (forall p0 p1 p2 H M S,
        readAs p0 H -> readAs p1 M -> readAs p2 S ->
        parseDelta (p0 +:+ ":" +:+ p1 +:+ ":" +:+ p2)
        = Ok (H * time.Hour + M * time.Minute + S * time.Second)).
Proof.
  split; [|split].
  - intros s. split; [apply parseDelta_error_iff | apply fieldCount_colons].
  - intros H M S. apply parseDelta_clock.
  - apply parseDelta_fields.
Qed.

(** *** ActuallyStarted (C5) *)


(** ** Sorting (C8) *)

Section InsertionSort.
Context {A : Type} (key : A -> Z) (lt : A -> A -> bool).
Hypothesis lt_key : forall x y, lt x y = true <-> key x < key y.

Import sort.

Lemma Less_adjacent (p : list A) y x rest :
  Less lt (p ++ y :: x :: rest) (S (length p)) (length p) = lt x y.
Proof.
  unfold Less.
  rewrite (lookup_app_r p _ (S (length p))) by lia.
  rewrite (lookup_app_r p _ (length p)) by lia.
  replace (S (length p) - length p)%nat with 1%nat by lia.
  rewrite Nat.sub_diag. reflexivity.
Qed.

Lemma Swap_adjacent (p : list A) y x rest :
  Swap (p ++ y :: x :: rest) (S (length p)) (length p)
  = p ++ x :: y :: rest.
Proof.
  unfold Swap.
  rewrite (lookup_app_r p _ (S (length p))) by lia.
  rewrite (lookup_app_r p _ (length p)) by lia.
  replace (S (length p) - length p)%nat with 1%nat by lia.
  rewrite Nat.sub_diag. cbn [lookup list_lookup].
  rewrite (insert_app_r_alt p _ (length p)) by lia.
  rewrite Nat.sub_diag. cbn [insert list_insert].
  rewrite (insert_app_r_alt p _ (S (length p))) by lia.
  replace (S (length p) - length p)%nat with 1%nat by lia.
  reflexivity.
Qed.

Lemma sink_spec rp x rest :
  sink lt (reverse rp ++ x :: rest) 0 (length rp)
  = reverse (sink_rev lt x rp) ++ rest.
Proof.
  revert x rest. induction rp as [|y rp IH]; intros x rest.
  - reflexivity.
  - cbn [length sink sink_rev]. rewrite reverse_cons, <- app_assoc.
    cbn [app]. rewrite <- (length_reverse rp).
    rewrite Less_adjacent, Swap_adjacent. cbn [Nat.ltb Nat.leb andb].
    destruct (lt x y).
    + rewrite length_reverse, IH, reverse_cons, <- app_assoc. reflexivity.
    + rewrite !reverse_cons, <- !app_assoc. reflexivity.
Qed.

Lemma length_sink_rev x rp : length (sink_rev lt x rp) = S (length rp).
Proof.
  induction rp as [|y rp IH]; cbn; [done|].
  destruct (lt x y); cbn; by rewrite ?IH.
Qed.

Lemma insertion_loop_spec rest acc :
  insertion_loop lt (length rest) (reverse acc ++ rest) 0 (length acc)
  = reverse (fold_left (fun acc x => sink_rev lt x acc) rest acc).
Proof.
  revert acc. induction rest as [|x rest IH]; intros acc.
  - cbn. by rewrite app_nil_r.
  - cbn [length insertion_loop fold_left].
    rewrite sink_spec, <- (length_sink_rev x acc). apply IH.
Qed.

Lemma insertionSort_isort d :
  insertionSort_func lt d 0 (length d) = isort lt d.
Proof.
  unfold insertionSort_func, isort. destruct d as [|x d]; [reflexivity|].
  cbn [length fold_left sink_rev].
  replace (S (length d) - (0 + 1))%nat with (length d) by lia.
  apply (insertion_loop_spec d [x]).
Qed.

(** Where [sink_rev] puts [x]: after the elements it is less than, and
    in front of the first one it is not less than. *)
Lemma sink_rev_split x rp :
  exists s r,
    rp = s ++ r /\ sink_rev lt x rp = s ++ x :: r
    /\ Forall (fun y => key x < key y) s
    /\ (forall y, head r = Some y -> key y <= key x).
Proof.
  induction rp as [|y rp (s & r & -> & E & Hs & Hr)]; cbn.
  - exists [], []. repeat split; [constructor | discriminate].
  - destruct (lt x y) eqn:L.
    + exists (y :: s), r. rewrite E. repeat split; [|exact Hr].
      constructor; [by apply lt_key | exact Hs].
    + exists [], (y :: s ++ r). repeat split; [constructor|].
      cbn. intros ? [= <-].
      destruct (Z.lt_ge_cases (key x) (key y)) as [Hlt|]; [|lia].
      apply lt_key in Hlt. congruence.
Qed.

Lemma sink_rev_ascending x rp :
  ascending key (reverse rp) -> ascending key (reverse (sink_rev lt x rp)).
Proof.
  destruct (sink_rev_split x rp) as (s & r & -> & -> & Hs & Hr).
  unfold ascending. rewrite !reverse_app, reverse_cons.
  rewrite <- app_assoc. cbn [app].
  rewrite !StronglySorted_app, StronglySorted_cons.
  intros (Hrs & Hsr & Hss). repeat split; try assumption.
  - intros z1 z2 Hz1 Hz2. apply elem_of_cons in Hz2 as [->|Hz2]; [|eauto].
    destruct r as [|y r]; [by apply elem_of_nil in Hz1|].
    specialize (Hr y eq_refl).
    rewrite reverse_cons in Hz1, Hsr.
    apply elem_of_app in Hz1 as [Hz1|Hz1].
    + apply StronglySorted_app in Hsr as (Hyr & _ & _).
      specialize (Hyr z1 y Hz1). rewrite list_elem_of_singleton in Hyr.
      specialize (Hyr eq_refl). lia.
    + apply list_elem_of_singleton in Hz1 as ->. exact Hr.
  - apply Forall_forall. intros z Hz. rewrite elem_of_reverse in Hz.
    rewrite Forall_forall in Hs. specialize (Hs z Hz). lia.
Qed.

Lemma sink_rev_perm x rp : sink_rev lt x rp ≡ₚ x :: rp.
Proof.
  destruct (sink_rev_split x rp) as (s & r & -> & -> & _).
  symmetry. apply Permutation_middle.
Qed.

Lemma sink_rev_filter (P : A -> Prop) `{!forall y, Decision (P y)} x rp :
  (forall y z, P y -> P z -> key y = key z) ->
  filter P (sink_rev lt x rp) = filter P (x :: rp).
Proof.
  intros Hsame.
  destruct (sink_rev_split x rp) as (s & r & -> & -> & Hs & _).
  rewrite !filter_app, !filter_cons, filter_app.
  destruct (decide (P x)) as [Px|]; [|reflexivity].
  assert (filter P s = []) as ->; [|reflexivity].
  induction s as [|z s IH]; [reflexivity|].
  apply Forall_cons in Hs as [Hz Hs]. rewrite filter_cons.
  destruct (decide (P z)) as [Pz|]; [|by apply IH].
  specialize (Hsame x z Px Pz). lia.
Qed.

Lemma isort_ascending d : ascending key (isort lt d).
Proof.
  unfold isort.
  assert (forall acc, ascending key (reverse acc) ->
            ascending key (reverse (fold_left (fun acc x => sink_rev lt x acc) d acc)))
    as H.
  { induction d as [|x d IH]; intros acc Hacc; [exact Hacc|].
    cbn. apply IH. by apply sink_rev_ascending. }
  apply H. constructor.
Qed.

Lemma isort_perm d : isort lt d ≡ₚ d.
Proof.
  unfold isort. rewrite reverse_Permutation.
  assert (forall acc,
            fold_left (fun acc x => sink_rev lt x acc) d acc ≡ₚ d ++ acc) as H.
  { induction d as [|x d IH]; intros acc; [reflexivity|].
    cbn. rewrite IH, sink_rev_perm. symmetry. apply Permutation_middle. }
  by rewrite H, app_nil_r.
Qed.

Lemma isort_stable (P : A -> Prop) `{!forall y, Decision (P y)} d :
  (forall y z, P y -> P z -> key y = key z) ->
  filter P (isort lt d) = filter P d.
Proof.
  intros Hsame. unfold isort.
  assert (forall acc,
            filter P (reverse (fold_left (fun acc x => sink_rev lt x acc) d acc))
            = filter P (reverse acc) ++ filter P d) as Hfold.
  { induction d as [|x d IH]; intros acc; [by rewrite app_nil_r|].
    cbn [fold_left]. rewrite IH, !filter_reverse, sink_rev_filter by done.
    rewrite !filter_cons. destruct (decide (P x)); [|reflexivity].
    by rewrite reverse_cons, <- app_assoc. }
  by rewrite Hfold.
Qed.

(** For at most twelve elements the quicksort is the insertion sort. *)
Lemma Slice_short d :
  (length d <= 12)%nat -> Slice lt d = isort lt d.
Proof.
  intros Hlen. unfold Slice, Slice_fuel. cbn [pdqsort_func].
  rewrite Nat.sub_0_r. rewrite (proj2 (Nat.leb_le _ _) Hlen).
  cbn [default]. apply insertionSort_isort.
Qed.

End InsertionSort.

Lemma before_key x y : before x y = true <-> Time x < Time y.
Proof. unfold before, time.Before. apply bool_decide_eq_true. Qed.

(** C8, amended.  Of at most twelve events, [sort.Slice] makes a
    permutation in the order of the timestamps, in which the events of one
    timestamp keep the order they have in the input; it is the order the
    loop handles and narrates them in. *)
Theorem sorted_stable_upto_12 (events : list Event) :
  (length events <= 12)%nat ->
  sort.Slice before events ≡ₚ events
  /\ StronglySorted (fun x y => Time x <= Time y) (sort.Slice before events)
  /\ forall t,
       filter (fun e => Time e = t) (sort.Slice before events)
       = filter (fun e => Time e = t) events.
Proof.
  intros Hlen. rewrite Slice_short by exact Hlen.
  split; [eapply isort_perm, before_key|].
  split; [eapply (isort_ascending Time), before_key|].
  intros t. eapply (isort_stable Time); [apply before_key | congruence].
Qed.

(** ** The fuel of the quicksort suffices *)

Section Fuel.
Context {A : Type} (lt : A -> A -> bool).
Import sort.

Lemma scan_up_bounds fuel (d : list A) a i j :
  (i <= S j)%nat ->
  (i <= scan_up lt fuel d a i j <= S j)%nat.
Proof.
  revert i. induction fuel as [|fuel IH]; intros i Hi; cbn; [lia|].
  destruct ((i <=? j)%nat && Less lt d i a) eqn:E; [|lia].
  apply andb_true_iff in E as [E _]. apply Nat.leb_le in E.
  specialize (IH (S i)). lia.
Qed.

Lemma scan_up_stop fuel (d : list A) a i j :
  (S j - i <= fuel)%nat ->
  (scan_up lt fuel d a i j <= j)%nat ->
  Less lt d (scan_up lt fuel d a i j) a = false.
Proof.
  revert i. induction fuel as [|fuel IH]; intros i Hf; cbn; [lia|].
  destruct (i <=? j)%nat eqn:E; cbn [andb].
  - destruct (Less lt d i a) eqn:L; [|by intros _].
    apply Nat.leb_le in E. apply IH. lia.
  - apply Nat.leb_gt in E. lia.
Qed.

Lemma scan_down_bounds (d : list A) a i j :
  (i <= S j)%nat ->
  (scan_down lt d a i j <= j)%nat /\ (i <= S (scan_down lt d a i j))%nat.
Proof.
  induction j as [|j IH]; intros Hi; cbn; [lia|].
  destruct ((i <=? S j)%nat && negb (Less lt d (S j) a)) eqn:E; [|lia].
  apply andb_true_iff in E as [E _]. apply Nat.leb_le in E.
  specialize (IH ltac:(lia)). lia.
Qed.

Lemma scan_down_stop (d : list A) a i j :
  (1 <= i <= scan_down lt d a i j)%nat ->
  Less lt d (scan_down lt d a i j) a = true.
Proof.
  induction j as [|j IH]; cbn; [lia|].
  destruct (i <=? S j)%nat eqn:E; cbn [andb].
  - destruct (Less lt d (S j) a) eqn:L; cbn [negb]; [by intros _|].
    exact IH.
  - apply Nat.leb_gt in E. lia.
Qed.

Lemma partition_loop_bounds fuel (d : list A) a i j :
  (a + 1 <= i <= S j)%nat ->
  (a <= snd (partition_loop lt fuel d a i j) <= j)%nat.
Proof.
  revert d i j. induction fuel as [|fuel IH]; intros d i j Hi;
    cbn [partition_loop snd]; [lia|]. cbv zeta.
  pose proof (scan_up_bounds (S j) d a i j ltac:(lia)) as Hu.
  set (i1 := scan_up lt (S j) d a i j) in *.
  pose proof (scan_down_bounds d a i1 j ltac:(lia)) as Hd.
  pose proof (scan_down_stop d a i1 j) as Hs.
  set (j1 := scan_down lt d a i1 j) in *.
  destruct (j1 <? i1)%nat eqn:E; cbn [snd].
  - apply Nat.ltb_lt in E. lia.
  - apply Nat.ltb_ge in E.
    assert (i1 <> j1) as Hne.
    { intros Heq.
      pose proof (scan_up_stop (S j) d a i j ltac:(lia)) as Hus.
      fold i1 in Hus. rewrite Heq in Hus.
      rewrite Hs in Hus by lia. specialize (Hus ltac:(lia)). discriminate. }
    specialize (IH (Swap d i1 j1) (S i1) (j1 - 1)%nat ltac:(lia)). lia.
Qed.

Lemma partition_func_bounds (d : list A) a b pivot :
  (a < b)%nat ->
  (a <= snd (fst (partition_func lt d a b pivot)) < b)%nat.
Proof.
  intros Hab. unfold partition_func. cbv zeta.
  set (d0 := Swap d a pivot).
  pose proof (scan_up_bounds (S (b - 1)) d0 a (a + 1) (b - 1) ltac:(lia))
    as Hu.
  set (i1 := scan_up lt (S (b - 1)) d0 a (a + 1) (b - 1)) in *.
  pose proof (scan_down_bounds d0 a i1 (b - 1) ltac:(lia)) as Hd.
  pose proof (scan_down_stop d0 a i1 (b - 1)) as Hs.
  set (j1 := scan_down lt d0 a i1 (b - 1)) in *.
  destruct (j1 <? i1)%nat eqn:E; cbn [fst snd]; [lia|].
  apply Nat.ltb_ge in E.
  assert (i1 <> j1) as Hne.
  { intros Heq.
    pose proof (scan_up_stop (S (b - 1)) d0 a (a + 1) (b - 1) ltac:(lia))
      as Hus.
    fold i1 in Hus. rewrite Heq in Hus.
    rewrite Hs in Hus by lia. specialize (Hus ltac:(lia)). discriminate. }
  pose proof (partition_loop_bounds (b - a) (Swap d0 i1 j1) a (S i1)
                (j1 - 1)%nat ltac:(lia)) as Hl.
  destruct (partition_loop lt (b - a) (Swap d0 i1 j1) a (S i1) (j1 - 1))
    as [d2 j2]. cbn [fst snd] in *. lia.
Qed.

Lemma scan_up_eq_ge fuel (d : list A) a i j :
  (i <= scan_up_eq lt fuel d a i j)%nat.
Proof.
  revert i. induction fuel as [|fuel IH]; intros i; cbn; [lia|].
  destruct ((i <=? j)%nat && negb (Less lt d a i)); [|lia].
  specialize (IH (S i)). lia.
Qed.

Lemma partitionEqual_loop_ge fuel (d : list A) a i j :
  (i <= snd (partitionEqual_loop lt fuel d a i j))%nat.
Proof.
  revert d i j. induction fuel as [|fuel IH]; intros d i j;
    cbn [partitionEqual_loop snd]; [lia|]. cbv zeta.
  pose proof (scan_up_eq_ge (S j) d a i j) as Hu.
  set (i1 := scan_up_eq lt (S j) d a i j) in *.
  destruct (scan_down_eq lt d a i1 j <? i1)%nat; cbn [snd]; [lia|].
  specialize (IH (Swap d i1 (scan_down_eq lt d a i1 j)) (S i1)
                (scan_down_eq lt d a i1 j - 1)%nat). lia.
Qed.

Lemma pdqsort_fuel fuel : forall (d : list A) a b limit wb wp,
  (b - a < fuel)%nat ->
  is_Some (pdqsort_func lt fuel d a b limit wb wp).
Proof.
  induction fuel as [|fuel IH]; intros d a b limit wb wp Hf; [lia|].
  cbn [pdqsort_func].
  destruct (b - a <=? 12)%nat eqn:E12; [eauto|]. apply Nat.leb_gt in E12.
  destruct (limit =? 0)%nat; [eauto|].
  destruct (if negb wb then _ else _) as [d1 limit1].
  destruct (choosePivot_func lt d1 a b) as [pivot hint].
  destruct (match hint with decreasingHint => _ | _ => _ end)
    as [[d2 pivot2] hint2].
  destruct (match hint2 with increasingHint => _ | _ => _ end)
    as [d3 sorted].
  destruct sorted; [eauto|].
  destruct ((0 <? a)%nat && negb (Less lt d3 (a - 1) pivot2)).
  - pose proof (partitionEqual_loop_ge (S (b - a)) (Swap d3 a pivot2) a
                  (a + 1) (b - 1)) as Hm.
    unfold partitionEqual_func.
    destruct (partitionEqual_loop lt _ _ _ _ _) as [d4 mid].
    cbn [snd] in Hm. apply IH. lia.
  - pose proof (partition_func_bounds d3 a b pivot2 ltac:(lia)) as Hm.
    destruct (partition_func lt d3 a b pivot2) as [[d4 mid] ap].
    cbn [fst snd] in Hm.
    destruct (mid - a <? b - mid)%nat.
    + destruct (IH d4 a mid limit1 true true ltac:(lia)) as [d5 ->].
      apply IH. lia.
    + destruct (IH d4 (mid + 1)%nat b limit1 true true ltac:(lia))
        as [d5 ->].
      apply IH. lia.
Qed.

Lemma sort_Slice_fuel (d : list A) : Slice_fuel lt d = Some (Slice lt d).
Proof.
  unfold Slice.
  destruct (pdqsort_fuel (S (length d)) d 0 (length d)
              (bits_Len (length d)) true true ltac:(lia)) as [d' E].
  unfold Slice_fuel. rewrite E. reflexivity.
Qed.

End Fuel.

(** C10, amended.  [parseEvent] returns an error exactly when no substring
    of the line matches the pattern, or when the timestamp HH:MM:SS.mmm of
    the leftmost match is no time of day: HH is 24 or more, or MM or SS is
    60 or more.  The pattern being unanchored, lines that do not match it as
    a whole are accepted: text in front of the bracket is skipped, and what
    follows the competitor identifier without a space is dropped. *)
Theorem parseEvent_unanchored :
  (forall line,
     is_Err (parseEvent line) = true <->
       (forall mid, substring mid line -> ~ Matches eventRegex mid)
       \/ (exists whole H M S ms kind id payload,
             FindStringSubmatch eventRegex 4 line
             = Some [whole; hmsm H M S ms; kind; id; payload]
             /\ 0 <= H < 100 /\ 0 <= M < 100 /\ 0 <= S < 100
             /\ 0 <= ms < 1000
             /\ (24 <= H \/ 60 <= M \/ 60 <= S)))
  /\ ~ Matches eventRegex "junk[09:30:01.005] 4 1"
  /\ parseEvent "junk[09:30:01.005] 4 1"
     = Ok {| Time := time.clock 9 30 1 5000000; RawTime := "09:30:01.005";
             EventID := 4; CompetitorID := 1; Extra := "" |}
  /\ ~ Matches eventRegex "[09:30:01.005] 4 1abc"
  /\ parseEvent "[09:30:01.005] 4 1abc"
     = Ok {| Time := time.clock 9 30 1 5000000; RawTime := "09:30:01.005";
             EventID := 4; CompetitorID := 1; Extra := "" |}.
Proof.
  split; [|split; [|split; [|split]]].
  - intros line. rewrite parseEvent_error_iff. split.
    + intros [Hn|(w & m1 & m2 & m3 & m4 & Hf & Hp)]; [by left|right].
      destruct (FindStringSubmatch_stamp _ _ _ _ _ _ Hf)
        as (H & M & S & ms & HH & HM & HS & Hms & ->).
      apply stamp_rejected in Hp; try assumption.
      exists w, H, M, S, ms, m2, m3, m4. tauto.
    + intros [Hn|(w & H & M & S & ms & m2 & m3 & m4 & Hf & HH & HM & HS
                  & Hms & Hr)]; [by left|right].
      exists w, (hmsm H M S ms), m2, m3, m4. split; [exact Hf|].
      by apply stamp_rejected.
  - intros Hm%wholeMatch_spec. vm_compute in Hm. discriminate.
  - vm_compute. reflexivity.
  - intros Hm%wholeMatch_spec. vm_compute in Hm. discriminate.
  - vm_compute. reflexivity.
Qed.

(** C10 as stated fails: the line below matches the pattern, and as a
    whole, yet [parseEvent] rejects it, for its hour. *)
Lemma parseEvent_rejects_matching_line :
  substring "[25:30:01.005] 4 1" "[25:30:01.005] 4 1"
  /\ Matches eventRegex "[25:30:01.005] 4 1"
  /\ parseEvent "[25:30:01.005] 4 1"
     = Err (ErrParseTime "15:04:05.000" "25:30:01.005").
Proof.
  split; [by exists "", ""|].
  split; [apply wholeMatch_spec|]; vm_compute; reflexivity.
Qed.

(** ** The theorems at work, and the limits of the claims *)

(** *** C1 *)

Lemma status_precedence_witness :
  ~ didNotFinish cfg0 finisher /\ isNotFinished finisher = false
  /\ Started finisher = true /\ status finisher cfg0 = "10m0s".
Proof.
  assert (~ didNotFinish cfg0 finisher) as N.
  { intros [H|[H|H]]; [discriminate H | discriminate H | apply H].
    reflexivity. }
  split; [exact N|]. split; [reflexivity|]. split; [reflexivity|].
  exact (proj1 (proj2 (proj2 (status_precedence cfg0 finisher)))
           N eq_refl eq_refl).
Defined.

(** *** C2 *)

Lemma unregistered_reference_witness :
  processEvents cfg0 base0 delta0 initial [] = Running initial
  /\ EventID (ev startLine 1 9 0 0 "") <> register
  /\ ~ Exists (registers 1) []
  /\ exists text,
       processEvent cfg0 base0 delta0 initial (ev startLine 1 9 0 0 "")
       = Running {| competitors := ∅; startOrder := [];
                    out := [Text text] |}.
Proof.
  assert (EventID (ev startLine 1 9 0 0 "") <> register) as Hk
    by discriminate.
  assert (~ Exists (registers 1) []) as Hno
    by (intros H; inversion H).
  split; [reflexivity|]. split; [exact Hk|]. split; [exact Hno|].
  apply (proj2 (unregistered_reference cfg0 base0 delta0 [] initial
                  (ev startLine 1 9 0 0 "") eq_refl Hk Hno)).
  unfold usesRecord.
  intros [H|[H|[H|[H|[H|[H|[H|H]]]]]]]; discriminate H.
Defined.

(** C2 as stated fails.  A hit for a competitor nobody registered kills
    the program, which has reported nothing; and a competitor nobody
    registered may stand on the start line: the event is narrated like any
    other, and the run ends well. *)
Lemma unregistered_reference_counterexample :
  main (Ok cfg0) (eventsFile ["[09:00:00.000] 6 1"]) = Crashed []
  /\ main (Ok cfg0) (eventsFile ["[09:00:00.000] 3 1"])
     = Completed
         {| competitors := ∅; startOrder := [];
            out := [Text ("[09:00:00.000] The competitor is on the start line"
                          +:+ nl)] |}.
Proof. split; vm_compute; reflexivity. Qed.

(** *** C3 *)

Lemma endedMainLap_effect_witness :
  let e := ev endedTheMainLap 1 10 30 0 "" in
  EventID e = endedTheMainLap
  /\ competitors running1 !! CompetitorID e = Some runner
  /\ lapTimes runner = [] /\ LapsCompleted runner + 1 = Laps cfg0
  /\ exists st' c',
       processEvent cfg0 base0 delta0 running1 e = Running st'
       /\ competitors st' = <[1 := c']> (competitors running1)
       /\ LapsCompleted c' = 2
       /\ lapTimes c' = [30 * time.Minute]
       /\ FinishTime c' = time.clock 10 30 0 0.
Proof.
  intros e.
  split; [reflexivity|]. split; [reflexivity|].
  split; [reflexivity|]. split; [reflexivity|].
  destruct (endedMainLap_effect cfg0 base0 delta0 running1 e runner
              eq_refl eq_refl)
    as (st' & c' & Hs & Hm & Hl & _ & _ & Ht & Hf & _).
  exists st', c'. split; [exact Hs|]. split; [exact Hm|].
  split; [exact Hl|]. split; [|exact Hf].
  rewrite Ht; [reflexivity | reflexivity | exact Hl |].
  unfold in_int64. split; vm_compute; discriminate.
Defined.

(** *** C4 *)



(** *** C5 *)



(** *** C6 *)

Lemma leftPenaltyLaps_appends_witness :
  let pre := [ev register 1 9 0 0 ""] in
  let e := ev leftThePenaltyLaps 1 9 5 0 "" in
  let st := reached (processEvents cfg0 base0 delta0 initial pre) in
  processEvents cfg0 base0 delta0 initial pre = Running st
  /\ EventID e = leftThePenaltyLaps
  /\ competitors st !! CompetitorID e = Some (newCompetitor 1)
  /\ exists st' c',
       processEvent cfg0 base0 delta0 st e = Running st'
       /\ competitors st' !! 1 = Some c'
       /\ PenaltyTimes c' = [time.clock 9 5 0 0 - time.zero].
Proof.
  intros pre e st.
  assert (processEvents cfg0 base0 delta0 initial pre = Running st) as Hpre
    by (vm_compute; reflexivity).
  assert (competitors st !! CompetitorID e = Some (newCompetitor 1)) as Hc
    by (vm_compute; reflexivity).
  split; [exact Hpre|]. split; [reflexivity|]. split; [exact Hc|].
  destruct (leftPenaltyLaps_appends cfg0 base0 delta0 pre st e
              (newCompetitor 1) Hpre eq_refl Hc)
    as (st' & c' & text & Hs & Hl & _ & Hp & _).
  exists st', c'. split; [exact Hs|]. split; [exact Hl|].
  rewrite Hp. vm_compute. reflexivity.
Defined.

(** C6 as stated fails.  Competitor 1 leaves penalty laps it never entered:
    no error is reported, the run ends well, and the penalty time on record
    is the distance of five past nine from the zero Time, some 366 days
    below zero. *)
Lemma missing_penalty_start_counterexample :
  exists st c,
    main (Ok cfg0) (eventsFile ["[09:00:00.000] 1 1"; "[09:05:00.000] 9 1"])
    = Completed st
    /\ competitors st !! 1 = Some c
    /\ PenaltyTimes c = [time.clock 9 5 0 0 - time.zero]
    /\ time.clock 9 5 0 0 - time.zero = -31589700000000000
    /\ out st
       = [Text ("[09:00:00.000] The competitor(1) registered" +:+ nl);
          Text ("[09:05:00.000] The competitor(1) left the penalty laps"
                +:+ nl)].
Proof.
  eexists _, _. split; [vm_compute; reflexivity|].
  split; [vm_compute; reflexivity|]. repeat split.
Qed.

(** *** C7 *)

Lemma disqualified_permanent_witness :
  let events := [ev hit 1 9 5 0 "1"; ev endedTheMainLap 1 9 6 0 "";
                 ev register 2 9 7 0 ""] in
  let again := ev register 1 9 8 0 "" in
  let st' := reached (processEvents cfg0 base0 delta0 disqualified1 events) in
  competitors disqualified1 !! 1
    = Some (set_isDisqualified (newCompetitor 1) true)
  /\ isDisqualified (set_isDisqualified (newCompetitor 1) true) = true
  /\ Forall (fun e => ~ registers 1 e) events
  /\ processEvents cfg0 base0 delta0 disqualified1 events = Running st'
  /\ registers 1 again
  /\ (exists c', competitors st' !! 1 = Some c' /\ isDisqualified c' = true)
  /\ (exists st1,
        processEvent cfg0 base0 delta0 st' again = Running st1
        /\ competitors st1 !! 1 = Some (newCompetitor 1)
        /\ isDisqualified (newCompetitor 1) = false).
Proof.
  intros events again st'.
  assert (Forall (fun e => ~ registers 1 e) events) as Hall.
  { repeat constructor; intros [H1 H2]; discriminate. }
  assert (processEvents cfg0 base0 delta0 disqualified1 events = Running st')
    as Hrun by (vm_compute; reflexivity).
  assert (registers 1 again) as Hreg by (split; reflexivity).
  split; [reflexivity|]. split; [reflexivity|]. split; [exact Hall|].
  split; [exact Hrun|]. split; [exact Hreg|].
  destruct (disqualified_permanent cfg0 base0 delta0 events disqualified1 st'
              1 (set_isDisqualified (newCompetitor 1) true)
              eq_refl eq_refl Hall Hrun) as [H1 H2].
  split; [exact H1 | exact (H2 again Hreg)].
Defined.

(** C7 as stated fails.  Competitor 1 withdraws and is disqualified; the
    identifier is registered again, and the registry holds a fresh record
    that is not. *)
Lemma reregistration_clears_disqualified :
  exists st2 c2 st3 c3,
    main (Ok cfg0)
      (eventsFile ["[09:00:00.000] 1 1"; "[09:01:00.000] 11 1 Lost"])
    = Completed st2
    /\ competitors st2 !! 1 = Some c2 /\ isDisqualified c2 = true
    /\ main (Ok cfg0)
         (eventsFile ["[09:00:00.000] 1 1"; "[09:01:00.000] 11 1 Lost";
                      "[09:02:00.000] 1 1"]) = Completed st3
    /\ competitors st3 !! 1 = Some c3 /\ isDisqualified c3 = false.
Proof.
  eexists _, _, _, _.
  split; [vm_compute; reflexivity|]. split; [vm_compute; reflexivity|].
  split; [reflexivity|].
  split; [vm_compute; reflexivity|]. split; [vm_compute; reflexivity|].
  reflexivity.
Qed.

(** *** C8 *)

Lemma sorted_stable_upto_12_witness :
  let events := [ev register 2 10 0 0 ""; ev register 1 10 0 0 "";
                 ev register 3 9 0 0 ""] in
  (length events <= 12)%nat
  /\ map CompetitorID (sort.Slice before events) = [3; 2; 1]
  /\ filter (fun e => Time e = time.clock 10 0 0 0)
       (sort.Slice before events)
     = filter (fun e => Time e = time.clock 10 0 0 0) events.
Proof.
  intros events.
  assert (length events <= 12)%nat as Hlen by (cbn; lia).
  split; [exact Hlen|]. split; [vm_compute; reflexivity|].
  exact (proj2 (proj2 (sorted_stable_upto_12 events Hlen))
           (time.clock 10 0 0 0)).
Defined.

(** C8 as stated fails.  Of thirteen registrations, the first twelve bear
    the same timestamp and the last an earlier one.  [sort.Slice] moves the
    last to the front, as it must, and on the way puts competitor 7 before
    competitor 1, and competitor 2 behind all the others: the narration
    names them in that order. *)
Lemma sort_unstable_13 :
  exists events st,
    loadEvents (eventsFile thirteen) = (events, None)
    /\ map CompetitorID events = [1; 2; 3; 4; 5; 6; 7; 8; 9; 10; 11; 12; 13]
    /\ Forall (fun e => Time e = time.clock 10 0 0 0) (take 12 events)
    /\ map CompetitorID (sort.Slice before events)
       = [13; 7; 3; 4; 5; 6; 1; 8; 9; 10; 11; 12; 2]
    /\ filter (fun e => Time e = time.clock 10 0 0 0)
         (sort.Slice before events)
       <> filter (fun e => Time e = time.clock 10 0 0 0) events
    /\ main (Ok cfg0) (eventsFile thirteen) = Completed st
    /\ out st
       = map (fun e =>
                Text ("[" +:+ RawTime e +:+ "] The competitor("
                      +:+ itoa (CompetitorID e) +:+ ") registered" +:+ nl))
           (sort.Slice before events).
Proof.
  eexists _, _. split; [vm_compute; reflexivity|].
  split; [vm_compute; reflexivity|].
  split; [repeat constructor|].
  split; [vm_compute; reflexivity|].
  split; [|split; vm_compute; reflexivity].
  intros H. apply (f_equal (map CompetitorID)) in H.
  vm_compute in H. discriminate H.
Qed.

(** *** C9 *)

Lemma parseDelta_spec_witness :
  0 <= 1 < 100 /\ 0 <= 30 < 100 /\ 0 <= 0 < 100
  /\ readAs "hours" 0 /\ readAs "30" 30 /\ readAs "" 0
  /\ parseDelta "01:30:00" = Ok (time.Hour + 30 * time.Minute)
  /\ parseDelta "hours:30:" = Ok (30 * time.Minute).
Proof.
  assert (readAs "hours" 0) as R0 by (right; repeat split).
  assert (readAs "30" 30) as R1 by (left; split; [lia | reflexivity]).
  assert (readAs "" 0) as R2 by (right; repeat split).
  split; [lia|]. split; [lia|]. split; [lia|].
  split; [exact R0|]. split; [exact R1|]. split; [exact R2|].
  split.
  - exact (proj1 (proj2 parseDelta_spec) 1 30 0
             ltac:(lia) ltac:(lia) ltac:(lia)).
  - exact (proj2 (proj2 parseDelta_spec) "hours" "30" "" 0 30 0 R0 R1 R2).
Defined.

(** C9 as stated fails, twice.  Fields that are no numbers are read as
    zero, without an error; and the milliseconds, cut off a floating-point
    product, can come out one short: of 00:00:01.001 the millisecond is
    lost. *)
Lemma parseDelta_counterexample :
  parseDelta "aa:bb:cc" = Ok 0
  /\ parseDelta "00:00:01.001" = Ok time.Second
  /\ time.Second <> 0 * time.Hour + 0 * time.Minute + 1 * time.Second
                    + 1 * time.Millisecond.
Proof.
  split; [vm_compute; reflexivity|]. split; [vm_compute; reflexivity|].
  discriminate.
Qed.

(** ** Numerals *)

Lemma digit_ascii v :
  0 <= v < 10 ->
  isDigitB (ascii_of_N (Z.to_N (48 + v))) = true
  /\ digit_val (ascii_of_N (Z.to_N (48 + v))) = v.
Proof.
  intros H.
  assert (v = 0 \/ v = 1 \/ v = 2 \/ v = 3 \/ v = 4 \/ v = 5 \/ v = 6
          \/ v = 7 \/ v = 8 \/ v = 9) as Hv by lia.
  repeat destruct Hv as [->|Hv]; try subst v; by vm_compute.
Qed.

Lemma digit_not_sign c :
  isDigitB c = true ->
  bool_decide (c = "-"%char) = false /\ bool_decide (c = "+"%char) = false.
Proof.
  intros H. split; apply bool_decide_eq_false_2; intros ->; discriminate H.
Qed.

Lemma atoi_fast_app n s1 s2 :
  strconv.atoi_fast n (s1 +:+ s2)
  = match strconv.atoi_fast n s1 with
    | Some v => strconv.atoi_fast v s2
    | None => None
    end.
Proof.
  revert n. induction s1 as [|c s1 IH]; intros n; [done|].
  rewrite app_str_cons. cbn. destruct (isDigitB c); [apply IH | done].
Qed.

Lemma all_digits_app s1 s2 :
  all_digits (s1 +:+ s2) = all_digits s1 && all_digits s2.
Proof.
  induction s1 as [|c s1 IH]; [done|]. rewrite app_str_cons. cbn.
  by rewrite IH, andb_assoc.
Qed.

(** The digits of a number, and what [Atoi]'s loop makes of them. *)
Lemma utoa_fuel_spec fuel : forall z acc,
  (1 <= fuel)%nat -> 0 <= z < 10 ^ Z.of_nat fuel ->
  exists ds,
    utoa_fuel fuel z acc = ds +:+ acc
    /\ all_digits ds = true /\ ds <> ""
    /\ (forall n, strconv.atoi_fast n ds
                  = Some (n * 10 ^ Z.of_nat (String.length ds) + z))
    /\ (String.length ds = 1%nat
        \/ 10 ^ (Z.of_nat (String.length ds) - 1) <= z).
Proof.
  induction fuel as [|fuel IH]; intros z acc Hf Hz; [lia|].
  cbn [utoa_fuel].
  assert (0 <= z mod 10 < 10) as Hd by (apply Z.mod_pos_bound; lia).
  destruct (digit_ascii _ Hd) as [Hd1 Hd2].
  destruct (z <? 10) eqn:E.
  - apply Z.ltb_lt in E.
    exists (String (ascii_of_N (Z.to_N (48 + z mod 10))) "").
    split; [done|]. split; [cbn; by rewrite Hd1|]. split; [done|].
    split; [|by left]. intros n. cbn. rewrite Hd1, Hd2.
    rewrite Z.mod_small by lia. f_equal; lia.
  - apply Z.ltb_ge in E.
    assert (1 <= fuel)%nat as Hf'.
    { destruct fuel; [|lia]. cbn in Hz. lia. }
    assert (0 <= z / 10 < 10 ^ Z.of_nat fuel) as Hz'.
    { rewrite Nat2Z.inj_succ, Z.pow_succ_r in Hz by lia.
      split; [apply Z.div_pos; lia|].
      apply Z.div_lt_upper_bound; lia. }
    destruct (IH (z / 10)
                (String (ascii_of_N (Z.to_N (48 + z mod 10))) acc) Hf' Hz')
      as (ds & -> & Ha & Hne & Hv & Hl).
    exists (ds +:+ String (ascii_of_N (Z.to_N (48 + z mod 10))) "").
    split; [by rewrite app_str_assoc|].
    split; [rewrite all_digits_app, Ha; cbn; by rewrite Hd1|].
    split; [by destruct ds|].
    rewrite length_app_str. cbn [String.length].
    replace (Z.of_nat (String.length ds + 1))
      with (Z.succ (Z.of_nat (String.length ds))) by lia.
    split.
    + intros n. rewrite atoi_fast_app, Hv. cbn. rewrite Hd1, Hd2.
      f_equal. rewrite Z.pow_succ_r by lia.
      pose proof (Z.div_mod z 10 ltac:(lia)). lia.
    + right. replace (Z.succ (Z.of_nat (String.length ds)) - 1)
        with (Z.of_nat (String.length ds)) by lia.
      destruct Hl as [Hl|Hl].
      * rewrite Hl. cbn. lia.
      * replace (Z.of_nat (String.length ds))
          with (Z.succ (Z.of_nat (String.length ds) - 1)) by lia.
        rewrite Z.pow_succ_r.
        -- pose proof (Z.div_mod z 10 ltac:(lia)). lia.
        -- destruct ds; [done|]. cbn [String.length]. lia.
Qed.

Lemma atoi_fast_ge s : forall n v,
  0 <= n -> strconv.atoi_fast n s = Some v -> n <= v.
Proof.
  induction s as [|c s IH]; intros n v Hn; cbn.
  - intros [= <-]. lia.
  - destruct (isDigitB c) eqn:Ec; [|discriminate].
    pose proof (digit_val_range c Ec). intros Hv%IH; lia.
Qed.

Lemma parseUint_loop_exact s : forall n v,
  0 <= n -> strconv.atoi_fast n s = Some v -> v <= 2 ^ 64 - 1 ->
  strconv.parseUint_loop n s = (v, None).
Proof.
  induction s as [|c s IH]; intros n v Hn; cbn.
  - by intros [= <-].
  - destruct (isDigitB c) eqn:Ec; [|discriminate].
    pose proof (digit_val_range c Ec) as Hc. intros Hv Hle.
    pose proof (atoi_fast_ge s (n * 10 + digit_val c) v ltac:(lia) Hv)
      as Hge.
    rewrite (proj2 (Z.leb_gt _ _)).
    2:{ change ((2 ^ 64 - 1) / 10 + 1) with 1844674407370955162.
        change (2 ^ 64 - 1) with 18446744073709551615 in Hle. lia. }
    rewrite (proj2 (Z.ltb_ge _ _)) by lia.
    apply IH; [lia | done | done].
Qed.

Lemma Atoi_value c r v :
  isDigitB c = true ->
  strconv.atoi_fast 0 (String c r) = Some v -> 0 <= v < 2 ^ 63 ->
  strconv.Atoi (String c r) = (v, None).
Proof.
  intros Hc Hv Hr. destruct (digit_not_sign c Hc) as [Hm Hp].
  unfold strconv.Atoi. cbv beta iota zeta. rewrite Hm, Hp. cbn [orb].
  cbv beta iota zeta.
  destruct ((0 <? String.length (String c r))%nat
            && (String.length (String c r) <? 19)%nat).
  - by rewrite Hv.
  - unfold strconv.ParseInt. cbv beta iota zeta. rewrite Hm, Hp.
    cbv beta iota zeta. unfold strconv.ParseUint. cbv beta iota zeta.
    rewrite (parseUint_loop_exact _ 0 v ltac:(lia) Hv)
      by (change (2 ^ 64 - 1) with 18446744073709551615;
          change (2 ^ 63) with 9223372036854775808 in Hr; lia).
    cbn [negb andb]. by rewrite (proj2 (Z.leb_gt _ _)) by lia.
Qed.

(** [Atoi] reads back what [%d] has written. *)
Lemma Atoi_utoa n :
  0 <= n <= max_int64 ->
  strconv.Atoi (utoa n) = (n, None)
  /\ all_digits (utoa n) = true /\ utoa n <> "".
Proof.
  intros Hn. unfold max_int64 in Hn.
  destruct (utoa_fuel_spec 20 n "" ltac:(lia) ltac:(cbn; lia))
    as (ds & Hu & Ha & Hne & Hv & Hl).
  rewrite app_str_nil_r in Hu. unfold utoa. rewrite Hu.
  split; [|done].
  destruct ds as [|c r]; [done|].
  assert (isDigitB c = true) as Hc.
  { cbn in Ha. by apply andb_true_iff in Ha as [? _]. }
  pose proof (Hv 0) as Hv0. rewrite Z.mul_0_l, Z.add_0_l in Hv0.
  apply Atoi_value; [done | done | clear - Hn; lia].
Qed.

Lemma parseUint_loop_range s : forall n,
  all_digits s = true -> 0 <= n <= 2 ^ 64 - 1 ->
  0 <= fst (strconv.parseUint_loop n s) <= 2 ^ 64 - 1
  /\ snd (strconv.parseUint_loop n s) <> Some strconv.ErrSyntax.
Proof.
  induction s as [|c s IH]; intros n Ha Hn; cbn; [done|].
  cbn in Ha. apply andb_true_iff in Ha as [Hc Ha]. rewrite Hc.
  pose proof (digit_val_range c Hc).
  destruct (_ <=? n); [cbn; split; [lia | done]|].
  destruct (_ <? n * 10 + digit_val c) eqn:E; [cbn; split; [lia | done]|].
  apply Z.ltb_ge in E. apply IH; [done | lia].
Qed.

(** A string of digits read by [Atoi] is a number from 0 to the largest
    [int], which is what too large a number is cut down to. *)
Lemma Atoi_digits s :
  all_digits s = true -> s <> "" ->
  0 <= fst (strconv.Atoi s) <= max_int64.
Proof.
  intros Ha Hne. destruct s as [|c r]; [done|].
  assert (isDigitB c = true) as Hc.
  { cbn in Ha. by apply andb_true_iff in Ha as [? _]. }
  destruct (digit_not_sign c Hc) as [Hm Hp].
  unfold strconv.Atoi. cbv beta iota zeta. rewrite Hm, Hp. cbn [orb].
  cbv beta iota zeta.
  destruct ((0 <? String.length (String c r))%nat
            && (String.length (String c r) <? 19)%nat) eqn:Efast.
  - apply andb_true_iff in Efast as [_ Hl%Nat.ltb_lt].
    assert (forall s n, all_digits s = true -> 0 <= n ->
              exists v, strconv.atoi_fast n s = Some v
                        /\ 0 <= v < (n + 1) * 10 ^ Z.of_nat (String.length s))
      as Hfast.
    { clear. induction s as [|c s IH]; intros n Ha Hn; cbn.
      - exists n. split; [done|]. lia.
      - cbn in Ha. apply andb_true_iff in Ha as [Hc Ha]. rewrite Hc.
        pose proof (digit_val_range c Hc).
        destruct (IH (n * 10 + digit_val c) Ha ltac:(lia)) as (v & -> & Hv).
        exists v. split; [done|]. cbn [String.length].
        rewrite Nat2Z.inj_succ, Z.pow_succ_r by lia. nia. }
    destruct (Hfast (String c r) 0 Ha ltac:(lia)) as (v & -> & Hv).
    cbn [fst].
    assert (10 ^ Z.of_nat (String.length (String c r)) <= 10 ^ 18)
      by (apply Z.pow_le_mono_r; lia).
    unfold max_int64. change (10 ^ 18) with 1000000000000000000 in *. lia.
  - unfold strconv.ParseInt. cbv beta iota zeta. rewrite Hm, Hp.
    cbv beta iota zeta. unfold strconv.ParseUint. cbv beta iota zeta.
    destruct (parseUint_loop_range (String c r) 0 Ha ltac:(lia)) as [Hr Hs].
    destruct (strconv.parseUint_loop 0 (String c r)) as [un [[]|]];
      cbn in Hr, Hs; try done; cbn [negb andb]; unfold max_int64;
      destruct (2 ^ 63 <=? un) eqn:E; cbn [fst];
      try apply Z.leb_gt in E; lia.
Qed.

(** ** The pattern at work *)

Section Matching.
Context {R : Type}.

Lemma run_lit_some c s cs (k : string -> caps -> option R) x :
  k s cs = Some x -> run (lit c) (String c s) cs k = Some x.
Proof. intros H. cbn. by rewrite bool_decide_eq_true_2. Qed.

(** The greedy star takes every byte of the class when what follows
    does not begin with one and the rest of the pattern goes through. *)
Lemma star_greedy cl s1 s2 (k : string -> option R) x :
  Matches (Star cl) s1 ->
  match s2 with
  | String b _ => cls_match cl b = false
  | EmptyString => True
  end ->
  k s2 = Some x -> star cl (s1 +:+ s2) k = Some x.
Proof.
  intros Hm Hs Hk. remember (Star cl) as r eqn:Er.
  induction Hm; try discriminate; injection Er as ->.
  - rewrite app_str_nil_l. destruct s2 as [|b s2]; cbn; [done|].
    by rewrite Hs.
  - rewrite app_str_cons. cbn. rewrite H. by rewrite IHHm.
Qed.

Lemma star_greedy_end cl s (k : string -> option R) x :
  Matches (Star cl) s -> k "" = Some x -> star cl s k = Some x.
Proof.
  intros Hm Hk. rewrite <- (app_str_nil_r s). by apply star_greedy.
Qed.

Lemma digits_star s : all_digits s = true -> Matches (Star Digit) s.
Proof.
  induction s as [|c s IH]; cbn; [constructor|].
  intros [Hc Hs]%andb_true_iff. constructor; [done | auto].
Qed.

Lemma run_digits1_some ds rest cs (k : string -> caps -> option R) x :
  all_digits ds = true -> ds <> "" ->
  match rest with
  | String b _ => isDigitB b = false
  | EmptyString => True
  end ->
  k rest cs = Some x -> run digits1 (ds +:+ rest) cs k = Some x.
Proof.
  intros Ha Hne Hr Hk. destruct ds as [|c ds]; [done|].
  cbn in Ha. apply andb_true_iff in Ha as [Hc Ha].
  rewrite app_str_cons. unfold digits1. cbn [run cls_match]. rewrite Hc.
  apply star_greedy; [by apply digits_star | done | done].
Qed.

Lemma run_stamp_some H M S ms rest cs (k : string -> caps -> option R) x :
  0 <= H < 100 -> 0 <= M < 100 -> 0 <= S < 100 -> 0 <= ms < 1000 ->
  k rest cs = Some x ->
  run stampRegex (hmsm H M S ms +:+ rest) cs k = Some x.
Proof.
  intros HH HM HS Hms Hk. unfold hmsm, hms.
  destruct (three_shape ms Hms) as (a & b & c & E & Ha & Hb & Hc & _).
  rewrite E. clock_fields H M S.
  repeat (rewrite ?app_str_assoc, ?app_str_cons, ?app_str_nil_l).
  unfold stampRegex, digit3, digit2, lit. cbn [run cls_match].
  repeat match goal with
         | Hd : isDigitB ?d = true |- context [isDigitB ?d] => rewrite Hd
         end.
  by rewrite !bool_decide_eq_true_2.
Qed.
End Matching.

Lemma take_str_all s : take_str (String.length s - 0) s = s.
Proof.
  rewrite Nat.sub_0_r. induction s as [|c s IH]; [done|]. cbn. by rewrite IH.
Qed.

Lemma dot_star s : free_of newline s = true -> Matches (Star Dot) s.
Proof.
  induction s as [|c s IH]; cbn; [constructor|].
  intros [Hc Hs]%andb_true_iff. constructor; [|auto].
  apply negb_true_iff, bool_decide_eq_false in Hc.
  cbn. apply negb_true_iff, Z.eqb_neq. intros Hv. apply Hc.
  unfold byte_val in Hv. unfold newline.
  rewrite <- (ascii_N_embedding c).
  apply (f_equal ascii_of_N (y := 10%N)). by apply N2Z.inj.
Qed.

Lemma star_dot s : Matches (Star Dot) s -> free_of newline s = true.
Proof.
  intros Hm. remember (Star Dot) as r eqn:Er.
  induction Hm; try discriminate; injection Er as ->; [done|].
  cbn [free_of]. rewrite IHHm by done. rewrite andb_true_r.
  apply negb_true_iff, bool_decide_eq_false. intros ->.
  discriminate H.
Qed.

Lemma FindStringSubmatch_here re n s ms :
  run re s []
    (fun rest c =>
       Some (take_str (String.length s - String.length rest) s
               :: map (fun i => cap i c) (seq 1 n))) = Some ms ->
  FindStringSubmatch re n s = Some ms.
Proof. intros H. destruct s; cbn [FindStringSubmatch]; by rewrite H. Qed.

(** What the pattern finds in a line of the documented grammar. *)
Lemma FindStringSubmatch_eventLine H M S ms kind id rest :
  0 <= H < 100 -> 0 <= M < 100 -> 0 <= S < 100 -> 0 <= ms < 1000 ->
  0 <= kind <= max_int64 -> 0 <= id <= max_int64 ->
  (rest = "" \/ exists extra,
      rest = " " +:+ extra /\ free_of newline extra = true) ->
  FindStringSubmatch eventRegex 4 (eventLine H M S ms kind id rest)
  = Some [eventLine H M S ms kind id rest; hmsm H M S ms; utoa kind;
          utoa id; drop_str 1 rest].
Proof.
  intros HH HM HS Hms Hk Hi Hrest. apply FindStringSubmatch_here.
  destruct (Atoi_utoa kind Hk) as (_ & Hka & Hkn).
  destruct (Atoi_utoa id Hi) as (_ & Hia & Hin).
  unfold eventLine, itoa.
  rewrite (proj2 (Z.ltb_ge kind 0)), (proj2 (Z.ltb_ge id 0)) by lia.
  unfold eventRegex, tailRegex.
  rewrite !app_str_cons, !app_str_nil_l.
  cbn [run]. apply run_lit_some.
  apply run_stamp_some; try done.
  rewrite take_str_app.
  apply run_lit_some. apply run_lit_some.
  apply run_digits1_some; [done | done | done |].
  rewrite take_str_app.
  apply run_lit_some.
  apply run_digits1_some; [done | done | |].
  { destruct Hrest as [->|(extra & -> & _)]; done. }
  rewrite take_str_app.
  destruct Hrest as [->|(extra & -> & Hfree)].
  - cbn [run]. change (String.length "") with 0%nat.
    rewrite take_str_all. reflexivity.
  - rewrite app_str_cons, app_str_nil_l.
    erewrite run_lit_some; [reflexivity|].
    apply star_greedy_end; [by apply dot_star|].
    change (String.length "") with 0%nat.
    rewrite !take_str_all. reflexivity.
Qed.

(** X1.  A line written as the documented grammar has it is read back field by
    field: the timestamp as a time of day and as its text, the kind and
    the competitor as the numbers written, and what follows the competitor
    and a space as the payload, which is empty when nothing follows. *)
Theorem parseEvent_eventLine H M S ms kind id extra :
  0 <= H < 24 -> 0 <= M < 60 -> 0 <= S < 60 -> 0 <= ms < 1000 ->
  0 <= kind <= max_int64 -> 0 <= id <= max_int64 ->
  free_of newline extra = true ->
  parseEvent (eventLine H M S ms kind id "")
  = Ok {| Time := time.clock H M S (ms * time.Millisecond);
          RawTime := hmsm H M S ms; EventID := kind; CompetitorID := id;
          Extra := "" |}
  /\ parseEvent (eventLine H M S ms kind id (" " +:+ extra))
     = Ok {| Time := time.clock H M S (ms * time.Millisecond);
             RawTime := hmsm H M S ms; EventID := kind; CompetitorID := id;
             Extra := extra |}.
Proof.
  intros HH HM HS Hms Hk Hi Hfree.
  assert (validClock H M S = true) as Hv.
  { unfold validClock. rewrite !andb_true_iff, !Z.ltb_lt. lia. }
  destruct (Atoi_utoa kind Hk) as (Hka & _).
  destruct (Atoi_utoa id Hi) as (Hia & _).
  split; unfold parseEvent.
  - rewrite (FindStringSubmatch_eventLine H M S ms kind id "")
      by (first [lia | by left]).
    rewrite Parse_milli, Hv by lia. by rewrite Hka, Hia.
  - rewrite (FindStringSubmatch_eventLine H M S ms kind id (" " +:+ extra))
      by (first [lia | right; eauto]).
    rewrite Parse_milli, Hv by lia. by rewrite Hka, Hia.
Qed.

(** The match is a part of the line, and no part of the line that begins
    further to the left matches. *)
Lemma FindStringSubmatch_leftmost re n s ms :
  FindStringSubmatch re n s = Some ms ->
  exists pre whole post c',
    s = pre +:+ whole +:+ post
    /\ Captures re whole [] c'
    /\ ms = whole :: map (fun i => cap i c') (seq 1 n)
    /\ forall pre' mid post',
         s = pre' +:+ mid +:+ post' ->
         (String.length pre' < String.length pre)%nat ->
         ~ Matches re mid.
Proof.
  revert ms. induction s as [|b s IH]; intros ms; cbn [FindStringSubmatch].
  - destruct (run re "" [] _) as [ms'|] eqn:E; [|discriminate].
    intros [= ->].
    apply run_captures in E as (s1 & s2 & c' & Hs & Hc & [= <-]).
    destruct s1; [|discriminate Hs]. destruct s2; [|discriminate Hs].
    exists "", "", "", c'. repeat split; [done|].
    intros pre' mid post' _ Hl. cbn in Hl. lia.
  - destruct (run re (String b s) [] _) as [ms'|] eqn:E.
    + intros [= ->].
      apply run_captures in E as (s1 & s2 & c' & Hs & Hc & [= <-]).
      exists "", s1, s2, c'. rewrite app_str_nil_l.
      change (S (String.length s)) with (String.length (String b s)).
      rewrite Hs, take_str_app. repeat split; [done|].
      intros pre' mid post' _ Hl. cbn in Hl. lia.
    + intros Hf. destruct (IH _ Hf) as (pre & whole & post & c' & -> & Hc
                                        & -> & Hleft).
      exists (String b pre), whole, post, c'. rewrite app_str_cons.
      repeat split; [done|].
      intros pre' mid post' Hs Hl Hm. destruct pre' as [|b' pre'].
      * rewrite app_str_nil_l in Hs.
        assert (is_Some (run re (mid +:+ post') []
          (fun rest c =>
             Some (take_str
                     (String.length (String b (pre +:+ whole +:+ post))
                      - String.length rest)
                     (String b (pre +:+ whole +:+ post))
                   :: map (fun i => cap i c) (seq 1 n))))) as Hsome.
        { apply run_complete; eauto. }
        rewrite <- Hs in Hsome. rewrite E in Hsome.
        by destruct (is_Some_None Hsome).
      * rewrite app_str_cons in Hs. injection Hs as -> Hs.
        apply (Hleft pre' mid post' Hs); [|done]. cbn in Hl. lia.
Qed.

Lemma Captures_nogroups r s c c' :
  groups r = [] -> Captures r s c c' -> c' = c.
Proof.
  intros Hg Hc. induction Hc; cbn [groups] in Hg; try done.
  - apply app_eq_nil in Hg as [Hg1 Hg2]. rewrite IHHc2, IHHc1; auto.
  - auto.
Qed.

(** The text of the groups of a match of the pattern. *)
Lemma eventRegex_groups whole c' :
  Captures eventRegex whole [] c' ->
  exists stamp kind id rest,
    whole = "[" +:+ stamp +:+ "] " +:+ kind +:+ " " +:+ id +:+ rest
    /\ Matches stampRegex stamp /\ Matches digits1 kind
    /\ Matches digits1 id /\ Matches (Star Dot) (cap 4 c')
    /\ cap 1 c' = stamp /\ cap 2 c' = kind /\ cap 3 c' = id.
Proof.
  unfold eventRegex, tailRegex, lit. intros H.
  repeat match goal with
         | H : Captures (Cat _ _) _ _ _ |- _ => inversion H; subst; clear H
         | H : Captures (Chr _) _ _ _ |- _ => inversion H; subst; clear H
         | H : Captures (Group _ _) _ _ _ |- _ => inversion H; subst; clear H
         | H : Captures (Quest _) _ _ _ |- _ => inversion H; subst; clear H
         | H : Captures (Star _) _ _ _ |- _ => inversion H; subst; clear H
         | H : cls_match (Byte _) _ = true |- _ =>
             apply bool_decide_eq_true in H; subst
         | H : Captures stampRegex _ _ _ |- _ =>
             pose proof (Captures_nogroups stampRegex _ _ _ eq_refl H);
             subst; apply Captures_Matches in H
         | H : Captures digits1 _ _ _ |- _ =>
             pose proof (Captures_nogroups digits1 _ _ _ eq_refl H);
             subst; apply Captures_Matches in H
         end.
  all: repeat (rewrite ?app_str_assoc, ?app_str_cons, ?app_str_nil_l).
  all: eexists _, _, _, _; (split; [reflexivity|]); cbn [cap Nat.eqb];
    repeat split; try done; constructor.
Qed.

Lemma digits1_digits s : Matches digits1 s -> all_digits s = true /\ s <> "".
Proof.
  unfold digits1. intros H. inversion H as [|? ? s1 s2 H1 H2| | | | |]; subst.
  inversion H1; subst. rewrite app_str_cons, app_str_nil_l.
  split; [|done]. cbn. apply andb_true_iff. split; [done|].
  clear H H1. remember (Star Digit) as r eqn:Er.
  induction H2; try discriminate; injection Er as ->; [done|].
  cbn. apply andb_true_iff. auto.
Qed.

(** X2.  What [parseEvent] returns, when it returns an event: the timestamp is
    a text HH:MM:SS.mmm taken from the line, and the time is this time of
    day, on January 1 of year 0; the kind and the competitor are numbers
    from 0 to the largest [int], never negative; and the payload holds no
    newline. *)
Theorem parseEvent_fields line e :
  parseEvent line = Ok e ->
  (exists H M S ms,
      0 <= H < 24 /\ 0 <= M < 60 /\ 0 <= S < 60 /\ 0 <= ms < 1000
      /\ RawTime e = hmsm H M S ms
      /\ Time e = time.clock H M S (ms * time.Millisecond))
  /\ timeOfDay (Time e)
  /\ substring (RawTime e) line
  /\ 0 <= EventID e <= max_int64
  /\ 0 <= CompetitorID e <= max_int64
  /\ free_of newline (Extra e) = true.
Proof.
  unfold parseEvent.
  destruct (FindStringSubmatch eventRegex 4 line) as [ms|] eqn:E;
    [|discriminate].
  destruct (FindStringSubmatch_leftmost _ _ _ _ E)
    as (pre & whole & post & c' & Hline & Hc & -> & _).
  destruct (eventRegex_groups _ _ Hc)
    as (stamp & kind & id & rest & Hw & Hs & Hk & Hi & Hx & H1 & H2 & H3).
  cbn [map seq]. rewrite H1, H2, H3.
  destruct (stamp_form _ Hs) as (H & M & S & ms & HH & HM & HS & Hms & ->).
  rewrite Parse_milli by assumption.
  destruct (validClock H M S) eqn:Hv; [|discriminate].
  intros [= <-]. cbn [Time RawTime EventID CompetitorID Extra].
  unfold validClock in Hv. rewrite !andb_true_iff, !Z.ltb_lt in Hv.
  apply digits1_digits in Hk as [Hk1 Hk2], Hi as [Hi1 Hi2].
  split; [exists H, M, S, ms; repeat split; lia|].
  split.
  { unfold timeOfDay, time.clock.
    destruct time_units as (Hh & Hm & Hsec & Hmil & Hd & Hy).
    rewrite Hh, Hm, Hsec, Hmil, Hd, Hy. lia. }
  split.
  { exists (pre +:+ "["), ("] " +:+ kind +:+ " " +:+ id +:+ rest +:+ post).
    rewrite Hline, Hw. by rewrite !app_str_assoc. }
  split; [by apply Atoi_digits|]. split; [by apply Atoi_digits|].
  by apply star_dot.
Qed.

(** ** [loadEvents] and the start of [main] *)

Lemma loadEvents_loop_ok serr lines : forall acc evs,
  Forall2 (fun l e => parseEvent l = Ok e) lines evs ->
  loadEvents_loop lines acc serr = (acc ++ evs, serr).
Proof.
  induction lines as [|l lines IH]; intros acc evs H;
    inversion H as [|? e ? evs' He Hall]; subst; cbn [loadEvents_loop].
  - by rewrite app_nil_r.
  - rewrite He, (IH _ _ Hall). by rewrite <- app_assoc.
Qed.

Lemma loadEvents_loop_bad serr good bad rest err : forall acc,
  Forall (fun l => is_Err (parseEvent l) = false) good ->
  parseEvent bad = Err err ->
  loadEvents_loop (good ++ bad :: rest) acc serr = ([], Some err).
Proof.
  induction good as [|g good IH]; intros acc Hg Hb; cbn [app loadEvents_loop].
  - by rewrite Hb.
  - inversion Hg as [|? ? Hg1 Hg2]; subst.
    destruct (parseEvent g) as [e|]; [|discriminate]. by apply IH.
Qed.

(** Every line parses, or there is a first one that does not. *)
Lemma lines_parse_or_not lines :
  (exists evs, Forall2 (fun l e => parseEvent l = Ok e) lines evs)
  \/ (exists good bad rest err,
        lines = good ++ bad :: rest
        /\ Forall (fun l => is_Err (parseEvent l) = false) good
        /\ parseEvent bad = Err err).
Proof.
  induction lines as [|l lines IH]; [left; exists []; constructor|].
  destruct (parseEvent l) as [e|err] eqn:El.
  - destruct IH as [[evs H]|(good & bad & rest & err & -> & Hg & Hb)].
    + left. exists (e :: evs). by constructor.
    + right. exists (l :: good), bad, rest, err. repeat split; [|done].
      constructor; [by rewrite El | done].
  - right. exists [], l, lines, err. by repeat split.
Qed.

Lemma Forall2_parse_unique lines evs evs' :
  Forall2 (fun l e => parseEvent l = Ok e) lines evs ->
  Forall2 (fun l e => parseEvent l = Ok e) lines evs' -> evs = evs'.
Proof.
  intros H. revert evs'. induction H as [|l e lines evs He _ IH];
    intros evs' H'; inversion H' as [|? e' ? evs'' He' Hall]; subst; [done|].
  rewrite He in He'. injection He' as <-. f_equal. by apply IH.
Qed.

Lemma parse_not_both good bad rest err evs :
  Forall2 (fun l e => parseEvent l = Ok e) (good ++ bad :: rest) evs ->
  parseEvent bad = Err err -> False.
Proof.
  intros H Hb. apply Forall2_app_inv_l in H as (e1 & e2 & _ & H & _).
  inversion H as [|? e ? ? He _]; subst. congruence.
Qed.

Lemma first_bad_unique good bad rest err good' bad' rest' err' :
  good ++ bad :: rest = good' ++ bad' :: rest' ->
  Forall (fun l => is_Err (parseEvent l) = false) good ->
  parseEvent bad = Err err ->
  Forall (fun l => is_Err (parseEvent l) = false) good' ->
  parseEvent bad' = Err err' ->
  err = err'.
Proof.
  revert good'. induction good as [|g good IH]; intros [|g' good'] E Hg Hb Hg' Hb';
    cbn in E; injection E as -> E.
  - congruence.
  - apply Forall_inv in Hg'. by rewrite Hb in Hg'.
  - apply Forall_inv in Hg. by rewrite Hb' in Hg.
  - apply Forall_inv_tail in Hg, Hg'. by eapply IH.
Qed.

(** X3.  [loadEvents] gives the events of all the lines, in their order,
    and no error exactly when the scanner has read the file to its end and
    [parseEvent] accepts every line.  The first line [parseEvent] turns
    down ends it with the error of that line and no event at all; the
    error of the scanner comes back only when every line it has yielded is
    accepted, together with their events.  A file that cannot be opened
    gives the error of [os.Open]. *)
Theorem loadEvents_all_or_nothing f lines serr :
  bufio.Scan f = (lines, serr) ->
  (forall events,
     loadEvents (Ok f) = (events, None)
     <-> serr = None
         /\ Forall2 (fun l e => parseEvent l = Ok e) lines events)
  /\ (forall events err,
        loadEvents (Ok f) = (events, Some err)
        <-> (events = []
             /\ exists good bad rest,
                  lines = good ++ bad :: rest
                  /\ Forall (fun l => is_Err (parseEvent l) = false) good
                  /\ parseEvent bad = Err err)
            \/ (serr = Some err
                /\ Forall2 (fun l e => parseEvent l = Ok e) lines events))
  /\ (forall err, loadEvents (Err err) = ([], Some err)).
Proof.
  intros Hscan. unfold loadEvents. rewrite Hscan.
  split; [|split; [|reflexivity]].
  - intros events. split.
    + intros H.
      destruct (lines_parse_or_not lines)
        as [[evs Hall]|(good & bad & rest & err & -> & Hg & Hb)].
      * rewrite (loadEvents_loop_ok _ _ _ _ Hall) in H.
        cbn [app] in H. by injection H as <- <-.
      * by rewrite (loadEvents_loop_bad _ _ _ _ _ _ Hg Hb) in H.
    + intros [-> Hall]. by rewrite (loadEvents_loop_ok _ _ _ _ Hall).
  - intros events err. split.
    + intros H.
      destruct (lines_parse_or_not lines)
        as [[evs Hall]|(good & bad & rest & err' & -> & Hg & Hb)].
      * rewrite (loadEvents_loop_ok _ _ _ _ Hall) in H.
        cbn [app] in H. injection H as <- <-. by right.
      * rewrite (loadEvents_loop_bad _ _ _ _ _ _ Hg Hb) in H.
        injection H as <- <-. left. split; [done|]. by exists good, bad, rest.
    + intros [[-> (good & bad & rest & -> & Hg & Hb)]|[-> Hall]].
      * by apply loadEvents_loop_bad.
      * by rewrite (loadEvents_loop_ok _ _ _ _ Hall).
Qed.

Lemma loadEvents_loop_error_iff lines serr :
  snd (loadEvents_loop lines [] serr) <> None
  <-> Exists (fun l => is_Err (parseEvent l) = true) lines \/ serr <> None.
Proof.
  destruct (lines_parse_or_not lines)
    as [[evs Hall]|(good & bad & rest & err & -> & Hg & Hb)].
  - rewrite (loadEvents_loop_ok _ _ _ _ Hall). cbn [snd]. split; [auto|].
    intros [Hex|H]; [|done]. exfalso.
    induction Hall as [|l0 e lines evs He _ IH]; [by inversion Hex|].
    apply Exists_cons in Hex as [Hl|Hex]; [|by apply IH].
    by rewrite He in Hl.
  - rewrite (loadEvents_loop_bad _ _ _ _ _ _ Hg Hb). cbn [snd].
    split; [|done]. intros _. left. apply Exists_app. right. left.
    by rewrite Hb.
Qed.

Lemma loadEvents_error_iff opened :
  snd (loadEvents opened) <> None
  <-> is_Err opened = true
      \/ exists f,
           opened = Ok f
           /\ (Exists (fun l => is_Err (parseEvent l) = true)
                 (fst (bufio.Scan f))
               \/ snd (bufio.Scan f) <> None).
Proof.
  destruct opened as [f|err]; cbn [loadEvents is_Err].
  - pose proof (loadEvents_loop_error_iff (fst (bufio.Scan f))
                  (snd (bufio.Scan f))) as H.
    destruct (bufio.Scan f) as [lines serr] eqn:E. cbn [fst snd] in H.
    rewrite H. split.
    + intros H'. right. exists f. by rewrite E.
    + intros [[=]|(f' & [= <-] & H')]. by rewrite E in H'.
  - cbn [snd]. split; [by left | done].
Qed.

(** X4.  [main] stops before the loop exactly when [loadConfig] has
    returned an error, or the configured start is not a time of day with
    its milliseconds, or the start interval does not have three fields, or
    the events file cannot be opened, or one of its lines is turned down,
    or the scanner stops on an error; it has then printed one line, the
    error, and not narrated a single event. *)
Theorem main_aborts_iff config opened :
  ((exists printed, main config opened = Aborted printed)
   <-> is_Err config = true
       \/ exists cfg,
            config = Ok cfg
            /\ (is_Err (time.Parse timeLayout (Start cfg)) = true
                \/ fieldCount (StartDelta cfg) <> 3%nat
                \/ is_Err opened = true
                \/ exists f,
                     opened = Ok f
                     /\ (Exists (fun l => is_Err (parseEvent l) = true)
                           (fst (bufio.Scan f))
                         \/ snd (bufio.Scan f) <> None)))
  /\ (forall printed,
        main config opened = Aborted printed ->
        exists msg err, printed = [ErrorLine msg err]).
Proof.
  assert (forall msg err (P : Prop), P ->
            ((exists printed,
                 Aborted [ErrorLine msg err] = Aborted printed) <-> P)
            /\ (forall printed,
                  Aborted [ErrorLine msg err] = Aborted printed ->
                  exists msg err, printed = [ErrorLine msg err])) as Hab.
  { intros msg err P HP. split; [split; eauto|].
    intros printed [= <-]. eauto. }
  unfold main. destruct config as [cfg|e0]; cbn [is_Err];
    [|apply Hab; by left].
  pose proof (parseDelta_error_iff (StartDelta cfg)) as Hdelta.
  pose proof (loadEvents_error_iff opened) as Hload.
  destruct (time.Parse timeLayout (Start cfg)) as [baseStart|e1] eqn:E1;
    cbn [is_Err]; [|apply Hab; right; exists cfg; rewrite E1; auto].
  destruct (parseDelta (StartDelta cfg)) as [delta|e2];
    cbn [is_Err] in *;
    [|apply Hab; right; exists cfg; split; [done|]; right; left;
      by apply Hdelta].
  destruct (loadEvents opened) as [events [e3|]]; cbn [snd] in Hload.
  - apply Hab. right. exists cfg. split; [done|]. do 2 right.
    by apply Hload.
  - assert (~ (is_Err opened = true
               \/ exists f,
                    opened = Ok f
                    /\ (Exists (fun l => is_Err (parseEvent l) = true)
                          (fst (bufio.Scan f))
                        \/ snd (bufio.Scan f) <> None))) as Hno
      by (rewrite <- Hload; auto).
    assert (fieldCount (StartDelta cfg) = 3%nat) as Hthree.
    { destruct (decide (fieldCount (StartDelta cfg) = 3%nat)); [done|].
      by apply Hdelta in n. }
    destruct (processEvents cfg baseStart delta initial
                (sort.Slice before events));
      (split; [split; [intros [? [=]]|] | intros ? [=]]);
      (intros [[=]|(cfg' & [= <-] & [H|[H|H]])];
       [by rewrite E1 in H | contradiction | contradiction]).
Qed.

Lemma Parse_milli_bare H M S :
  0 <= H < 100 -> 0 <= M < 100 -> 0 <= S < 100 ->
  time.Parse timeLayout (hms H M S)
  = Err (ErrParseTime "15:04:05.000" (hms H M S)).
Proof.
  intros HH HM HS. unfold time.Parse, hms. clock_fields H M S.
  repeat (rewrite ?app_str_assoc, ?app_str_cons, ?app_str_nil_l).
  cbn [time.chunks timeLayout time.layoutMilli time.text time.parse_chunks].
  rewrite skip_nothing, getnum_two by assumption.
  destruct (24 <=? _); [done|].
  rewrite skip_colon, getnum_two by assumption.
  destruct (60 <=? _); [done|].
  rewrite skip_colon, getnum_two by assumption.
  destruct (60 <=? _); [done|]. reflexivity.
Qed.

(** X5.  The configured start has to carry its milliseconds: given as
    HH:MM:SS, which is how the start interval is given, it stops [main]
    with an error. *)
Theorem start_needs_milliseconds cfg opened H M S :
  0 <= H < 100 -> 0 <= M < 100 -> 0 <= S < 100 ->
  Start cfg = hms H M S ->
  main (Ok cfg) opened
  = Aborted [ErrorLine "Invalid start time in config:"
               (ErrParseTime "15:04:05.000" (hms H M S))].
Proof.
  intros HH HM HS E. unfold main. by rewrite E, Parse_milli_bare.
Qed.

(** ** The scanner of [loadEvents] *)

Lemma scan_bytes l : forall cur n input readErr,
  free_of newline l = true ->
  0 <= n -> n + Z.of_nat (String.length l) < bufio.MaxScanTokenSize ->
  bufio.scan cur n (l +:+ input) readErr
  = bufio.scan (cur +:+ l) (n + Z.of_nat (String.length l)) input readErr.
Proof.
  induction l as [|c l IH]; intros cur n input readErr Hfree Hn Hlen.
  - rewrite app_str_nil_l, app_str_nil_r. cbn [String.length]. f_equal. lia.
  - cbn [free_of] in Hfree. apply andb_true_iff in Hfree as [Hc Hfree].
    apply negb_true_iff, bool_decide_eq_false in Hc.
    rewrite app_str_cons. cbn [bufio.scan String.length] in *.
    rewrite bool_decide_eq_false_2 by exact Hc.
    rewrite (proj2 (Z.eqb_neq _ _)) by lia.
    rewrite IH by (done || lia).
    f_equal; [|lia].
    by rewrite app_str_assoc, app_str_cons, app_str_nil_l.
Qed.

Lemma scan_too_long l : forall cur n input readErr,
  free_of newline l = true ->
  0 <= n < bufio.MaxScanTokenSize ->
  bufio.MaxScanTokenSize <= n + Z.of_nat (String.length l) ->
  bufio.scan cur n (l +:+ input) readErr = ([], Some ErrTooLong).
Proof.
  induction l as [|c l IH]; intros cur n input readErr Hfree Hn Hlen.
  - cbn [String.length] in Hlen. lia.
  - cbn [free_of] in Hfree. apply andb_true_iff in Hfree as [Hc Hfree].
    apply negb_true_iff, bool_decide_eq_false in Hc.
    rewrite app_str_cons. cbn [bufio.scan String.length] in *.
    rewrite bool_decide_eq_false_2 by exact Hc.
    destruct (n + 1 =? bufio.MaxScanTokenSize) eqn:E; [done|].
    apply Z.eqb_neq in E. apply IH; (done || lia).
Qed.

Lemma unlines_cons l lines :
  unlines (l :: lines) = l +:+ String newline (unlines lines).
Proof.
  unfold unlines. cbn [map String.concat].
  destruct (map _ lines) eqn:E; cbn [String.concat].
  - done.
  - by rewrite app_str_nil_l, app_str_assoc.
Qed.

Lemma scan_unlines lines : forall input readErr,
  Forall fitsScanner lines ->
  bufio.scan "" 0 (unlines lines +:+ input) readErr
  = (map bufio.dropCR lines ++ fst (bufio.scan "" 0 input readErr),
     snd (bufio.scan "" 0 input readErr)).
Proof.
  induction lines as [|l lines IH]; intros input readErr Hall.
  - unfold unlines. cbn [map String.concat app]. rewrite app_str_nil_l.
    by destruct (bufio.scan "" 0 input readErr).
  - inversion Hall as [|? ? [Hfree Hlen] Hall']; subst.
    rewrite unlines_cons, app_str_assoc, scan_bytes by (done || lia).
    rewrite app_str_cons, app_str_nil_l. cbn [bufio.scan].
    rewrite bool_decide_eq_true_2 by done.
    rewrite (IH _ _ Hall'). done.
Qed.

Lemma parsed_lines lines :
  Forall (fun l => is_Err (parseEvent l) = false) lines ->
  exists evs, Forall2 (fun l e => parseEvent l = Ok e) lines evs.
Proof.
  induction 1 as [|l lines Hl _ [evs IH]]; [exists []; constructor|].
  destruct (parseEvent l) as [e|] eqn:E; [|discriminate].
  exists (e :: evs). by constructor.
Qed.

(** X21.  The scanner of [loadEvents] gives back the lines of a file as
    they were written, a carriage return at the end of a line dropped, as
    long as every line is shorter than 64 KiB.  At a line of 64 KiB or more
    it stops: the lines before it have been read, nothing of the file from
    there on is, and if the lines before it were all events, [main] ends
    with the scanner's error, [bufio.ErrTooLong], and narrates none of
    them. *)
Theorem line_too_long cfg lines long rest readErr :
  Forall fitsScanner lines ->
  bufio.Scan {| os.content := unlines lines; os.readErr := readErr |}
  = (map bufio.dropCR lines, readErr)
  /\ (free_of newline long = true ->
      bufio.MaxScanTokenSize <= Z.of_nat (String.length long) ->
      bufio.Scan {| os.content := unlines lines +:+ long +:+ rest;
                    os.readErr := readErr |}
      = (map bufio.dropCR lines, Some ErrTooLong)
      /\ (is_Err (time.Parse timeLayout (Start cfg)) = false ->
          is_Err (parseDelta (StartDelta cfg)) = false ->
          Forall (fun l => is_Err (parseEvent (bufio.dropCR l)) = false)
            lines ->
          main (Ok cfg)
            (Ok {| os.content := unlines lines +:+ long +:+ rest;
                   os.readErr := readErr |})
          = Aborted [ErrorLine "Events error:" ErrTooLong])).
Proof.
  intros Hall. unfold bufio.Scan. cbn [os.content os.readErr]. split.
  - pose proof (scan_unlines lines "" readErr Hall) as H.
    rewrite app_str_nil_r in H. rewrite H. cbn. by rewrite app_nil_r.
  - intros Hfree Hlong.
    assert (bufio.scan "" 0 (unlines lines +:+ long +:+ rest) readErr
            = (map bufio.dropCR lines, Some ErrTooLong)) as Hscan.
    { rewrite scan_unlines by done.
      rewrite scan_too_long; [|done|done|lia].
      cbn [fst snd]. by rewrite app_nil_r. }
    split; [exact Hscan|]. intros Hstart Hdelta Hparse.
    unfold main, loadEvents, bufio.Scan. cbn [os.content os.readErr].
    destruct (time.Parse timeLayout (Start cfg)); [|discriminate].
    destruct (parseDelta (StartDelta cfg)); [|discriminate].
    rewrite Hscan.
    destruct (parsed_lines (map bufio.dropCR lines)) as [evs Hevs].
    { by apply Forall_map. }
    by rewrite (loadEvents_loop_ok _ _ _ _ Hevs).
Qed.

(** ** [sort.Slice] moves the elements, and only moves them *)

Section SortPermutation.
Context {A : Type} (lt : A -> A -> bool).

Import sort.

Lemma insert_swap_perm (d : list A) j x y :
  d !! j = Some y -> y :: <[j:=x]> d ≡ₚ x :: d.
Proof.
  revert j. induction d as [|a d IH]; intros [|j]; cbn; try done.
  - intros [= ->]. apply perm_swap.
  - intros H. etrans; [apply perm_swap|].
    etrans; [apply perm_skip, (IH _ H)|]. apply perm_swap.
Qed.

Lemma Swap_perm (d : list A) i j : Swap d i j ≡ₚ d.
Proof.
  unfold Swap.
  destruct (d !! i) as [x|] eqn:Ei; [|done].
  destruct (d !! j) as [y|] eqn:Ej; [|done].
  revert i j Ei Ej. induction d as [|a d IH]; intros [|i] [|j]; cbn;
    try done.
  - by intros [= ->] [= ->].
  - intros [= ->] Hj. by apply insert_swap_perm.
  - intros Hi [= ->]. by apply insert_swap_perm.
  - intros Hi Hj. by rewrite (IH _ _ Hi Hj).
Qed.

Lemma sink_perm (d : list A) a j : sink lt d a j ≡ₚ d.
Proof.
  revert d. induction j as [|j IH]; intros d; cbn [sink]; [done|].
  destruct ((a <? S j)%nat && Less lt d (S j) j); [|done].
  by rewrite IH, Swap_perm.
Qed.

Lemma insertion_loop_perm n (d : list A) a i :
  insertion_loop lt n d a i ≡ₚ d.
Proof.
  revert d i. induction n as [|n IH]; intros d i; cbn; [done|].
  by rewrite IH, sink_perm.
Qed.

Lemma siftDown_perm fuel (d : list A) lo hi first :
  siftDown_func lt fuel d lo hi first ≡ₚ d.
Proof.
  revert d lo. induction fuel as [|fuel IH]; intros d lo;
    cbn [siftDown_func]; [done|]. cbv zeta.
  repeat case_match; try done; by rewrite IH, Swap_perm.
Qed.

Lemma heapify_perm i (d : list A) hi first :
  heapify lt i d hi first ≡ₚ d.
Proof.
  revert d. induction i as [|i IH]; intros d; cbn [heapify]; cbv zeta.
  - apply siftDown_perm.
  - by rewrite IH, siftDown_perm.
Qed.

Lemma heap_pop_perm i (d : list A) first : heap_pop lt i d first ≡ₚ d.
Proof.
  revert d. induction i as [|i IH]; intros d; cbn [heap_pop]; cbv zeta.
  - by rewrite siftDown_perm, Swap_perm.
  - by rewrite IH, siftDown_perm, Swap_perm.
Qed.

Lemma heapSort_perm (d : list A) a b : heapSort_func lt d a b ≡ₚ d.
Proof.
  unfold heapSort_func. cbv zeta. destruct (b - a)%nat; [done|].
  by rewrite heap_pop_perm, heapify_perm.
Qed.

Lemma partition_loop_perm fuel (d : list A) a i j :
  fst (partition_loop lt fuel d a i j) ≡ₚ d.
Proof.
  revert d i j. induction fuel as [|fuel IH]; intros d i j;
    cbn [partition_loop]; [done|]. cbv zeta.
  case_match; [done|]. by rewrite IH, Swap_perm.
Qed.

Lemma partition_perm (d : list A) a b pivot :
  fst (fst (partition_func lt d a b pivot)) ≡ₚ d.
Proof.
  unfold partition_func. cbv zeta.
  case_match; cbn [fst]; [by rewrite !Swap_perm|].
  match goal with
  | |- context [partition_loop lt ?f ?d0 ?a0 ?i0 ?j0] =>
      pose proof (partition_loop_perm f d0 a0 i0 j0) as Hp;
      destruct (partition_loop lt f d0 a0 i0 j0) as [d1 j1]
  end.
  cbn [fst] in *. by rewrite Swap_perm, Hp, !Swap_perm.
Qed.

Lemma partitionEqual_loop_perm fuel (d : list A) a i j :
  fst (partitionEqual_loop lt fuel d a i j) ≡ₚ d.
Proof.
  revert d i j. induction fuel as [|fuel IH]; intros d i j;
    cbn [partitionEqual_loop]; [done|]. cbv zeta.
  case_match; [done|]. by rewrite IH, Swap_perm.
Qed.

Lemma partitionEqual_perm (d : list A) a b pivot :
  fst (partitionEqual_func lt d a b pivot) ≡ₚ d.
Proof.
  unfold partitionEqual_func.
  by rewrite partitionEqual_loop_perm, Swap_perm.
Qed.

Lemma shift_left_perm (d : list A) j : shift_left lt d j ≡ₚ d.
Proof.
  revert d. induction j as [|j IH]; intros d; cbn [shift_left]; [done|].
  case_match; [|done]. by rewrite IH, Swap_perm.
Qed.

Lemma shift_right_perm fuel (d : list A) j b :
  shift_right lt fuel d j b ≡ₚ d.
Proof.
  revert d j. induction fuel as [|fuel IH]; intros d j;
    cbn [shift_right]; [done|].
  case_match; [|done]. by rewrite IH, Swap_perm.
Qed.

Lemma partial_loop_perm steps (d : list A) a b i :
  fst (partial_loop lt steps d a b i) ≡ₚ d.
Proof.
  revert d i. induction steps as [|steps IH]; intros d i;
    cbn [partial_loop]; [done|]. cbv zeta.
  case_match; [done|]. case_match; [done|]. rewrite IH.
  repeat case_match;
    rewrite ?shift_right_perm, ?shift_left_perm, ?Swap_perm; done.
Qed.

Lemma breakPatterns_loop_perm n (d : list A) random a len idx i :
  breakPatterns_loop n d random a len idx i ≡ₚ d.
Proof.
  revert d random i. induction n as [|n IH]; intros d random i;
    cbn [breakPatterns_loop]; [done|]. cbv zeta.
  by rewrite IH, Swap_perm.
Qed.

Lemma breakPatterns_perm (d : list A) a b : breakPatterns_func d a b ≡ₚ d.
Proof.
  unfold breakPatterns_func. cbv zeta.
  case_match; [apply breakPatterns_loop_perm | done].
Qed.

Lemma reverse_loop_perm fuel (d : list A) i j :
  reverse_loop fuel d i j ≡ₚ d.
Proof.
  revert d i j. induction fuel as [|fuel IH]; intros d i j;
    cbn [reverse_loop]; [done|].
  case_match; [|done]. by rewrite IH, Swap_perm.
Qed.

Lemma pdqsort_perm fuel : forall (d d' : list A) a b limit wb wp,
  pdqsort_func lt fuel d a b limit wb wp = Some d' -> d' ≡ₚ d.
Proof.
  induction fuel as [|fuel IH]; intros d d' a b limit wb wp;
    [discriminate|].
  cbn [pdqsort_func]. cbv zeta.
  destruct (b - a <=? 12)%nat.
  { intros [= <-]. apply insertion_loop_perm. }
  destruct (limit =? 0)%nat.
  { intros [= <-]. apply heapSort_perm. }
  assert ((if negb wb then (breakPatterns_func d a b, (limit - 1)%nat)
           else (d, limit)).1 ≡ₚ d) as H1.
  { destruct (negb wb); [apply breakPatterns_perm | done]. }
  destruct (if negb wb then _ else _) as [d1 limit1]. cbn [fst] in H1.
  destruct (choosePivot_func lt d1 a b) as [pivot hint].
  assert ((match hint with
           | decreasingHint =>
               (reverseRange_func d1 a b, (b - 1 - (pivot - a))%nat,
                increasingHint)
           | _ => (d1, pivot, hint)
           end).1.1 ≡ₚ d1) as H2.
  { destruct hint; try done. apply reverse_loop_perm. }
  destruct (match hint with decreasingHint => _ | _ => _ end)
    as [[d2 pivot2] hint2]. cbn [fst] in H2.
  assert ((match hint2 with
           | increasingHint =>
               if wb && wp then partialInsertionSort_func lt d2 a b
               else (d2, false)
           | _ => (d2, false)
           end).1 ≡ₚ d2) as H3.
  { destruct hint2; try done.
    destruct (wb && wp); [apply partial_loop_perm | done]. }
  destruct (match hint2 with increasingHint => _ | _ => _ end)
    as [d3 sorted]. cbn [fst] in H3.
  destruct sorted.
  { intros [= <-]. by rewrite H3, H2, H1. }
  destruct ((0 <? a)%nat && negb (Less lt d3 (a - 1) pivot2)).
  - pose proof (partitionEqual_perm d3 a b pivot2) as H4.
    destruct (partitionEqual_func lt d3 a b pivot2) as [d4 mid].
    cbn [fst] in H4. intros H5%IH. by rewrite H5, H4, H3, H2, H1.
  - pose proof (partition_perm d3 a b pivot2) as H4.
    destruct (partition_func lt d3 a b pivot2) as [[d4 mid] ap].
    cbn [fst] in H4.
    destruct (mid - a <? b - mid)%nat.
    + destruct (pdqsort_func lt fuel d4 a mid limit1 true true)
        as [d5|] eqn:E5; [|discriminate].
      apply IH in E5. intros H6%IH. by rewrite H6, E5, H4, H3, H2, H1.
    + destruct (pdqsort_func lt fuel d4 (mid + 1) b limit1 true true)
        as [d5|] eqn:E5; [|discriminate].
      apply IH in E5. intros H6%IH. by rewrite H6, E5, H4, H3, H2, H1.
Qed.

(** [sort.Slice] hands back the elements it was given, each as often as
    it was given, whatever the comparison. *)
Lemma Slice_perm (d : list A) : Slice lt d ≡ₚ d.
Proof.
  pose proof (sort_Slice_fuel lt d) as H. unfold Slice_fuel in H.
  by apply pdqsort_perm in H.
Qed.
End SortPermutation.

(** X6.  [sort.Slice] only rearranges: the slice the loop of [main] runs
    over holds the events [loadEvents] has returned, each as often as it
    was returned, whatever their number.  So when [main] gets as far as
    [printResults], the loop has run to its end over every event of the
    file, each once, in the order of the sorted slice. *)
Theorem loop_runs_over_the_events config opened :
  (forall events,
     sort.Slice before events ≡ₚ events
     /\ length (sort.Slice before events) = length events)
  /\ (forall st,
        main config opened = Completed st ->
        exists cfg baseStart delta events,
          config = Ok cfg
          /\ time.Parse timeLayout (Start cfg) = Ok baseStart
          /\ parseDelta (StartDelta cfg) = Ok delta
          /\ loadEvents opened = (events, None)
          /\ processEvents cfg baseStart delta initial
               (sort.Slice before events) = Running st).
Proof.
  split.
  - intros events. pose proof (Slice_perm before events) as H.
    split; [done | by rewrite H].
  - intros st. unfold main. destruct config as [cfg|]; [|discriminate].
    destruct (time.Parse timeLayout (Start cfg)) as [baseStart|] eqn:E1;
      [|discriminate].
    destruct (parseDelta (StartDelta cfg)) as [delta|] eqn:E2;
      [|discriminate].
    destruct (loadEvents opened) as [events [err|]] eqn:E3; [discriminate|].
    destruct (processEvents cfg baseStart delta initial
                (sort.Slice before events)) as [st'|] eqn:E4;
      [|discriminate].
    intros [= <-]. exists cfg, baseStart, delta, events.
    repeat split; assumption.
Qed.

(** ** [sort.Slice] sorts *)

Section SortSorts.
Context {A : Type} (key : A -> Z) (lt : A -> A -> bool).
Hypothesis lt_key : forall x y, lt x y = true <-> key x < key y.

Import sort.

Local Abbreviation kat := (keyAt key).

(** *** Comparing and swapping by index *)

Lemma Less_keyAt (d : list A) i j :
  (i < length d)%nat -> (j < length d)%nat ->
  Less lt d i j = bool_decide (kat d i < kat d j).
Proof.
  intros Hi Hj. unfold Less, keyAt.
  destruct (lookup_lt_is_Some_2 d i Hi) as [x ->].
  destruct (lookup_lt_is_Some_2 d j Hj) as [y ->]. cbn.
  destruct (lt x y) eqn:E.
  - apply lt_key in E. by rewrite bool_decide_eq_true_2.
  - rewrite bool_decide_eq_false_2; [done|].
    intros H. apply lt_key in H. congruence.
Qed.

Lemma Less_true (d : list A) i j :
  (i < length d)%nat -> (j < length d)%nat ->
  Less lt d i j = true <-> kat d i < kat d j.
Proof. intros. rewrite Less_keyAt by done. apply bool_decide_eq_true. Qed.

Lemma Less_false (d : list A) i j :
  (i < length d)%nat -> (j < length d)%nat ->
  Less lt d i j = false <-> kat d j <= kat d i.
Proof.
  intros. rewrite Less_keyAt by done. rewrite bool_decide_eq_false. lia.
Qed.

Lemma length_Swap (d : list A) i j : length (Swap d i j) = length d.
Proof.
  unfold Swap. repeat case_match; by rewrite ?length_insert.
Qed.

Lemma keyAt_Swap (d : list A) i j k :
  (i < length d)%nat -> (j < length d)%nat ->
  kat (Swap d i j) k
  = if decide (k = i) then kat d j
    else if decide (k = j) then kat d i else kat d k.
Proof.
  intros Hi Hj. unfold Swap, keyAt.
  destruct (lookup_lt_is_Some_2 d i Hi) as [x Hx].
  destruct (lookup_lt_is_Some_2 d j Hj) as [y Hy]. rewrite Hx, Hy.
  destruct (decide (k = i)) as [->|Hki].
  - rewrite list_lookup_insert_eq by (by rewrite length_insert). done.
  - rewrite list_lookup_insert_ne by done.
    destruct (decide (k = j)) as [->|Hkj].
    + by rewrite list_lookup_insert_eq.
    + by rewrite list_lookup_insert_ne.
Qed.

(** *** Rearranging a range *)

Lemma keeps_refl (d : list A) a b : keeps key d d a b.
Proof. unfold keeps. eauto. Qed.

Lemma keeps_trans (d1 d2 d3 : list A) a b :
  keeps key d1 d2 a b -> keeps key d2 d3 a b -> keeps key d1 d3 a b.
Proof.
  intros (L1 & O1 & I1) (L2 & O2 & I2). split; [congruence|]. split.
  - intros k Hk. by rewrite O2, O1.
  - intros k Hk. destruct (I2 k Hk) as (k1 & Hk1 & E1).
    destruct (I1 k1 Hk1) as (k2 & Hk2 & E2). exists k2.
    split; [done | congruence].
Qed.

Lemma keeps_mono (d d' : list A) a b a0 b0 :
  keeps key d d' a b -> (a0 <= a)%nat -> (b <= b0)%nat ->
  keeps key d d' a0 b0.
Proof.
  intros (L & O & I) Ha Hb. split; [done|]. split.
  - intros k Hk. apply O. lia.
  - intros k Hk. destruct (decide (a <= k < b)%nat) as [Hin|Hout].
    + destruct (I k Hin) as (k' & Hk' & E). exists k'. split; [lia|done].
    + exists k. split; [lia|]. apply O. lia.
Qed.

Lemma keeps_Swap (d : list A) a b i j :
  (a <= i < b)%nat -> (a <= j < b)%nat -> (b <= length d)%nat ->
  keeps key d (Swap d i j) a b.
Proof.
  intros Hi Hj Hb. split; [apply length_Swap|]. split.
  - intros k Hk. rewrite keyAt_Swap by lia.
    repeat case_decide; first [lia | done].
  - intros k Hk. rewrite keyAt_Swap by lia.
    repeat case_decide; eauto.
Qed.

Lemma keeps_length (d d' : list A) a b :
  keeps key d d' a b -> length d' = length d.
Proof. by intros (L & _). Qed.

(** A bound on the keys of a range holds of the rearranged range. *)
Lemma keeps_bound (P : Z -> Prop) (d d' : list A) a b :
  keeps key d d' a b ->
  (forall k, (a <= k < b)%nat -> P (kat d k)) ->
  forall k, (a <= k < b)%nat -> P (kat d' k).
Proof.
  intros (_ & _ & I) HP k Hk. destruct (I k Hk) as (k' & Hk' & ->). auto.
Qed.

Lemma keeps_boundedBelow (d d' : list A) a b :
  keeps key d d' a b -> boundedBelow key d a b -> boundedBelow key d' a b.
Proof.
  intros Hkeep Hb Ha k Hk. destruct Hkeep as (L & O & I).
  rewrite (O (a - 1)%nat) by lia.
  destruct (I k Hk) as (k' & Hk' & ->). by apply Hb.
Qed.

(** *** Insertion *)

(** [sink] takes the element at [j] down to its place among the sorted
    elements from [a] on; it does not go past [a] when the key in front
    of [a] is not above it. *)
Lemma sink_sorts j : forall (d : list A) a0 a m,
  (a0 <= a)%nat -> (a <= j)%nat -> (j <= m)%nat -> (m < length d)%nat ->
  ((a0 < a)%nat -> kat d (a - 1) <= kat d j) ->
  (forall i1 i2, (a <= i1)%nat -> (i1 < i2)%nat -> (i2 <= m)%nat ->
     i2 <> j -> kat d i1 <= kat d i2) ->
  keeps key d (sink lt d a0 j) a (S m)
  /\ sortedOn key (sink lt d a0 j) a (S m).
Proof.
  induction j as [|j IH]; intros d a0 a m Ha0 Ha Hm Hlen Hbar Hinv.
  - cbn. split; [apply keeps_refl|]. intros i1 i2 H1 H2 H3.
    destruct (decide (i1 = i2)) as [->|]; [lia|]. apply Hinv; lia.
  - cbn [sink].
    destruct ((a0 <? S j)%nat && Less lt d (S j) j) eqn:E.
    + apply andb_true_iff in E as [E1 E2]. apply Nat.ltb_lt in E1.
      apply Less_true in E2; [|lia..].
      assert (a <= j)%nat as Haj.
      { destruct (decide (a = S j)) as [->|]; [|lia].
        specialize (Hbar ltac:(lia)).
        replace (S j - 1)%nat with j in Hbar by lia. lia. }
      destruct (IH (Swap d (S j) j) a0 a m) as [Hk Hs];
        try (rewrite ?length_Swap; lia).
      * intros Hlt. rewrite !keyAt_Swap by lia.
        repeat case_decide; first [lia | by apply Hbar].
      * intros i1 i2 H1 H2 H3 H4. rewrite !keyAt_Swap by lia.
        repeat case_decide; subst; try lia;
          try (apply Hinv; lia).
      * split; [|done].
        eapply keeps_trans; [|exact Hk]. apply keeps_Swap; lia.
    + split; [apply keeps_refl|]. intros i1 i2 H1 H2 H3.
      destruct (decide (i1 = i2)) as [->|]; [lia|].
      destruct (decide (i2 = S j)) as [->|]; [|apply Hinv; lia].
      apply andb_false_iff in E as [E|E].
      * apply Nat.ltb_ge in E. lia.
      * apply Less_false in E; [|lia..].
        destruct (decide (i1 = j)) as [->|]; [done|].
        etrans; [|exact E]. apply Hinv; lia.
Qed.

Lemma insertion_loop_sorts n : forall (d : list A) a i,
  (a <= i)%nat -> (i + n <= length d)%nat ->
  sortedOn key d a i ->
  keeps key d (insertion_loop lt n d a i) a (i + n)
  /\ sortedOn key (insertion_loop lt n d a i) a (i + n).
Proof.
  induction n as [|n IH]; intros d a i Ha Hlen Hs; cbn [insertion_loop].
  - rewrite Nat.add_0_r. split; [apply keeps_refl | done].
  - destruct (sink_sorts i d a a i) as [Hk1 Hs1]; try lia.
    { intros i1 i2 H1 H2 H3 H4. apply Hs; lia. }
    destruct (IH (sink lt d a i) a (S i)) as [Hk2 Hs2]; try lia.
    { rewrite (keeps_length _ _ _ _ Hk1). lia. }
    { done. }
    replace (i + S n)%nat with (S i + n)%nat by lia.
    split; [|done]. eapply keeps_trans; [|exact Hk2].
    eapply keeps_mono; [exact Hk1 | lia | lia].
Qed.

Lemma insertionSort_sorts (d : list A) a b :
  (a <= b)%nat -> (b <= length d)%nat ->
  keeps key d (insertionSort_func lt d a b) a b
  /\ sortedOn key (insertionSort_func lt d a b) a b.
Proof.
  intros Ha Hb. unfold insertionSort_func.
  destruct (decide (b <= a + 1)%nat) as [Hshort|Hlong].
  - replace (b - (a + 1))%nat with 0%nat by lia. cbn.
    split; [apply keeps_refl|]. intros i j H1 H2 H3.
    replace j with i by lia. lia.
  - destruct (insertion_loop_sorts (b - (a + 1)) d a (a + 1))
      as [Hk Hs]; try lia.
    { intros i j H1 H2 H3. replace j with i by lia. lia. }
    replace (a + 1 + (b - (a + 1)))%nat with b in * by lia. done.
Qed.

(** *** Partitioning *)

Lemma scan_up_spec fuel : forall (d : list A) a i j,
  (i <= S j)%nat -> (j < length d)%nat -> (a < length d)%nat ->
  (S j - i <= fuel)%nat ->
  (i <= scan_up lt fuel d a i j <= S j)%nat
  /\ (forall k, (i <= k < scan_up lt fuel d a i j)%nat ->
        kat d k < kat d a)
  /\ ((scan_up lt fuel d a i j <= j)%nat ->
      kat d a <= kat d (scan_up lt fuel d a i j)).
Proof.
  induction fuel as [|fuel IH]; intros d a i j Hi Hj Ha Hf; cbn [scan_up].
  - split; [lia|]. split; intros; lia.
  - destruct ((i <=? j)%nat && Less lt d i a) eqn:E.
    + apply andb_true_iff in E as [E1 E2]. apply Nat.leb_le in E1.
      apply Less_true in E2; [|lia..].
      destruct (IH d a (S i) j) as (H1 & H2 & H3); try lia.
      split; [lia|]. split; [|done].
      intros k Hk. destruct (decide (k = i)) as [->|]; [done|].
      apply H2. lia.
    + split; [lia|]. split; [intros; lia|]. intros Hle.
      apply andb_false_iff in E as [E|E].
      * apply Nat.leb_gt in E. lia.
      * apply Less_false in E; [done | lia..].
Qed.

Lemma scan_down_spec j : forall (d : list A) a i,
  (1 <= i)%nat -> (i <= S j)%nat -> (j < length d)%nat ->
  (a < length d)%nat ->
  (scan_down lt d a i j <= j)%nat /\ (i <= S (scan_down lt d a i j))%nat
  /\ (forall k, (scan_down lt d a i j < k <= j)%nat ->
        kat d a <= kat d k)
  /\ ((i <= scan_down lt d a i j)%nat ->
      kat d (scan_down lt d a i j) < kat d a).
Proof.
  induction j as [|j IH]; intros d a i H1 Hi Hj Ha; cbn [scan_down].
  - split; [lia|]. split; [lia|]. split; intros; lia.
  - destruct ((i <=? S j)%nat && negb (Less lt d (S j) a)) eqn:E.
    + apply andb_true_iff in E as [E1 E2]. apply Nat.leb_le in E1.
      apply negb_true_iff in E2. apply Less_false in E2; [|lia..].
      destruct (IH d a i) as (H2 & H3 & H4 & H5); try lia.
      split; [lia|]. split; [lia|]. split; [|done].
      intros k Hk. destruct (decide (k = S j)) as [->|]; [done|].
      apply H4. lia.
    + split; [lia|]. split; [lia|]. split; [intros; lia|]. intros Hle.
      apply andb_false_iff in E as [E|E].
      * apply Nat.leb_gt in E. lia.
      * apply negb_false_iff in E. apply Less_true in E; [done | lia..].
Qed.

Lemma partition_loop_sorts a b fuel : forall (d : list A) i j,
  (a < i)%nat -> (i <= S j)%nat -> (j < b)%nat -> (b <= length d)%nat ->
  (S j - i <= fuel)%nat ->
  (forall k, (a < k < i)%nat -> kat d k < kat d a) ->
  (forall k, (j < k < b)%nat -> kat d a <= kat d k) ->
  keeps key d (partition_loop lt fuel d a i j).1 (a + 1) b
  /\ (a <= (partition_loop lt fuel d a i j).2 < b)%nat
  /\ (forall k, (a < k <= (partition_loop lt fuel d a i j).2)%nat ->
        kat (partition_loop lt fuel d a i j).1 k
        < kat (partition_loop lt fuel d a i j).1 a)
  /\ (forall k, ((partition_loop lt fuel d a i j).2 < k < b)%nat ->
        kat (partition_loop lt fuel d a i j).1 a
        <= kat (partition_loop lt fuel d a i j).1 k).
Proof.
  induction fuel as [|fuel IH]; intros d i j Hai Hi Hj Hb Hf Hlo Hhi;
    cbn [partition_loop].
  - cbn [fst snd]. split; [apply keeps_refl|]. split; [lia|].
    split; intros k Hk; [apply Hlo | apply Hhi]; lia.
  - cbv zeta.
    destruct (scan_up_spec (S j) d a i j) as (U1 & U2 & U3); try lia.
    set (i1 := scan_up lt (S j) d a i j) in *.
    destruct (scan_down_spec j d a i1) as (D1 & D2 & D3 & D4); try lia.
    set (j1 := scan_down lt d a i1 j) in *.
    destruct (j1 <? i1)%nat eqn:E.
    + apply Nat.ltb_lt in E. cbn [fst snd].
      split; [apply keeps_refl|]. split; [lia|]. split; intros k Hk.
      * destruct (decide (k < i)%nat); [apply Hlo | apply U2]; lia.
      * destruct (decide (k <= j)%nat); [apply D3 | apply Hhi]; lia.
    + apply Nat.ltb_ge in E.
      specialize (U3 ltac:(lia)). specialize (D4 ltac:(lia)).
      assert (i1 < j1)%nat as Hlt.
      { destruct (decide (i1 = j1)) as [Heq|]; [|lia].
        rewrite Heq in U3. lia. }
      destruct (IH (Swap d i1 j1) (S i1) (j1 - 1)%nat)
        as (K & R1 & R2 & R3); try (rewrite ?length_Swap; lia).
      * intros k Hk. rewrite !keyAt_Swap by lia.
        repeat case_decide; try lia.
        destruct (decide (k < i)%nat); [apply Hlo | apply U2]; lia.
      * intros k Hk. rewrite !keyAt_Swap by lia.
        repeat case_decide; try lia.
        destruct (decide (k <= j)%nat); [apply D3 | apply Hhi]; lia.
      * split; [|done].
        eapply keeps_trans; [|exact K]. apply keeps_Swap; lia.
Qed.

(** The pivot, held at [a], goes to its place [m]. *)
Lemma pivot_home (d : list A) a b m :
  (a <= m < b)%nat -> (b <= length d)%nat ->
  (forall k, (a < k <= m)%nat -> kat d k < kat d a) ->
  (forall k, (m < k < b)%nat -> kat d a <= kat d k) ->
  keeps key d (Swap d m a) a b
  /\ (forall k, (a <= k < m)%nat ->
        kat (Swap d m a) k < kat (Swap d m a) m)
  /\ (forall k, (m < k < b)%nat ->
        kat (Swap d m a) m <= kat (Swap d m a) k).
Proof.
  intros Hm Hb Hlo Hhi. split; [apply keeps_Swap; lia|].
  split; intros k Hk; rewrite !keyAt_Swap by lia;
    repeat case_decide; try lia; first [apply Hlo | apply Hhi]; lia.
Qed.

Lemma partition_sorts (d : list A) a b pivot :
  (a <= pivot < b)%nat -> (b <= length d)%nat ->
  keeps key d (partition_func lt d a b pivot).1.1 a b
  /\ (a <= (partition_func lt d a b pivot).1.2 < b)%nat
  /\ (forall k, (a <= k < (partition_func lt d a b pivot).1.2)%nat ->
        kat (partition_func lt d a b pivot).1.1 k
        < kat (partition_func lt d a b pivot).1.1
            (partition_func lt d a b pivot).1.2)
  /\ (forall k, ((partition_func lt d a b pivot).1.2 < k < b)%nat ->
        kat (partition_func lt d a b pivot).1.1
          (partition_func lt d a b pivot).1.2
        <= kat (partition_func lt d a b pivot).1.1 k).
Proof.
  intros Hp Hb. unfold partition_func. cbv zeta.
  assert (keeps key d (Swap d a pivot) a b) as K0
    by (apply keeps_Swap; lia).
  set (d0 := Swap d a pivot) in *.
  assert (length d0 = length d) as L0 by apply length_Swap.
  destruct (scan_up_spec (S (b - 1)) d0 a (a + 1) (b - 1))
    as (U1 & U2 & U3); try lia.
  set (i1 := scan_up lt (S (b - 1)) d0 a (a + 1) (b - 1)) in *.
  destruct (scan_down_spec (b - 1) d0 a i1) as (D1 & D2 & D3 & D4);
    try lia.
  set (j1 := scan_down lt d0 a i1 (b - 1)) in *.
  destruct (j1 <? i1)%nat eqn:E.
  - apply Nat.ltb_lt in E. cbn [fst snd].
    destruct (pivot_home d0 a b j1) as (K1 & P1 & P2); try lia.
    { intros k Hk. apply U2. lia. }
    { intros k Hk. apply D3. lia. }
    split; [by eapply keeps_trans|]. split; [lia|]. done.
  - apply Nat.ltb_ge in E.
    specialize (U3 ltac:(lia)). specialize (D4 ltac:(lia)).
    assert (i1 < j1)%nat as Hlt.
    { destruct (decide (i1 = j1)) as [Heq|]; [|lia].
      rewrite Heq in U3. lia. }
    destruct (partition_loop_sorts a b (b - a) (Swap d0 i1 j1) (S i1)
                (j1 - 1)%nat) as (K1 & R1 & R2 & R3);
      try (rewrite ?length_Swap; lia).
    { intros k Hk. rewrite !keyAt_Swap by lia.
      repeat case_decide; try lia. apply U2. lia. }
    { intros k Hk. rewrite !keyAt_Swap by lia.
      repeat case_decide; try lia. apply D3. lia. }
    destruct (partition_loop lt (b - a) (Swap d0 i1 j1) a (S i1) (j1 - 1))
      as [d3 j2]. cbn [fst snd] in *.
    assert (length d3 = length d) as L3.
    { rewrite (keeps_length _ _ _ _ K1), length_Swap. done. }
    destruct (pivot_home d3 a b j2 ltac:(lia) ltac:(lia) R2 R3)
      as (K2 & P1 & P2).
    split; [|split; [lia | done]].
    eapply keeps_trans; [exact K0|]. eapply keeps_trans; [|exact K2].
    eapply (keeps_trans _ (Swap d0 i1 j1)); [apply keeps_Swap; lia|].
    eapply keeps_mono; [exact K1 | lia | lia].
Qed.

Lemma scan_up_eq_spec fuel : forall (d : list A) a i j,
  (i <= S j)%nat -> (j < length d)%nat -> (a < length d)%nat ->
  (S j - i <= fuel)%nat ->
  (i <= scan_up_eq lt fuel d a i j <= S j)%nat
  /\ (forall k, (i <= k < scan_up_eq lt fuel d a i j)%nat ->
        kat d k <= kat d a)
  /\ ((scan_up_eq lt fuel d a i j <= j)%nat ->
      kat d a < kat d (scan_up_eq lt fuel d a i j)).
Proof.
  induction fuel as [|fuel IH]; intros d a i j Hi Hj Ha Hf;
    cbn [scan_up_eq].
  - split; [lia|]. split; intros; lia.
  - destruct ((i <=? j)%nat && negb (Less lt d a i)) eqn:E.
    + apply andb_true_iff in E as [E1 E2]. apply Nat.leb_le in E1.
      apply negb_true_iff in E2. apply Less_false in E2; [|lia..].
      destruct (IH d a (S i) j) as (H1 & H2 & H3); try lia.
      split; [lia|]. split; [|done].
      intros k Hk. destruct (decide (k = i)) as [->|]; [done|].
      apply H2. lia.
    + split; [lia|]. split; [intros; lia|]. intros Hle.
      apply andb_false_iff in E as [E|E].
      * apply Nat.leb_gt in E. lia.
      * apply negb_false_iff in E. apply Less_true in E; [done | lia..].
Qed.

Lemma scan_down_eq_spec j : forall (d : list A) a i,
  (1 <= i)%nat -> (i <= S j)%nat -> (j < length d)%nat ->
  (a < length d)%nat ->
  (scan_down_eq lt d a i j <= j)%nat
  /\ (i <= S (scan_down_eq lt d a i j))%nat
  /\ (forall k, (scan_down_eq lt d a i j < k <= j)%nat ->
        kat d a < kat d k)
  /\ ((i <= scan_down_eq lt d a i j)%nat ->
      kat d (scan_down_eq lt d a i j) <= kat d a).
Proof.
  induction j as [|j IH]; intros d a i H1 Hi Hj Ha; cbn [scan_down_eq].
  - split; [lia|]. split; [lia|]. split; intros; lia.
  - destruct ((i <=? S j)%nat && Less lt d a (S j)) eqn:E.
    + apply andb_true_iff in E as [E1 E2]. apply Nat.leb_le in E1.
      apply Less_true in E2; [|lia..].
      destruct (IH d a i) as (H2 & H3 & H4 & H5); try lia.
      split; [lia|]. split; [lia|]. split; [|done].
      intros k Hk. destruct (decide (k = S j)) as [->|]; [done|].
      apply H4. lia.
    + split; [lia|]. split; [lia|]. split; [intros; lia|]. intros Hle.
      apply andb_false_iff in E as [E|E].
      * apply Nat.leb_gt in E. lia.
      * apply Less_false in E; [done | lia..].
Qed.

Lemma partitionEqual_loop_sorts a b fuel : forall (d : list A) i j,
  (a < i)%nat -> (i <= S j)%nat -> (j < b)%nat -> (b <= length d)%nat ->
  (S j - i < fuel)%nat ->
  (forall k, (a < k < i)%nat -> kat d k <= kat d a) ->
  (forall k, (j < k < b)%nat -> kat d a < kat d k) ->
  keeps key d (partitionEqual_loop lt fuel d a i j).1 (a + 1) b
  /\ (a < (partitionEqual_loop lt fuel d a i j).2 <= b)%nat
  /\ (forall k, (a < k < (partitionEqual_loop lt fuel d a i j).2)%nat ->
        kat (partitionEqual_loop lt fuel d a i j).1 k
        <= kat (partitionEqual_loop lt fuel d a i j).1 a)
  /\ (forall k, ((partitionEqual_loop lt fuel d a i j).2 <= k < b)%nat ->
        kat (partitionEqual_loop lt fuel d a i j).1 a
        < kat (partitionEqual_loop lt fuel d a i j).1 k).
Proof.
  induction fuel as [|fuel IH]; intros d i j Hai Hi Hj Hb Hf Hlo Hhi;
    cbn [partitionEqual_loop]; [lia|].
  cbv zeta.
  destruct (scan_up_eq_spec (S j) d a i j) as (U1 & U2 & U3); try lia.
  set (i1 := scan_up_eq lt (S j) d a i j) in *.
  destruct (scan_down_eq_spec j d a i1) as (D1 & D2 & D3 & D4); try lia.
  set (j1 := scan_down_eq lt d a i1 j) in *.
  destruct (j1 <? i1)%nat eqn:E.
  - apply Nat.ltb_lt in E. cbn [fst snd].
    split; [apply keeps_refl|]. split; [lia|]. split; intros k Hk.
    + destruct (decide (k < i)%nat); [apply Hlo | apply U2]; lia.
    + destruct (decide (k <= j)%nat); [apply D3 | apply Hhi]; lia.
  - apply Nat.ltb_ge in E.
    specialize (U3 ltac:(lia)). specialize (D4 ltac:(lia)).
    assert (i1 < j1)%nat as Hlt.
    { destruct (decide (i1 = j1)) as [Heq|]; [|lia].
      rewrite Heq in U3. lia. }
    destruct (IH (Swap d i1 j1) (S i1) (j1 - 1)%nat)
      as (K & R1 & R2 & R3); try (rewrite ?length_Swap; lia).
    + intros k Hk. rewrite !keyAt_Swap by lia.
      repeat case_decide; try lia.
      destruct (decide (k < i)%nat); [apply Hlo | apply U2]; lia.
    + intros k Hk. rewrite !keyAt_Swap by lia.
      repeat case_decide; try lia.
      destruct (decide (k <= j)%nat); [apply D3 | apply Hhi]; lia.
    + split; [|done].
      eapply keeps_trans; [|exact K]. apply keeps_Swap; lia.
Qed.

Lemma partitionEqual_sorts (d : list A) a b pivot :
  (a <= pivot < b)%nat -> (b <= length d)%nat ->
  keeps key d (partitionEqual_func lt d a b pivot).1 a b
  /\ (a < (partitionEqual_func lt d a b pivot).2 <= b)%nat
  /\ (forall k, (a <= k < (partitionEqual_func lt d a b pivot).2)%nat ->
        kat (partitionEqual_func lt d a b pivot).1 k <= kat d pivot)
  /\ (forall k, ((partitionEqual_func lt d a b pivot).2 <= k < b)%nat ->
        kat d pivot < kat (partitionEqual_func lt d a b pivot).1 k).
Proof.
  intros Hp Hb. unfold partitionEqual_func.
  assert (keeps key d (Swap d a pivot) a b) as K0
    by (apply keeps_Swap; lia).
  assert (kat (Swap d a pivot) a = kat d pivot) as Ea.
  { rewrite keyAt_Swap by lia. by rewrite decide_True. }
  set (d0 := Swap d a pivot) in *.
  assert (length d0 = length d) as L0 by apply length_Swap.
  destruct (partitionEqual_loop_sorts a b (S (b - a)) d0 (a + 1)
              (b - 1)%nat) as (K1 & R1 & R2 & R3); try lia.
  destruct (partitionEqual_loop lt (S (b - a)) d0 a (a + 1) (b - 1))
    as [d3 mid]. cbn [fst snd] in *.
  assert (kat d3 a = kat d pivot) as Ea3.
  { rewrite <- Ea. destruct K1 as (_ & O & _). apply O. lia. }
  split.
  { eapply keeps_trans; [exact K0|].
    eapply keeps_mono; [exact K1 | lia | lia]. }
  split; [lia|]. rewrite <- Ea3. split; [|done].
  intros k Hk. destruct (decide (k = a)) as [->|]; [lia|].
  apply R2. lia.
Qed.

(** *** Heap sort *)

Lemma siftDown_heap first lo hi fuel : forall (d : list A) root,
  (lo <= root)%nat -> (first + hi <= length d)%nat ->
  (hi - root <= fuel)%nat ->
  (forall r c, (lo <= r)%nat -> r <> root -> (c < hi)%nat ->
     (c = 2 * r + 1 \/ c = 2 * r + 2)%nat ->
     kat d (first + c) <= kat d (first + r)) ->
  (forall p c, (lo <= p)%nat ->
     (root = 2 * p + 1 \/ root = 2 * p + 2)%nat -> (c < hi)%nat ->
     (c = 2 * root + 1 \/ c = 2 * root + 2)%nat ->
     kat d (first + c) <= kat d (first + p)) ->
  keeps key d (siftDown_func lt fuel d root hi first)
    (first + root) (first + hi)
  /\ heapFrom key (siftDown_func lt fuel d root hi first) first lo hi.
Proof.
  induction fuel as [|fuel IH]; intros d root Hlo Hlen Hf Hheap Hgrand;
    cbn [siftDown_func].
  - split; [apply keeps_refl|]. intros r c Hr Hc Hrc.
    destruct (decide (r = root)) as [->|]; [lia|]. by apply Hheap.
  - cbv zeta. destruct (hi <=? 2 * root + 1)%nat eqn:E1.
    { apply Nat.leb_le in E1. split; [apply keeps_refl|].
      intros r c Hr Hc Hrc.
      destruct (decide (r = root)) as [->|]; [lia|]. by apply Hheap. }
    apply Nat.leb_gt in E1.
    set (child :=
           if (2 * root + 1 + 1 <? hi)%nat
              && Less lt d (first + (2 * root + 1))
                   (first + (2 * root + 1) + 1)
           then (2 * root + 1 + 1)%nat else (2 * root + 1)%nat).
    assert ((child = 2 * root + 1 \/ child = 2 * root + 2)%nat
            /\ (child < hi)%nat
            /\ forall c, (c < hi)%nat ->
                 (c = 2 * root + 1 \/ c = 2 * root + 2)%nat ->
                 kat d (first + c) <= kat d (first + child)) as
      (Hch & Hchi & Hmax).
    { subst child.
      destruct ((2 * root + 1 + 1 <? hi)%nat
                && Less lt d (first + (2 * root + 1))
                     (first + (2 * root + 1) + 1)) eqn:E2.
      - apply andb_true_iff in E2 as [E2 E3]. apply Nat.ltb_lt in E2.
        apply Less_true in E3; [|lia..].
        split; [lia|]. split; [lia|]. intros c Hc [->| ->].
        + replace (first + (2 * root + 1 + 1))%nat
            with (first + (2 * root + 1) + 1)%nat by lia. lia.
        + replace (2 * root + 1 + 1)%nat with (2 * root + 2)%nat by lia.
          lia.
      - split; [lia|]. split; [lia|]. intros c Hc [->| ->]; [lia|].
        apply andb_false_iff in E2 as [E2|E2].
        + apply Nat.ltb_ge in E2. lia.
        + apply Less_false in E2; [|lia..].
          replace (first + (2 * root + 2))%nat
            with (first + (2 * root + 1) + 1)%nat by lia. done. }
    clearbody child.
    destruct (negb (Less lt d (first + root) (first + child))) eqn:E4.
    { apply negb_true_iff in E4. apply Less_false in E4; [|lia..].
      split; [apply keeps_refl|]. intros r c Hr Hc Hrc.
      destruct (decide (r = root)) as [->|]; [|by apply Hheap].
      etrans; [by apply Hmax | done]. }
    apply negb_false_iff in E4. apply Less_true in E4; [|lia..].
    destruct (IH (Swap d (first + root) (first + child)) child)
      as [K H]; try (rewrite ?length_Swap; lia).
    + intros r c Hr Hne Hc Hrc. rewrite !keyAt_Swap by lia.
      destruct (decide (r = root)) as [->|Hrr].
      * rewrite (decide_False (P := (first + c = first + root)%nat)) by lia.
        rewrite (decide_True (P := (first + root = first + root)%nat))
          by lia.
        destruct (decide (first + c = first + child)%nat); [lia|].
        by apply Hmax.
      * rewrite (decide_False (P := (first + r = first + root)%nat)) by lia.
        rewrite (decide_False (P := (first + r = first + child)%nat))
          by lia.
        destruct (decide (first + c = first + root)%nat) as [Hcr|].
        -- assert (c = root) as -> by lia.
           apply (Hgrand r child); [lia | lia | lia | lia].
        -- destruct (decide (first + c = first + child)%nat); [lia|].
           by apply Hheap.
    + intros p c Hp Hpc Hc Hcc. assert (p = root) as -> by lia.
      rewrite !keyAt_Swap by lia.
      rewrite (decide_False (P := (first + c = first + root)%nat)) by lia.
      rewrite (decide_False (P := (first + c = first + child)%nat)) by lia.
      rewrite (decide_True (P := (first + root = first + root)%nat))
        by lia.
      apply Hheap; lia.
    + split; [|done].
      eapply (keeps_trans _ (Swap d (first + root) (first + child)));
        [apply keeps_Swap; lia|].
      eapply keeps_mono; [exact K | lia | lia].
Qed.

Lemma heapify_heap first hi i : forall (d : list A),
  (first + hi <= length d)%nat ->
  heapFrom key d first (S i) hi ->
  keeps key d (heapify lt i d hi first) first (first + hi)
  /\ heapFrom key (heapify lt i d hi first) first 0 hi.
Proof.
  induction i as [|i IH]; intros d Hlen Hheap; cbn [heapify]; cbv zeta.
  - destruct (siftDown_heap first 0 hi hi d 0) as [K H]; try lia.
    { intros r c Hr Hne Hc Hrc. apply Hheap; [lia | done | done]. }
    split; [|done]. eapply keeps_mono; [exact K | lia | lia].
  - destruct (siftDown_heap first (S i) hi hi d (S i)) as [K H]; try lia.
    { intros r c Hr Hne Hc Hrc. apply Hheap; [lia | done | done]. }
    destruct (IH (siftDown_func lt hi d (S i) hi first)) as [K2 H2].
    { rewrite (keeps_length _ _ _ _ K). done. }
    { done. }
    split; [|done]. eapply keeps_trans; [|exact K2].
    eapply keeps_mono; [exact K | lia | lia].
Qed.

(** The greatest key of a heap is at its top. *)
Lemma heap_max (d : list A) first n :
  heapFrom key d first 0 n ->
  forall k, (k < n)%nat -> kat d (first + k) <= kat d (first + 0).
Proof.
  intros Hheap k. induction k as [k IH] using lt_wf_ind. intros Hk.
  destruct k as [|k]; [lia|].
  pose proof (Nat.div_mod_eq k 2) as Hdiv.
  pose proof (Nat.mod_upper_bound k 2 ltac:(lia)) as Hmod.
  etrans; [apply (Hheap (k / 2)%nat (S k)); lia|].
  apply IH; lia.
Qed.

Lemma keyAt_Swap_same (d : list A) i k : kat (Swap d i i) k = kat d k.
Proof.
  destruct (decide (i < length d)%nat) as [Hi|Hi].
  - rewrite keyAt_Swap by done. repeat case_decide; by subst.
  - unfold Swap. by rewrite (lookup_ge_None_2 d i) by lia.
Qed.

Lemma heap_pop_sorts first hi i : forall (d : list A),
  (S i <= hi)%nat -> (first + hi <= length d)%nat ->
  heapFrom key d first 0 (S i) ->
  sortedOn key d (first + S i) (first + hi) ->
  (forall k m, (k < S i)%nat -> (S i <= m < hi)%nat ->
     kat d (first + k) <= kat d (first + m)) ->
  keeps key d (heap_pop lt i d first) first (first + hi)
  /\ sortedOn key (heap_pop lt i d first) first (first + hi).
Proof.
  induction i as [|i IH]; intros d Hi Hlen Hheap Hsorted Hbound;
    cbn [heap_pop]; cbv zeta.
  - destruct (siftDown_heap first 0 0 1 (Swap d first (first + 0)) 0)
      as [K _]; try (rewrite ?length_Swap; lia).
    set (R := siftDown_func lt 1 (Swap d first (first + 0)) 0 0 first)
      in *.
    assert (forall k, kat R k = kat d k) as Hsame.
    { intros k. destruct K as (_ & O & _). rewrite O by lia.
      replace (first + 0)%nat with first by lia. apply keyAt_Swap_same. }
    split.
    + split; [|split].
      * rewrite (keeps_length _ _ _ _ K). apply length_Swap.
      * intros k _. apply Hsame.
      * intros k Hk. exists k. split; [done | apply Hsame].
    + intros x y Hx Hxy Hy. rewrite !Hsame.
      destruct (decide (x = y)) as [->|]; [lia|].
      destruct (decide (x = first)) as [->|].
      * replace first with (first + 0)%nat at 1 by lia.
        replace y with (first + (y - first))%nat by lia.
        apply Hbound; lia.
      * apply Hsorted; lia.
  - set (d2 := Swap d first (first + S i)).
    assert (length d2 = length d) as L2 by apply length_Swap.
    assert (forall k, (k <= S i)%nat ->
              kat d (first + k) <= kat d (first + 0)) as Hmax.
    { intros k Hk. apply (heap_max d first (S (S i))); [done | lia]. }
    destruct (siftDown_heap first 0 (S i) (S (S i)) d2 0) as [K H];
      try lia.
    { intros r c Hr Hne Hc Hrc. subst d2. rewrite !keyAt_Swap by lia.
      repeat case_decide; try lia. apply Hheap; lia. }
    set (d3 := siftDown_func lt (S (S i)) d2 0 (S i) first) in *.
    assert (length d3 = length d) as L3.
    { rewrite (keeps_length _ _ _ _ K). done. }
    assert (forall k, (first + S i <= k)%nat ->
              kat d3 k = if decide (k = first + S i)%nat
                         then kat d (first + 0) else kat d k) as Hhigh.
    { intros k Hk. destruct K as (_ & O & _). rewrite O by lia.
      subst d2. rewrite keyAt_Swap by lia.
      replace (first + 0)%nat with first by lia.
      repeat case_decide; try lia; done. }
    assert (forall k, (k < S i)%nat ->
              exists k', (k' <= S i)%nat
                         /\ kat d3 (first + k) = kat d (first + k'))
      as Hlow.
    { intros k Hk. destruct K as (_ & _ & I).
      destruct (I (first + k)%nat ltac:(lia)) as (k' & Hk' & ->).
      subst d2. rewrite keyAt_Swap by lia.
      destruct (decide (k' = first)) as [->|].
      - exists (S i). split; [lia | done].
      - rewrite decide_False by lia.
        exists (k' - first)%nat. split; [lia|]. f_equal. lia. }
    destruct (IH d3) as [K4 S4]; try lia.
    + done.
    + intros x y Hx Hxy Hy. rewrite !Hhigh by lia.
      destruct (decide (x = y)) as [->|]; [lia|].
      destruct (decide (x = first + S i)%nat) as [->|].
      * rewrite decide_False by lia.
        replace y with (first + (y - first))%nat by lia.
        apply Hbound; lia.
      * rewrite decide_False by lia. apply Hsorted; lia.
    + intros k m Hk Hm. rewrite (Hhigh (first + m)%nat) by lia.
      destruct (Hlow k Hk) as (k' & Hk' & ->).
      destruct (decide (first + m = first + S i)%nat).
      * by apply Hmax.
      * apply Hbound; lia.
    + split; [|done].
      eapply (keeps_trans _ d2); [apply keeps_Swap; lia|].
      eapply (keeps_trans _ d3); [|exact K4].
      eapply keeps_mono; [exact K | lia | lia].
Qed.

Lemma heapSort_sorts (d : list A) a b :
  (a <= b)%nat -> (b <= length d)%nat ->
  keeps key d (heapSort_func lt d a b) a b
  /\ sortedOn key (heapSort_func lt d a b) a b.
Proof.
  intros Ha Hb. unfold heapSort_func. cbv zeta.
  destruct (b - a)%nat as [|hi'] eqn:E.
  - split; [apply keeps_refl|]. intros i j H1 H2 H3. lia.
  - destruct (heapify_heap a (S hi') (hi' / 2) d) as [K H]; [lia| |].
    { intros r c Hr Hc Hrc.
      pose proof (Nat.div_mod_eq hi' 2) as Hdiv.
      pose proof (Nat.mod_upper_bound hi' 2 ltac:(lia)) as Hmod. lia. }
    set (d1 := heapify lt (hi' / 2) d (S hi') a) in *.
    destruct (heap_pop_sorts a (S hi') hi' d1) as [K2 S2]; try lia.
    + rewrite (keeps_length _ _ _ _ K). lia.
    + done.
    + intros i j H1 H2 H3. lia.
    + replace (a + S hi')%nat with b in * by lia.
      split; [by eapply keeps_trans | done].
Qed.

(** *** The moves that only rearrange *)

Lemma reverse_loop_keeps a b fuel : forall (d : list A) i j,
  (a <= i)%nat -> (j < b)%nat -> (b <= length d)%nat ->
  keeps key d (reverse_loop fuel d i j) a b.
Proof.
  induction fuel as [|fuel IH]; intros d i j Hi Hj Hb; cbn [reverse_loop];
    [apply keeps_refl|].
  destruct (i <? j)%nat eqn:E; [|apply keeps_refl].
  apply Nat.ltb_lt in E.
  eapply (keeps_trans _ (Swap d i j)); [apply keeps_Swap; lia|].
  apply IH; rewrite ?length_Swap; lia.
Qed.

Lemma reverseRange_keeps (d : list A) a b :
  (a < b)%nat -> (b <= length d)%nat ->
  keeps key d (reverseRange_func d a b) a b.
Proof. intros. apply reverse_loop_keeps; lia. Qed.

Lemma bits_Len_bound n : (0 < n)%nat -> 2 ^ Z.of_nat (bits_Len n) <= 2 * Z.of_nat n.
Proof.
  intros Hn. unfold bits_Len. destruct n as [|n]; [lia|].
  set (z := Z.of_nat (S n)). assert (0 < z) as Hz by lia.
  destruct (Z.log2_spec z Hz) as [H1 _].
  pose proof (Z.log2_nonneg z).
  rewrite Z2Nat.id by lia. rewrite Z.pow_add_r by lia. lia.
Qed.

Lemma breakPatterns_loop_keeps a len n : forall (d : list A) random i,
  (8 <= len)%nat -> (a + len <= length d)%nat -> (i + n <= 3)%nat ->
  keeps key d
    (breakPatterns_loop n d random a len (a + len / 4 * 2 - 1) i)
    a (a + len).
Proof.
  induction n as [|n IH]; intros d random i Hlen Hd Hi;
    cbn [breakPatterns_loop]; [apply keeps_refl|]. cbv zeta.
  set (r := xorshift_Next random).
  set (other := Z.to_nat (Z.land r (2 ^ Z.of_nat (bits_Len len) - 1))).
  assert (other < 2 * len)%nat as Ho.
  { subst other.
    pose proof (bits_Len_bound len ltac:(lia)) as Hb.
    assert (0 < 2 ^ Z.of_nat (bits_Len len)) as Hp
      by (apply Z.pow_pos_nonneg; lia).
    replace (2 ^ Z.of_nat (bits_Len len) - 1)
      with (Z.ones (Z.of_nat (bits_Len len)))
      by (rewrite Z.ones_equiv; lia).
    rewrite Z.land_ones by lia.
    pose proof (Z.mod_pos_bound r _ Hp). lia. }
  clearbody other.
  pose proof (Nat.div_mod_eq len 4) as Hdiv.
  pose proof (Nat.mod_upper_bound len 4 ltac:(lia)) as Hmod.
  eapply keeps_trans; [|apply IH; rewrite ?length_Swap; lia].
  apply keeps_Swap; [lia | | lia].
  destruct (len <=? other)%nat eqn:E;
    [apply Nat.leb_le in E | apply Nat.leb_gt in E]; lia.
Qed.

Lemma breakPatterns_keeps (d : list A) a b :
  (a <= b)%nat -> (b <= length d)%nat ->
  keeps key d (breakPatterns_func d a b) a b.
Proof.
  intros Ha Hb. unfold breakPatterns_func. cbv zeta.
  destruct (8 <=? b - a)%nat eqn:E; [|apply keeps_refl].
  apply Nat.leb_le in E.
  pose proof (breakPatterns_loop_keeps a (b - a) 3 d (Z.of_nat (b - a)) 0
                ltac:(lia) ltac:(lia) ltac:(lia)) as K.
  replace (a + (b - a))%nat with b in K by lia. exact K.
Qed.

(** *** The pivot *)

Lemma median_in (d : list A) x y z swaps :
  (median_func lt d x y z swaps).1 = x
  \/ (median_func lt d x y z swaps).1 = y
  \/ (median_func lt d x y z swaps).1 = z.
Proof.
  unfold median_func, order2_func. repeat case_match; simplify_eq; cbn;
    auto.
Qed.

Lemma choosePivot_bounds (d : list A) a b :
  (a < b)%nat -> (a <= (choosePivot_func lt d a b).1 < b)%nat.
Proof.
  intros Hab. unfold choosePivot_func. cbv zeta.
  pose proof (Nat.div_mod_eq (b - a) 4) as Hdiv.
  pose proof (Nat.mod_upper_bound (b - a) 4 ltac:(lia)) as Hmod.
  set (q := ((b - a) / 4)%nat) in *. clearbody q.
  assert (forall p, (a <= p.1 < b)%nat ->
            (a <= (let '(j, swaps) := p in
                   match swaps with
                   | 0%nat => (j, increasingHint)
                   | 12%nat => (j, decreasingHint)
                   | _ => (j, unknownHint)
                   end).1 < b)%nat) as Hhint.
  { intros [j swaps] Hj. cbn in *.
    do 13 (try destruct swaps as [|swaps]); cbn; lia. }
  apply Hhint. clear Hhint.
  destruct (8 <=? b - a)%nat eqn:E8; [|cbn; lia].
  apply Nat.leb_le in E8.
  destruct (50 <=? b - a)%nat eqn:E50.
  - apply Nat.leb_le in E50. unfold medianAdjacent_func.
    pose proof (median_in d (a + q * 1 - 1) (a + q * 1) (a + q * 1 + 1) 0)
      as H1.
    destruct (median_func lt d (a + q * 1 - 1) (a + q * 1)
                (a + q * 1 + 1) 0) as [i s1]. cbn [fst] in H1.
    pose proof (median_in d (a + q * 2 - 1) (a + q * 2) (a + q * 2 + 1) s1)
      as H2.
    destruct (median_func lt d (a + q * 2 - 1) (a + q * 2)
                (a + q * 2 + 1) s1) as [j s2]. cbn [fst] in H2.
    pose proof (median_in d (a + q * 3 - 1) (a + q * 3) (a + q * 3 + 1) s2)
      as H3.
    destruct (median_func lt d (a + q * 3 - 1) (a + q * 3)
                (a + q * 3 + 1) s2) as [k s3]. cbn [fst] in H3.
    pose proof (median_in d i j k s3) as H4.
    destruct (median_func lt d i j k s3) as [m s4]. cbn [fst] in *. lia.
  - pose proof (median_in d (a + q * 1) (a + q * 2) (a + q * 3) 0) as H4.
    destruct (median_func lt d (a + q * 1) (a + q * 2) (a + q * 3) 0)
      as [m s4]. cbn [fst] in *. lia.
Qed.

(** *** The short cut for a range that is nearly sorted *)

Lemma skip_ordered_spec b fuel : forall (d : list A) i,
  (1 <= i)%nat -> (i <= b)%nat -> (b <= length d)%nat ->
  (b - i <= fuel)%nat ->
  (i <= skip_ordered lt fuel d i b <= b)%nat
  /\ (forall k, (i <= k < skip_ordered lt fuel d i b)%nat ->
        kat d (k - 1) <= kat d k)
  /\ ((skip_ordered lt fuel d i b < b)%nat ->
      kat d (skip_ordered lt fuel d i b)
      < kat d (skip_ordered lt fuel d i b - 1)).
Proof.
  induction fuel as [|fuel IH]; intros d i H1 Hi Hb Hf;
    cbn [skip_ordered].
  - split; [lia|]. split; intros; lia.
  - destruct ((i <? b)%nat && negb (Less lt d i (i - 1))) eqn:E.
    + apply andb_true_iff in E as [E1 E2]. apply Nat.ltb_lt in E1.
      apply negb_true_iff in E2. apply Less_false in E2; [|lia..].
      destruct (IH d (S i)) as (R1 & R2 & R3); try lia.
      split; [lia|]. split; [|done].
      intros k Hk. destruct (decide (k = i)) as [->|]; [done|].
      apply R2. lia.
    + split; [lia|]. split; [intros; lia|]. intros Hlt.
      apply andb_false_iff in E as [E|E].
      * apply Nat.ltb_ge in E. lia.
      * apply negb_false_iff in E. apply Less_true in E; [done | lia..].
Qed.

Lemma sortedOn_extend (d : list A) a i i' :
  (a < i)%nat -> sortedOn key d a i ->
  (forall k, (i <= k < i')%nat -> kat d (k - 1) <= kat d k) ->
  sortedOn key d a i'.
Proof.
  intros Ha Hs Hadj x y Hx Hxy. revert x Hx Hxy.
  induction y as [|y IH]; intros x Hx Hxy Hy.
  - replace x with 0%nat by lia. lia.
  - destruct (decide (x = S y)) as [->|]; [lia|].
    destruct (decide (S y < i)%nat); [apply Hs; lia|].
    etrans; [apply (IH x); lia|].
    specialize (Hadj (S y) ltac:(lia)).
    by replace (S y - 1)%nat with y in Hadj by lia.
Qed.

Lemma shift_left_sink (d : list A) j : shift_left lt d j = sink lt d 0 j.
Proof.
  revert d. induction j as [|j IH]; intros d; [done|].
  cbn [shift_left sink]. cbn [Nat.ltb Nat.leb andb].
  destruct (Less lt d (S j) j); [apply IH | done].
Qed.

Lemma shift_right_keeps lo b fuel : forall (d : list A) j,
  (lo < j)%nat -> (b <= length d)%nat ->
  keeps key d (shift_right lt fuel d j b) lo b.
Proof.
  induction fuel as [|fuel IH]; intros d j Hj Hb; cbn [shift_right];
    [apply keeps_refl|].
  destruct ((j <? b)%nat && Less lt d j (j - 1)) eqn:E;
    [|apply keeps_refl].
  apply andb_true_iff in E as [E _]. apply Nat.ltb_lt in E.
  eapply (keeps_trans _ (Swap d j (j - 1))); [apply keeps_Swap; lia|].
  apply IH; rewrite ?length_Swap; lia.
Qed.

Lemma sortedOn_keeps_outside (d d' : list A) a b lo hi :
  keeps key d d' lo hi -> (b <= lo \/ hi <= a)%nat ->
  sortedOn key d a b -> sortedOn key d' a b.
Proof.
  intros (_ & O & _) Hout Hs x y Hx Hxy Hy.
  rewrite !O by lia. by apply Hs.
Qed.

Lemma partial_loop_sorts a b steps : forall (d : list A) i,
  (a < i)%nat -> (i <= b)%nat -> (b <= length d)%nat ->
  sortedOn key d a i -> boundedBelow key d a b ->
  keeps key d (partial_loop lt steps d a b i).1 a b
  /\ ((partial_loop lt steps d a b i).2 = true ->
      sortedOn key (partial_loop lt steps d a b i).1 a b).
Proof.
  induction steps as [|steps IH]; intros d i Hai Hib Hb Hs Hlow;
    cbn [partial_loop].
  - cbn [fst snd]. split; [apply keeps_refl | discriminate].
  - cbv zeta.
    destruct (skip_ordered_spec b b d i) as (R1 & R2 & R3); try lia.
    set (i1 := skip_ordered lt b d i b) in *.
    pose proof (sortedOn_extend d a i i1 Hai Hs R2) as Hs1.
    destruct (i1 =? b)%nat eqn:E1.
    { apply Nat.eqb_eq in E1. cbn [fst snd]. split; [apply keeps_refl|].
      intros _. by rewrite <- E1. }
    apply Nat.eqb_neq in E1.
    destruct (b - a <? 50)%nat.
    { cbn [fst snd]. split; [apply keeps_refl | discriminate]. }
    specialize (R3 ltac:(lia)).
    set (d1 := Swap d i1 (i1 - 1)).
    assert (keeps key d d1 a b) as K1 by (apply keeps_Swap; lia).
    assert (length d1 = length d) as L1 by apply length_Swap.
    set (d2 := if (2 <=? i1 - a)%nat then shift_left lt d1 (i1 - 1)
               else d1).
    assert (keeps key d1 d2 a i1 /\ sortedOn key d2 a i1) as [K2 S2].
    { subst d2. destruct (2 <=? i1 - a)%nat eqn:E2.
      - apply Nat.leb_le in E2. rewrite shift_left_sink.
        destruct (sink_sorts (i1 - 1) d1 0 a (i1 - 1)) as [K Hsd];
          try lia.
        + intros Ha. subst d1. rewrite !keyAt_Swap by lia.
          rewrite (decide_False (P := (a - 1 = i1)%nat)) by lia.
          rewrite (decide_False (P := (a - 1 = i1 - 1)%nat)) by lia.
          rewrite (decide_False (P := (i1 - 1 = i1)%nat)) by lia.
          rewrite (decide_True (P := (i1 - 1 = i1 - 1)%nat)) by lia.
          apply Hlow; lia.
        + intros x y Hx Hxy Hy Hne. subst d1.
          rewrite !keyAt_Swap by lia.
          repeat case_decide; try lia. apply Hs1; lia.
        + replace (Datatypes.S (i1 - 1)) with i1 in * by lia. done.
      - apply Nat.leb_gt in E2. split; [apply keeps_refl|].
        intros x y Hx Hxy Hy. replace y with x by lia. lia. }
    assert (length d2 = length d) as L2
      by (rewrite (keeps_length _ _ _ _ K2); done).
    set (d3 := if (2 <=? b - i1)%nat then shift_right lt b d2 (i1 + 1) b
               else d2).
    assert (keeps key d2 d3 i1 b) as K3.
    { subst d3. destruct (2 <=? b - i1)%nat; [|apply keeps_refl].
      apply shift_right_keeps; lia. }
    assert (keeps key d d3 a b) as K.
    { eapply keeps_trans; [exact K1|]. eapply keeps_trans.
      - eapply keeps_mono; [exact K2 | lia | lia].
      - eapply keeps_mono; [exact K3 | lia | lia]. }
    destruct (IH d3 i1) as [K4 S4]; try lia.
    + rewrite (keeps_length _ _ _ _ K). done.
    + eapply sortedOn_keeps_outside; [exact K3 | lia | done].
    + by eapply keeps_boundedBelow.
    + split; [by eapply keeps_trans | done].
Qed.

Lemma partialInsertionSort_sorts (d : list A) a b :
  (a < b)%nat -> (b <= length d)%nat -> boundedBelow key d a b ->
  keeps key d (partialInsertionSort_func lt d a b).1 a b
  /\ ((partialInsertionSort_func lt d a b).2 = true ->
      sortedOn key (partialInsertionSort_func lt d a b).1 a b).
Proof.
  intros Hab Hb Hlow. apply partial_loop_sorts; try lia; [|done].
  intros x y Hx Hxy Hy. replace y with x by lia. lia.
Qed.

(** *** The whole sort *)

Lemma sortedOn_join (d : list A) a mid b :
  sortedOn key d a mid -> sortedOn key d (mid + 1) b ->
  (forall k, (a <= k < mid)%nat -> kat d k <= kat d mid) ->
  (forall k, (mid < k < b)%nat -> kat d mid <= kat d k) ->
  sortedOn key d a b.
Proof.
  intros Hl Hr Hlo Hhi x y Hx Hxy Hy.
  destruct (decide (y < mid)%nat); [apply Hl; lia|].
  destruct (decide (mid < x)%nat); [apply Hr; lia|].
  destruct (decide (x = mid)) as [->|];
    destruct (decide (y = mid)) as [->|]; try lia.
  - apply Hhi; lia.
  - apply Hlo; lia.
  - etrans; [apply Hlo | apply Hhi]; lia.
Qed.

Lemma sortedOn_split (d : list A) a mid b v :
  sortedOn key d mid b ->
  (forall k, (a <= k < mid)%nat -> kat d k = v) ->
  (forall k, (mid <= k < b)%nat -> v <= kat d k) ->
  sortedOn key d a b.
Proof.
  intros Hr Hlo Hhi x y Hx Hxy Hy.
  destruct (decide (mid <= x)%nat); [apply Hr; lia|].
  rewrite (Hlo x) by lia.
  destruct (decide (mid <= y)%nat); [apply Hhi; lia|].
  rewrite (Hlo y) by lia. lia.
Qed.

Lemma keeps_inside (d d' : list A) a b lo hi :
  keeps key d d' lo hi -> (hi <= a \/ b <= lo)%nat ->
  forall k, (a <= k < b)%nat -> kat d' k = kat d k.
Proof. intros (_ & O & _) Hout k Hk. apply O. lia. Qed.

Lemma pdqsort_sorts fuel : forall (d d' : list A) a b limit wb wp,
  (a <= b)%nat -> (b <= length d)%nat -> boundedBelow key d a b ->
  pdqsort_func lt fuel d a b limit wb wp = Some d' ->
  keeps key d d' a b /\ sortedOn key d' a b.
Proof.
  induction fuel as [|fuel IH]; intros d d' a b limit wb wp Hab Hb Hlow;
    [discriminate|].
  cbn [pdqsort_func]. cbv zeta.
  destruct (b - a <=? 12)%nat eqn:E12.
  { intros [= <-]. by apply insertionSort_sorts. }
  apply Nat.leb_gt in E12.
  destruct (limit =? 0)%nat.
  { intros [= <-]. by apply heapSort_sorts. }
  assert (keeps key d
            (if negb wb then (breakPatterns_func d a b, (limit - 1)%nat)
             else (d, limit)).1 a b) as K1.
  { destruct (negb wb); [by apply breakPatterns_keeps | apply keeps_refl]. }
  destruct (if negb wb then _ else _) as [d1 limit1]. cbn [fst] in K1.
  pose proof (keeps_length _ _ _ _ K1) as L1.
  pose proof (choosePivot_bounds d1 a b ltac:(lia)) as Hp.
  destruct (choosePivot_func lt d1 a b) as [pivot hint]. cbn [fst] in Hp.
  assert (keeps key d1
            (match hint with
             | decreasingHint =>
                 (reverseRange_func d1 a b, (b - 1 - (pivot - a))%nat,
                  increasingHint)
             | _ => (d1, pivot, hint)
             end).1.1 a b
          /\ (a <= (match hint with
                    | decreasingHint =>
                        (reverseRange_func d1 a b,
                         (b - 1 - (pivot - a))%nat, increasingHint)
                    | _ => (d1, pivot, hint)
                    end).1.2 < b)%nat) as [K2 Hp2].
  { destruct hint; cbn [fst snd]; try (split; [apply keeps_refl | done]).
    split; [apply reverseRange_keeps; lia | lia]. }
  destruct (match hint with decreasingHint => _ | _ => _ end)
    as [[d2 pivot2] hint2]. cbn [fst snd] in K2, Hp2.
  pose proof (keeps_length _ _ _ _ K2) as L2.
  assert (keeps key d d2 a b) as K12 by by eapply keeps_trans.
  pose proof (keeps_boundedBelow _ _ _ _ K12 Hlow) as Hlow2.
  assert (keeps key d2
            (match hint2 with
             | increasingHint =>
                 if wb && wp then partialInsertionSort_func lt d2 a b
                 else (d2, false)
             | _ => (d2, false)
             end).1 a b
          /\ ((match hint2 with
               | increasingHint =>
                   if wb && wp then partialInsertionSort_func lt d2 a b
                   else (d2, false)
               | _ => (d2, false)
               end).2 = true ->
              sortedOn key
                (match hint2 with
                 | increasingHint =>
                     if wb && wp then partialInsertionSort_func lt d2 a b
                     else (d2, false)
                 | _ => (d2, false)
                 end).1 a b)) as [K3 S3].
  { destruct hint2; cbn [fst snd];
      try (split; [apply keeps_refl | discriminate]).
    destruct (wb && wp); cbn [fst snd];
      [|split; [apply keeps_refl | discriminate]].
    apply partialInsertionSort_sorts; [lia | lia | done]. }
  destruct (match hint2 with increasingHint => _ | _ => _ end)
    as [d3 sorted]. cbn [fst snd] in K3, S3.
  pose proof (keeps_length _ _ _ _ K3) as L3.
  assert (keeps key d d3 a b) as K123 by by eapply keeps_trans.
  pose proof (keeps_boundedBelow _ _ _ _ K123 Hlow) as Hlow3.
  destruct sorted.
  { intros [= <-]. split; [done | by apply S3]. }
  clear S3.
  destruct ((0 <? a)%nat && negb (Less lt d3 (a - 1) pivot2)) eqn:Eq.
  - apply andb_true_iff in Eq as [Ea Eq]. apply Nat.ltb_lt in Ea.
    apply negb_true_iff in Eq. apply Less_false in Eq; [|lia..].
    destruct (partitionEqual_sorts d3 a b pivot2) as (K4 & Hm & Hle & Hgt);
      [lia | lia |].
    destruct (partitionEqual_func lt d3 a b pivot2) as [d4 mid].
    cbn [fst snd] in K4, Hm, Hle, Hgt.
    pose proof (keeps_length _ _ _ _ K4) as L4.
    pose proof (keeps_boundedBelow _ _ _ _ K4 Hlow3) as Hlow4.
    assert (forall k, (a <= k < mid)%nat -> kat d4 k = kat d3 pivot2)
      as Heq.
    { intros k Hk. specialize (Hle k Hk).
      specialize (Hlow4 Ea k ltac:(lia)).
      destruct K4 as (_ & O & _). rewrite (O (a - 1)%nat) in Hlow4 by lia.
      lia. }
    intros H5. apply IH in H5 as [K5 S5]; [|lia|lia|].
    + split.
      * eapply keeps_trans; [exact K123|].
        eapply keeps_trans; [exact K4|].
        eapply keeps_mono; [exact K5 | lia | lia].
      * apply (sortedOn_split _ a mid b (kat d3 pivot2)); [done | |].
        -- intros k Hk.
           rewrite (keeps_inside _ _ a mid _ _ K5) by lia.
           by apply Heq.
        -- apply (keeps_bound (fun v => kat d3 pivot2 <= v) _ _ _ _ K5).
           intros k Hk. specialize (Hgt k Hk). lia.
    + intros _ k Hk. rewrite (Heq (mid - 1)%nat) by lia.
      specialize (Hgt k Hk). lia.
  - clear Eq.
    destruct (partition_sorts d3 a b pivot2) as (K4 & Hm & Hlt & Hge);
      [lia | lia |].
    destruct (partition_func lt d3 a b pivot2) as [[d4 mid] ap].
    cbn [fst snd] in K4, Hm, Hlt, Hge.
    pose proof (keeps_length _ _ _ _ K4) as L4.
    pose proof (keeps_boundedBelow _ _ _ _ K4 Hlow3) as Hlow4.
    assert (keeps key d d4 a b) as K1234 by by eapply keeps_trans.
    assert (boundedBelow key d4 a mid) as HlowL.
    { intros Ha k Hk. apply Hlow4; lia. }
    destruct (mid - a <? b - mid)%nat.
    + destruct (pdqsort_func lt fuel d4 a mid limit1 true true)
        as [d5|] eqn:E5; [|discriminate].
      apply IH in E5 as [K5 S5]; [|lia|lia|done].
      pose proof (keeps_length _ _ _ _ K5) as L5.
      assert (kat d5 mid = kat d4 mid) as Hmid
        by (apply (keeps_inside _ _ mid (mid + 1) _ _ K5); lia).
      assert (forall k, (mid < k < b)%nat -> kat d5 k = kat d4 k) as Hhi
        by (intros k Hk; apply (keeps_inside _ _ (mid + 1) b _ _ K5); lia).
      intros H6. apply IH in H6 as [K6 S6]; [|lia|lia|].
      * assert (kat d' mid = kat d4 mid) as Hmid'.
        { rewrite <- Hmid.
          apply (keeps_inside _ _ mid (mid + 1) _ _ K6); lia. }
        split.
        -- eapply keeps_trans; [exact K1234|].
           eapply keeps_trans;
             [eapply keeps_mono; [exact K5 | lia | lia]|].
           eapply keeps_mono; [exact K6 | lia | lia].
        -- apply (sortedOn_join _ a mid b); [|done| |].
           ++ eapply sortedOn_keeps_outside; [exact K6 | lia | done].
           ++ intros k Hk. rewrite Hmid'.
              rewrite (keeps_inside _ _ a mid _ _ K6) by lia.
              apply (keeps_bound (fun v => v <= kat d4 mid) _ _ _ _ K5);
                [|done].
              intros k' Hk'. specialize (Hlt k' Hk'). lia.
           ++ intros k Hk. rewrite Hmid'.
              apply (keeps_bound (fun v => kat d4 mid <= v) _ _ _ _ K6);
                [|lia].
              intros k' Hk'. rewrite Hhi by lia. apply Hge. lia.
      * intros _ k Hk. replace (mid + 1 - 1)%nat with mid by lia.
        rewrite Hmid, Hhi by lia. apply Hge. lia.
    + destruct (pdqsort_func lt fuel d4 (mid + 1) b limit1 true true)
        as [d5|] eqn:E5; [|discriminate].
      apply IH in E5 as [K5 S5]; [|lia|lia|].
      2:{ intros _ k Hk. replace (mid + 1 - 1)%nat with mid by lia.
          apply Hge. lia. }
      pose proof (keeps_length _ _ _ _ K5) as L5.
      assert (kat d5 mid = kat d4 mid) as Hmid
        by (apply (keeps_inside _ _ mid (mid + 1) _ _ K5); lia).
      assert (forall k, (k < mid)%nat -> kat d5 k = kat d4 k) as Hlo
        by (intros k Hk; apply (keeps_inside _ _ k (k + 1) _ _ K5); lia).
      intros H6. apply IH in H6 as [K6 S6]; [|lia|lia|].
      * assert (kat d' mid = kat d4 mid) as Hmid'.
        { rewrite <- Hmid.
          apply (keeps_inside _ _ mid (mid + 1) _ _ K6); lia. }
        split.
        -- eapply keeps_trans; [exact K1234|].
           eapply keeps_trans;
             [eapply keeps_mono; [exact K5 | lia | lia]|].
           eapply keeps_mono; [exact K6 | lia | lia].
        -- apply (sortedOn_join _ a mid b); [done| | |].
           ++ eapply sortedOn_keeps_outside; [exact K6 | lia | done].
           ++ intros k Hk. rewrite Hmid'.
              apply (keeps_bound (fun v => v <= kat d4 mid) _ _ _ _ K6);
                [|done].
              intros k' Hk'. rewrite Hlo by lia.
              specialize (Hlt k' Hk'). lia.
           ++ intros k Hk. rewrite Hmid'.
              rewrite (keeps_inside _ _ (mid + 1) b _ _ K6) by lia.
              apply (keeps_bound (fun v => kat d4 mid <= v) _ _ _ _ K5);
                [|lia].
              intros k' Hk'. apply Hge. lia.
      * intros Ha k Hk. rewrite !Hlo by lia. apply HlowL; [done | lia].
Qed.

Lemma sortedOn_ascending (d : list A) :
  sortedOn key d 0 (length d) -> ascending key d.
Proof.
  unfold ascending. induction d as [|x d IH]; intros Hs; constructor.
  - apply IH. intros i j Hi Hij Hj.
    apply (Hs (Datatypes.S i) (Datatypes.S j)); cbn [length]; lia.
  - apply Forall_forall. intros y Hy.
    apply list_elem_of_lookup in Hy as [i Hi].
    pose proof (lookup_lt_Some _ _ _ Hi) as Hlen.
    assert (keyAt key (x :: d) 0 = key x) as E0 by done.
    assert (keyAt key (x :: d) (Datatypes.S i) = key y) as E1.
    { unfold keyAt. change ((x :: d) !! Datatypes.S i) with (d !! i).
      by rewrite Hi. }
    rewrite <- E0, <- E1. apply Hs; cbn [length]; lia.
Qed.

(** [sort.Slice] puts any slice in the order of the keys, when the
    comparison is "the key is smaller". *)
Lemma Slice_ascending (d : list A) : ascending key (Slice lt d).
Proof.
  pose proof (sort_Slice_fuel lt d) as H. unfold Slice_fuel in H.
  apply pdqsort_sorts in H as [K Hs]; [|lia|lia|intros ?; lia].
  apply sortedOn_ascending. by rewrite (keeps_length _ _ _ _ K).
Qed.
End SortSorts.

(** X20.  However many events the file holds, [main] runs its loop over
    them in the order of their timestamps: in the sorted slice no event
    stands before one of an earlier time. *)
Theorem events_in_time_order (events : list Event) :
  StronglySorted (fun x y => Time x <= Time y) (sort.Slice before events).
Proof. apply (Slice_ascending Time before), before_key. Qed.

(** * Further properties of the program *)

(** ** The records through a run of the loop *)

Lemma wrap64_add a b : wrap64 (wrap64 a + b) = wrap64 (a + b).
Proof.
  unfold wrap64.
  replace ((a + 2 ^ 63) mod 2 ^ 64 - 2 ^ 63 + b + 2 ^ 63)
    with ((a + 2 ^ 63) mod 2 ^ 64 + b) by lia.
  rewrite Zplus_mod_idemp_l. f_equal. f_equal. lia.
Qed.

Lemma concerns_spec k id e :
  concerns k id e = true <-> EventID e = k /\ CompetitorID e = id.
Proof. unfold concerns. rewrite andb_true_iff, !Z.eqb_eq. tauto. Qed.

Lemma concerns_other k id e : CompetitorID e <> id -> concerns k id e = false.
Proof.
  intros H. apply not_true_is_false. rewrite concerns_spec. tauto.
Qed.

Lemma concerns_kind k id e : EventID e <> k -> concerns k id e = false.
Proof.
  intros H. apply not_true_is_false. rewrite concerns_spec. tauto.
Qed.

Lemma concerns_own k e : EventID e = k -> concerns k (CompetitorID e) e = true.
Proof. intros H. by apply concerns_spec. Qed.

Section Records.
Context (cfg : Config) (baseStart : time.Time) (delta : time.Duration).

Local Abbreviation step := (processEvent cfg baseStart delta).
Local Abbreviation steps := (processEvents cfg baseStart delta).

(** What one event does to the record of [id], when it does not register
    [id] anew. *)
Lemma record_step st e st' id c :
  competitors st !! id = Some c ->
  ~ registers id e ->
  step st e = Running st' ->
  exists c',
    competitors st' !! id = Some c' /\
    ID c' = ID c /\
    Hits c' = (if concerns hit id e then wrap64 (Hits c + 1) else Hits c) /\
    LapsCompleted c' =
      (if concerns endedTheMainLap id e
       then wrap64 (LapsCompleted c + 1) else LapsCompleted c) /\
    FinishTime c' =
      (if concerns endedTheMainLap id e then Time e else FinishTime c) /\
    Started c' = Started c || concerns isStarted id e /\
    isDisqualified c' = isDisqualified c || concerns comment id e /\
    StartPenalty c' =
      (if concerns enteredThePenaltyLaps id e then Time e
       else StartPenalty c) /\
    StartTime c' =
      (if concerns startTime id e then assignedStart e else StartTime c) /\
    PenaltyTimes c' =
      (if concerns leftThePenaltyLaps id e
       then PenaltyTimes c ++ [time.Sub (Time e) (StartPenalty c)]
       else PenaltyTimes c) /\
    (isNotFinished c = true -> isNotFinished c' = true) /\
    (flagsStart id e = false -> isNotFinished c' = isNotFinished c) /\
    (concerns comment id e = false ->
     lapTimes c' = lapTimes c
     \/ lapTimes c = [] /\ concerns endedTheMainLap id e = true
        /\ lapTimes c' = [time.Sub (Time e) (StartTime c)]).
Proof.
  intros Hc Hnr Hs.
  destruct (decide (id = CompetitorID e)) as [->|Hne].
  - revert Hs. unfold registers, register in Hnr. unfold flagsStart.
    by_kind e; try rewrite Hc; cbn [deref];
      intros [= <-]; cbn [competitors]; rewrite ?lookup_insert_eq;
      try (exfalso; tauto);
      (eexists; split; [first [reflexivity | exact Hc]|]).
    all: unfold assignedStart, hit, endedTheMainLap, isStarted, comment,
           enteredThePenaltyLaps, startTime, leftThePenaltyLaps,
           knownKind in *.
    all: repeat match goal with
           | |- context [concerns ?k ?id ?e] =>
               first [ rewrite (concerns_own k e) by assumption
                     | rewrite (concerns_kind k id e) by lia ]
           end.
    all: rewrite ?orb_false_r, ?orb_true_r.
    all: repeat case_match; cbn; repeat split; try reflexivity;
           try tauto; try done.
    intros _. right. apply andb_true_iff in H as [H _].
    apply Nat.eqb_eq in H. cbn in H.
    destruct (lapTimes c); [done | discriminate].
  - rewrite <- (processEvent_other _ _ _ _ _ _ _ Hs Hne) in Hc.
    exists c. unfold flagsStart.
    rewrite !concerns_other by congruence.
    rewrite !orb_false_r. repeat split; auto.
Qed.

Lemma wrap64_range z : in_int64 (wrap64 z).
Proof.
  unfold in_int64, wrap64, min_int64, max_int64.
  pose proof (Z.mod_pos_bound (z + 2 ^ 63) (2 ^ 64)). lia.
Qed.

Lemma occurrences_cons k id e events :
  occurrences k id (e :: events)
  = (if concerns k id e then 1 else 0) + occurrences k id events.
Proof.
  unfold occurrences. cbn [List.filter].
  destruct (concerns k id e); cbn [length]; lia.
Qed.

Lemma lastOf_cons k id e events :
  lastOf k id (e :: events)
  = if concerns k id e
    then Some (default e (lastOf k id events))
    else lastOf k id events.
Proof.
  unfold lastOf. cbn [List.filter].
  destruct (concerns k id e); [|reflexivity].
  destruct (List.filter (concerns k id) events) as [|x l]; [reflexivity|].
  rewrite last_cons. by destruct (last (x :: l)) eqn:E.
Qed.

(** X9.  A competitor's record is touched only by the events that carry the
    competitor's identifier. *)
Theorem other_competitors_untouched events st st' id :
  Forall (fun e => CompetitorID e <> id) events ->
  processEvents cfg baseStart delta st events = Running st' ->
  competitors st' !! id = competitors st !! id.
Proof.
  intros Hall. revert st.
  induction Hall as [|e events He Hall IH]; intros st; cbn.
  - by intros [= <-].
  - destruct (step st e) as [st1|] eqn:E1; [|discriminate].
    intros Hrun. rewrite (IH _ Hrun).
    eapply processEvent_other; eauto.
Qed.

(** X11.  Between two registrations of a competitor the hits on record grow by
    one with every hit event for the competitor, and with nothing else:
    there is no limit of five a firing line. *)
Theorem hits_counted events st st' id c :
  competitors st !! id = Some c ->
  in_int64 (Hits c) ->
  Forall (fun e => ~ registers id e) events ->
  steps st events = Running st' ->
  exists c',
    competitors st' !! id = Some c'
    /\ Hits c' = wrap64 (Hits c + occurrences hit id events).
Proof.
  intros Hc Hr Hall. revert st c Hc Hr.
  induction Hall as [|e events He Hall IH]; intros st c Hc Hr; cbn.
  - intros [= <-]. exists c. split; [done|].
    unfold occurrences. cbn. by rewrite Z.add_0_r, wrap64_id.
  - destruct (step st e) as [st1|] eqn:E1; [|discriminate].
    destruct (record_step _ _ _ _ _ Hc He E1) as (c1 & Hc1 & _ & Hh & _).
    intros Hrun.
    assert (in_int64 (Hits c1)) as Hr1.
    { rewrite Hh. destruct (concerns hit id e); [apply wrap64_range|done]. }
    destruct (IH _ _ Hc1 Hr1 Hrun) as (c' & Hc' & Hh').
    exists c'. split; [done|]. rewrite Hh', Hh, occurrences_cons.
    destruct (concerns hit id e); [|done].
    rewrite wrap64_add. f_equal. lia.
Qed.

(** X12.  Likewise the laps completed grow by one with every EndedMainLap event
    for the competitor, and the finish time is the timestamp of the last
    of these events. *)
Theorem laps_counted events st st' id c :
  competitors st !! id = Some c ->
  in_int64 (LapsCompleted c) ->
  Forall (fun e => ~ registers id e) events ->
  steps st events = Running st' ->
  exists c',
    competitors st' !! id = Some c'
    /\ LapsCompleted c'
       = wrap64 (LapsCompleted c + occurrences endedTheMainLap id events)
    /\ FinishTime c'
       = match lastOf endedTheMainLap id events with
         | Some e => Time e
         | None => FinishTime c
         end.
Proof.
  intros Hc Hr Hall. revert st c Hc Hr.
  induction Hall as [|e events He Hall IH]; intros st c Hc Hr; cbn.
  - intros [= <-]. exists c. split; [done|].
    unfold occurrences. cbn. by rewrite Z.add_0_r, wrap64_id.
  - destruct (step st e) as [st1|] eqn:E1; [|discriminate].
    destruct (record_step _ _ _ _ _ Hc He E1)
      as (c1 & Hc1 & _ & _ & Hl & Hf & _).
    intros Hrun.
    assert (in_int64 (LapsCompleted c1)) as Hr1.
    { rewrite Hl.
      destruct (concerns endedTheMainLap id e); [apply wrap64_range|done]. }
    destruct (IH _ _ Hc1 Hr1 Hrun) as (c' & Hc' & Hl' & Hf').
    exists c'. split; [done|].
    rewrite Hl', Hl, Hf', Hf, occurrences_cons, lastOf_cons.
    destruct (concerns endedTheMainLap id e).
    + rewrite wrap64_add. split; [f_equal; lia|].
      by destruct (lastOf endedTheMainLap id events).
    + done.
Qed.

(** X13.  The flags of a record, between two registrations: the competitor has
    started exactly if an ActuallyStarted event has come for the
    competitor, and is disqualified exactly if a comment has come -- a
    late start, narrated as a disqualification, does not disqualify; the
    not-started flag, once set, stays set, and only AssignedStartTime and
    ActuallyStarted events for the competitor touch it. *)
Theorem flags_history events st st' id c :
  competitors st !! id = Some c ->
  Forall (fun e => ~ registers id e) events ->
  steps st events = Running st' ->
  exists c',
    competitors st' !! id = Some c'
    /\ Started c' = Started c || existsb (concerns isStarted id) events
    /\ isDisqualified c'
       = isDisqualified c || existsb (concerns comment id) events
    /\ (isNotFinished c = true -> isNotFinished c' = true)
    /\ (existsb (flagsStart id) events = false ->
        isNotFinished c' = isNotFinished c).
Proof.
  intros Hc Hall. revert st c Hc.
  induction Hall as [|e events He Hall IH]; intros st c Hc; cbn.
  - intros [= <-]. exists c. rewrite !orb_false_r. auto.
  - destruct (step st e) as [st1|] eqn:E1; [|discriminate].
    destruct (record_step _ _ _ _ _ Hc He E1)
      as (c1 & Hc1 & _ & _ & _ & _ & Hs & Hd & _ & _ & _ & Hn & Hk & _).
    intros Hrun.
    destruct (IH _ _ Hc1 Hrun) as (c' & Hc' & Hs' & Hd' & Hn' & Hk').
    exists c'. split; [done|].
    rewrite Hs', Hs, Hd', Hd, !orb_assoc. repeat split; auto.
    intros Hf. apply orb_false_iff in Hf as [Hf1 Hf2].
    by rewrite Hk', Hk.
Qed.

Lemma penaltyStart_kept events st st' id c :
  competitors st !! id = Some c ->
  Forall (fun e => ~ registers id e
                   /\ concerns enteredThePenaltyLaps id e = false) events ->
  steps st events = Running st' ->
  exists c', competitors st' !! id = Some c'
             /\ StartPenalty c' = StartPenalty c.
Proof.
  intros Hc Hall. revert st c Hc.
  induction Hall as [|e events [He1 He2] Hall IH]; intros st c Hc; cbn.
  - intros [= <-]. eauto.
  - destruct (step st e) as [st1|] eqn:E1; [|discriminate].
    destruct (record_step _ _ _ _ _ Hc He1 E1)
      as (c1 & Hc1 & _ & _ & _ & _ & _ & _ & Hp & _).
    intros Hrun. destruct (IH _ _ Hc1 Hrun) as (c' & Hc' & Hp').
    exists c'. split; [done|]. by rewrite Hp', Hp, He2.
Qed.

(** X14.  A penalty segment: when a competitor enters the penalty laps and
    later leaves them, not having entered them again nor been registered
    anew in between, the duration put on record is the time between the
    two events. *)
Theorem penalty_segment st st' id c enter mid leave :
  competitors st !! id = Some c ->
  concerns enteredThePenaltyLaps id enter = true ->
  concerns leftThePenaltyLaps id leave = true ->
  Forall (fun e => ~ registers id e
                   /\ concerns enteredThePenaltyLaps id e = false) mid ->
  steps st (enter :: mid ++ [leave]) = Running st' ->
  exists c',
    competitors st' !! id = Some c'
    /\ last (PenaltyTimes c')
       = Some (time.Sub (Time leave) (Time enter))
    /\ (timeOfDay (Time enter) -> timeOfDay (Time leave) ->
        last (PenaltyTimes c') = Some (Time leave - Time enter)).
Proof.
  intros Hc Hen Hle Hmid.
  apply concerns_spec in Hen as Hen'. apply concerns_spec in Hle as Hle'.
  assert (forall k e, k <> register -> concerns k id e = true ->
                      ~ registers id e) as Hnot.
  { intros k e Hk He [Hr _]. apply concerns_spec in He as [He _].
    congruence. }
  change (enter :: mid ++ [leave]) with ([enter] ++ mid ++ [leave]).
  rewrite processEvents_app. cbn.
  destruct (step st enter) as [st1|] eqn:E1; [|discriminate].
  rewrite processEvents_app.
  destruct (record_step _ _ _ _ _ Hc (Hnot enteredThePenaltyLaps enter ltac:(done) Hen) E1)
    as (c1 & Hc1 & _ & _ & _ & _ & _ & _ & Hp1 & _).
  rewrite Hen in Hp1.
  destruct (steps st1 mid) as [st2|] eqn:E2; [|discriminate]. cbn.
  destruct (penaltyStart_kept _ _ _ _ _ Hc1 Hmid E2) as (c2 & Hc2 & Hp2).
  destruct (step st2 leave) as [st3|] eqn:E3; [|discriminate].
  intros [= <-].
  destruct (record_step _ _ _ _ _ Hc2 (Hnot leftThePenaltyLaps leave ltac:(done) Hle) E3)
    as (c3 & Hc3 & _ & _ & _ & _ & _ & _ & _ & _ & Hpt & _).
  rewrite Hle, Hp2, Hp1 in Hpt.
  exists c3. split; [done|]. rewrite Hpt, last_snoc. split; [done|].
  intros H1 H2. rewrite time_Sub_exact; [done|].
  unfold timeOfDay in *. destruct time_units as (_ & _ & _ & _ & Hd & Hy).
  rewrite Hd, Hy in *. unfold min_int64, max_int64. lia.
Qed.

(** X15.  Completing laps puts at most one lap duration on record: once there
    is one, only a comment adds another. *)
Theorem lapTimes_single events st st' id c :
  competitors st !! id = Some c ->
  Forall (fun e => ~ registers id e /\ concerns comment id e = false)
    events ->
  steps st events = Running st' ->
  exists c',
    competitors st' !! id = Some c'
    /\ (lapTimes c <> [] -> lapTimes c' = lapTimes c)
    /\ (lapTimes c = [] -> (length (lapTimes c') <= 1)%nat).
Proof.
  intros Hc Hall. revert st c Hc.
  induction Hall as [|e events [He1 He2] Hall IH]; intros st c Hc; cbn.
  - intros [= <-]. exists c. split; [done|]. split; [done|].
    intros ->. cbn. lia.
  - destruct (step st e) as [st1|] eqn:E1; [|discriminate].
    destruct (record_step _ _ _ _ _ Hc He1 E1)
      as (c1 & Hc1 & _ & _ & _ & _ & _ & _ & _ & _ & _ & _ & _ & Hl).
    intros Hrun. destruct (IH _ _ Hc1 Hrun) as (c' & Hc' & Hn & Hz).
    exists c'. split; [done|].
    destruct (Hl He2) as [Hl1|(Hl1 & _ & Hl2)].
    + rewrite Hl1 in *. auto.
    + split; [congruence|]. intros _. rewrite Hn by (by rewrite Hl2).
      rewrite Hl2. cbn. lia.
Qed.
End Records.

(** ** Whole runs of the loop *)

Section Runs.
Context (cfg : Config) (baseStart : time.Time) (delta : time.Duration).

Local Abbreviation step := (processEvent cfg baseStart delta).
Local Abbreviation steps := (processEvents cfg baseStart delta).

Lemma register_step st e :
  EventID e = register ->
  exists text,
    step st e =
      Running {| competitors :=
                   <[CompetitorID e := newCompetitor (CompetitorID e)]>
                     (competitors st);
                 startOrder := startOrder st;
                 out := out st ++ [Text text] |}.
Proof. intros Hk. unfold register in Hk. step_kind Hk. eauto. Qed.

Lemma ID_step st e st' :
  (forall id c, competitors st !! id = Some c -> ID c = id) ->
  step st e = Running st' ->
  forall id c, competitors st' !! id = Some c -> ID c = id.
Proof.
  intros Hinv Hs id c' Hc'.
  destruct (decide (registers id e)) as [[Hk <-]|Hnr].
  - destruct (register_step st e Hk) as [text Hr].
    rewrite Hr in Hs. injection Hs as <-. cbn in Hc'.
    rewrite lookup_insert_eq in Hc'. by injection Hc' as <-.
  - assert (is_Some (competitors st !! id)) as [c Hc].
    { pose proof (processEvent_registered _ _ _ _ _ _ id Hs) as Hreg.
      destruct (proj1 Hreg (mk_is_Some _ _ Hc')); [done|contradiction]. }
    destruct (record_step _ _ _ _ _ _ _ _ Hc Hnr Hs) as (c1 & Hc1 & Hid & _).
    rewrite Hc' in Hc1. injection Hc1 as <-. rewrite Hid. eauto.
Qed.

Lemma ID_invariant events st :
  steps initial events = Running st ->
  forall id c, competitors st !! id = Some c -> ID c = id.
Proof.
  revert events st.
  apply (processEvents_invariant cfg baseStart delta
           (fun _ st =>
              forall id c, competitors st !! id = Some c -> ID c = id)).
  - intros id c. cbn. by rewrite lookup_empty.
  - intros pre st e st' IH Hs. by eapply ID_step.
Qed.

(** X10.  Every record sits in the registry under its own identifier: the
    [ID] that [printResults] prints is the key of the record. *)
Theorem record_ID events st id c :
  steps initial events = Running st ->
  competitors st !! id = Some c ->
  ID c = id.
Proof. intros Hrun. exact (ID_invariant events st Hrun id c). Qed.

Lemma startOrder_step st e st' :
  step st e = Running st' ->
  EventID e <> startTime ->
  startOrder st' = startOrder st.
Proof.
  intros Hs Hk. revert Hs. unfold startTime in Hk.
  by_kind e; try (destruct (competitors st !! CompetitorID e));
    cbn [deref]; try discriminate; try (intros [= <-]; reflexivity).
  congruence.
Qed.

(** X16.  [startOrder] is the log of the draw: one entry for every
    AssignedStartTime event handled, in the order of handling, with the
    competitor's identifier and the start time the event assigned. *)
Theorem startOrder_log events st :
  steps initial events = Running st ->
  map (fun c => (ID c, StartTime c)) (startOrder st)
  = map (fun e => (CompetitorID e, assignedStart e))
      (List.filter (fun e => EventID e =? startTime) events).
Proof.
  intros Hrun.
  cut (steps initial events = Running st /\
       map (fun c => (ID c, StartTime c)) (startOrder st)
       = map (fun e => (CompetitorID e, assignedStart e))
           (List.filter (fun e => EventID e =? startTime) events));
    [tauto|].
  revert events st Hrun.
  apply (processEvents_invariant cfg baseStart delta
           (fun pre st =>
              steps initial pre = Running st /\
              map (fun c => (ID c, StartTime c)) (startOrder st)
              = map (fun e => (CompetitorID e, assignedStart e))
                  (List.filter (fun e => EventID e =? startTime) pre)));
    [done|].
  intros pre st e st' [Hpre IH] Hs. split.
  { rewrite processEvents_app, Hpre. cbn. by rewrite Hs. }
  rewrite List.filter_app, map_app. cbn [List.filter].
  destruct (EventID e =? startTime) eqn:Ek.
  - apply Z.eqb_eq in Ek.
    destruct (competitors st !! CompetitorID e) as [c|] eqn:Hc.
    + destruct (assignedStart_step cfg baseStart delta st e c Ek Hc)
        as (st1 & c1 & Hs1 & _ & Ho & Ht & _ & Hid & _).
      rewrite Hs in Hs1. injection Hs1 as <-.
      rewrite Ho, map_app, IH. cbn.
      by rewrite Ht, Hid, (ID_invariant _ _ Hpre _ _ Hc).
    + revert Hs. unfold startTime in Ek. step_kind Ek. by rewrite Hc.
  - apply Z.eqb_neq in Ek.
    rewrite (startOrder_step _ _ _ Hs Ek), IH. cbn. by rewrite app_nil_r.
Qed.

(** *** What is printed *)

Lemma out_step st e :
  match step st e with
  | Running st' =>
      exists ls, out st' = out st ++ ls /\ (1 <= length ls <= 3)%nat
  | Panic printed => printed = out st
  end.
Proof.
  by_kind e; try (destruct (competitors st !! CompetitorID e));
    cbn [deref out print]; try reflexivity;
    try (eexists; split; [reflexivity|]; cbn; lia).
  - repeat case_match; eexists; (split; [reflexivity|]); cbn; lia.
  - repeat case_match; eexists; (split; [reflexivity|]); cbn; lia.
Qed.

(** X8.  Every event handled adds its narration, one to three lines, to what
    has been printed, and never changes what has been printed before.
    When the loop dies, what stands printed is what the events before the
    fatal one have left: the fatal event itself prints nothing. *)
Theorem narration_grows events st :
  match processEvents cfg baseStart delta st events with
  | Running st' =>
      exists ls,
        out st' = out st ++ ls
        /\ (length events <= length ls <= 3 * length events)%nat
  | Panic printed =>
      exists pre e post st1 ls,
        events = pre ++ e :: post
        /\ processEvents cfg baseStart delta st pre = Running st1
        /\ processEvent cfg baseStart delta st1 e = Panic printed
        /\ printed = out st1
        /\ out st1 = out st ++ ls
        /\ (length pre <= length ls <= 3 * length pre)%nat
  end.
Proof.
  revert st. induction events as [|e events IH]; intros st;
    cbn [processEvents].
  - exists []. by rewrite app_nil_r.
  - pose proof (out_step st e) as H1.
    destruct (step st e) as [st1|printed] eqn:E1.
    + destruct H1 as (l1 & Ho1 & Hl1). specialize (IH st1).
      destruct (steps st1 events) as [st2|printed].
      * destruct IH as (l2 & Ho2 & Hl2). exists (l1 ++ l2).
        rewrite Ho2, Ho1, app_assoc, length_app. cbn [length].
        split; [done | lia].
      * destruct IH as (pre & e' & post & st' & ls & -> & Hpre & He' & Hp
                        & Ho & Hl).
        exists (e :: pre), e', post, st', (l1 ++ ls).
        split; [done|]. split; [cbn [processEvents]; by rewrite E1|].
        split; [done|]. split; [done|].
        rewrite Ho, Ho1, app_assoc, length_app. cbn [length].
        split; [done | lia].
    + exists [], e, events, st, []. rewrite app_nil_r. cbn [length].
      repeat split; done.
Qed.

(** *** When the loop dies *)

Lemma panic_step st e printed :
  step st e = Panic printed ->
  usesRecord (EventID e) /\ competitors st !! CompetitorID e = None.
Proof.
  unfold usesRecord, startTime, isStarted, hit, leftTheFiringRange,
    enteredThePenaltyLaps, leftThePenaltyLaps, endedTheMainLap, comment.
  by_kind e; try (destruct (competitors st !! CompetitorID e));
    cbn [deref]; try discriminate; intros _; (split; [lia | done]).
Qed.

(** X7.  The loop dies of a nil pointer exactly when an event of a kind that
    reads or writes the record comes for a competitor whom no earlier
    event has registered; otherwise it handles every event. *)
Theorem loop_dies_iff events :
  (exists printed, steps initial events = Panic printed)
  <-> ~ registeredBeforeUse events.
Proof.
  split.
  - intros [printed Hp] Hreg.
    induction events as [|e events IH] using rev_ind; [discriminate|].
    rewrite processEvents_app in Hp.
    destruct (steps initial events) as [st|] eqn:E1.
    + cbn in Hp. destruct (step st e) as [|p] eqn:E2; [discriminate|].
      apply panic_step in E2 as [Hu Hc].
      specialize (Hreg events e [] eq_refl Hu).
      apply (registered_iff _ _ _ _ _ _ E1) in Hreg.
      rewrite Hc in Hreg. by destruct (is_Some_None Hreg).
    + apply IH; [done|]. intros pre e0 post -> Hu.
      apply (Hreg pre e0 (post ++ [e])); [|done].
      by rewrite <- app_assoc.
  - intros Hno.
    destruct (steps initial events) as [st|printed] eqn:E; [|eauto].
    exfalso. apply Hno. intros pre e post -> Hu.
    rewrite processEvents_app in E.
    destruct (steps initial pre) as [st1|] eqn:E1; [|discriminate].
    cbn in E. destruct (step st1 e) as [st2|] eqn:E2; [|discriminate].
    apply (registered_iff _ _ _ _ _ _ E1).
    destruct (competitors st1 !! CompetitorID e) as [c|] eqn:Hc; [eauto|].
    exfalso.
    assert (EventID e <> register) as Hk.
    { unfold usesRecord, startTime, isStarted, hit, leftTheFiringRange,
        enteredThePenaltyLaps, leftThePenaltyLaps, endedTheMainLap, comment,
        register in *. lia. }
    destruct (unregistered_step cfg baseStart delta st1 e Hk Hc)
      as [[_ Hp]|[Hn _]]; [congruence | contradiction].
Qed.

Lemma finish_unset_step st e st' id :
  (forall c, competitors st !! id = Some c -> FinishTime c = time.zero) ->
  concerns endedTheMainLap id e = false ->
  step st e = Running st' ->
  forall c', competitors st' !! id = Some c' -> FinishTime c' = time.zero.
Proof.
  intros Hz Hne Hs c' Hc'.
  destruct (decide (registers id e)) as [[Hk <-]|Hnr].
  - destruct (register_step st e Hk) as [text Hr].
    rewrite Hr in Hs. injection Hs as <-. cbn in Hc'.
    rewrite lookup_insert_eq in Hc'. by injection Hc' as <-.
  - assert (is_Some (competitors st !! id)) as [c Hc].
    { pose proof (processEvent_registered _ _ _ _ _ _ id Hs) as Hreg.
      destruct (proj1 Hreg (mk_is_Some _ _ Hc')); [done|contradiction]. }
    destruct (record_step _ _ _ _ _ _ _ _ Hc Hnr Hs)
      as (c1 & Hc1 & _ & _ & _ & Hf & _).
    rewrite Hc' in Hc1. injection Hc1 as <-. rewrite Hf, Hne. eauto.
Qed.

(** X18.  A competitor for whom no EndedMainLap event has come is reported
    as [NotFinished], whatever else has come. *)
Theorem no_lap_not_finished events st id c :
  steps initial events = Running st ->
  existsb (concerns endedTheMainLap id) events = false ->
  competitors st !! id = Some c ->
  status c cfg = "[NotFinished]".
Proof.
  intros Hrun Hno Hc.
  assert (FinishTime c = time.zero) as Hz.
  { revert c Hno Hc. revert events st Hrun.
    apply (processEvents_invariant cfg baseStart delta
             (fun pre st =>
                forall c,
                  existsb (concerns endedTheMainLap id) pre = false ->
                  competitors st !! id = Some c ->
                  FinishTime c = time.zero)).
    - intros c _. cbn. by rewrite lookup_empty.
    - intros pre st e st' IH Hs c Hno.
      rewrite existsb_app in Hno. cbn in Hno.
      apply orb_false_iff in Hno as [Hno1 Hno2].
      rewrite orb_false_r in Hno2.
      eapply finish_unset_step; eauto. }
  unfold status. rewrite Hz. reflexivity.
Qed.
End Runs.

(** ** Times of day as text *)

Lemma Format_clock H M S ns :
  0 <= H < 24 -> 0 <= M < 60 -> 0 <= S < 60 -> 0 <= ns < time.Second ->
  forall days,
    time.Format (time.clock H M S ns + days * time.Day)
    = hmsm H M S (ns / time.Millisecond).
Proof.
  intros HH HM HS Hns days. unfold time.Format, time.clock, hmsm, hms.
  destruct time_units as (Hh & Hm & Hs & Hmil & Hd & Hy).
  rewrite Hh, Hm, Hs, Hmil, Hd, Hy in *. cbv zeta.
  set (tod := H * 3600000000000 + M * 60000000000 + S * 1000000000 + ns).
  assert ((-31622400000000000 + H * 3600000000000 + M * 60000000000
           + S * 1000000000 + ns + days * 86400000000000)
          mod 86400000000000 = tod) as ->.
  { symmetry. apply (Z.mod_unique_pos _ _ (days - 366)); subst tod; lia. }
  assert (tod / 3600000000000 = H) as ->.
  { symmetry. apply (Z.div_unique_pos _ _ _
                       (M * 60000000000 + S * 1000000000 + ns));
      subst tod; lia. }
  assert (tod mod 3600000000000 / 60000000000 = M) as ->.
  { rewrite <- (Z.mod_unique_pos tod 3600000000000 H
               (M * 60000000000 + S * 1000000000 + ns))
      by (subst tod; lia).
    symmetry. apply (Z.div_unique_pos _ _ _ (S * 1000000000 + ns)); lia. }
  assert (tod mod 60000000000 / 1000000000 = S) as ->.
  { rewrite <- (Z.mod_unique_pos tod 60000000000 (H * 60 + M)
               (S * 1000000000 + ns)) by (subst tod; lia).
    symmetry. apply (Z.div_unique_pos _ _ _ ns); lia. }
  assert (tod mod 1000000000 = ns) as ->.
  { symmetry. apply (Z.mod_unique_pos _ _ (H * 3600 + M * 60 + S));
      subst tod; lia. }
  by rewrite !app_str_assoc.
Qed.

(** X19.  [printResults] prints a duration as a time of day: whole days are
    dropped, so that 25 hours read 01:00:00.000, what is less than a
    millisecond is dropped too, and a negative duration reads as the time
    that much before midnight. *)
Theorem lapClock_wraps H M S ms ns days :
  0 <= H < 24 -> 0 <= M < 60 -> 0 <= S < 60 -> 0 <= ms < 1000 ->
  0 <= ns < time.Millisecond ->
  lapClock (days * time.Day + H * time.Hour + M * time.Minute
            + S * time.Second + ms * time.Millisecond + ns)
  = hmsm H M S ms.
Proof.
  intros HH HM HS Hms Hns. unfold lapClock, time.Add, time.zero.
  destruct time_units as (Hh & Hm & Hs & Hmil & Hd & Hy).
  rewrite Hmil in Hns.
  replace (0 + (days * time.Day + H * time.Hour + M * time.Minute
                + S * time.Second + ms * time.Millisecond + ns))
    with (time.clock H M S (ms * time.Millisecond + ns)
          + (days + 366) * time.Day)
    by (unfold time.clock; rewrite Hy, Hd; lia).
  rewrite Format_clock by (rewrite ?Hs, ?Hmil; lia).
  f_equal. rewrite Hmil. symmetry.
  apply (Z.div_unique_pos _ _ _ ns); lia.
Qed.

(** X17.  The narration of an AssignedStartTime event shows the start time as
    the payload gives it, HH:MM:SS.mmm; a payload that is no time of day is
    reported, and then the start time is the zero Time and is shown as
    midnight. *)
Theorem assigned_start_echo cfg baseStart delta st e c :
  EventID e = startTime ->
  competitors st !! CompetitorID e = Some c ->
  exists st' ls,
    processEvent cfg baseStart delta st e = Running st'
    /\ out st'
       = out st ++ ls ++
         [Text ("[" +:+ RawTime e +:+ "] "
                +:+ "The start time for the competitor("
                +:+ itoa (CompetitorID e) +:+ ") was set by a draw to "
                +:+ time.Format (assignedStart e) +:+ nl)]
    /\ (forall H M S ms,
          0 <= H < 24 -> 0 <= M < 60 -> 0 <= S < 60 -> 0 <= ms < 1000 ->
          Extra e = hmsm H M S ms ->
          time.Format (assignedStart e) = Extra e)
    /\ (forall err,
          time.Parse timeLayout (Extra e) = Err err ->
          time.Format (assignedStart e) = "00:00:00.000"
          /\ ErrorLine "Invalid incoming startTime in events:" err ∈ ls).
Proof.
  intros Hk Hc. unfold startTime in Hk.
  step_kind Hk. rewrite Hc. cbn [deref].
  eexists _,
    (match time.Parse timeLayout (Extra e) with
     | Ok _ => []
     | Err err => [ErrorLine "Invalid incoming startTime in events:" err]
     end ++
     match time.Parse time.layoutClock (StartDelta cfg) with
     | Ok _ => []
     | Err err => [ErrorLine "Invalid delta time in config:" err]
     end).
  split; [reflexivity|]. cbn [out print]. split.
  { rewrite <- app_assoc, !app_str_assoc. do 7 f_equal.
    unfold assignedStart. by case_match. }
  split.
  - intros H M S ms HH HM HS Hms E. unfold assignedStart.
    rewrite E, Parse_milli by lia.
    assert (validClock H M S = true) as ->.
    { unfold validClock. rewrite !andb_true_iff, !Z.ltb_lt. lia. }
    cbn [time.value_of].
    rewrite <- (Z.add_0_r (time.clock _ _ _ _)).
    change (time.clock H M S (ms * time.Millisecond) + 0)
      with (time.clock H M S (ms * time.Millisecond) + 0 * time.Day).
    destruct time_units as (_ & _ & Hs & Hmil & _).
    rewrite Format_clock by (rewrite ?Hs, ?Hmil; lia).
    f_equal. rewrite Hmil. apply Z.div_mul. lia.
  - intros err E. unfold assignedStart. rewrite E. split; [reflexivity|].
    apply elem_of_app. left. apply list_elem_of_singleton. reflexivity.
Qed.

(** ** The further properties at work *)

Lemma other_competitors_untouched_witness :
  let events := [ev register 2 9 0 0 ""; ev hit 2 9 1 0 "1"] in
  let st' := reached (processEvents cfg0 base0 delta0 registered1 events) in
  Forall (fun e => CompetitorID e <> 1) events
  /\ processEvents cfg0 base0 delta0 registered1 events = Running st'
  /\ competitors st' !! 1 = competitors registered1 !! 1.
Proof.
  intros events st'.
  assert (Forall (fun e => CompetitorID e <> 1) events) as Hall
    by (repeat constructor; discriminate).
  assert (processEvents cfg0 base0 delta0 registered1 events = Running st')
    as Hrun by (vm_compute; reflexivity).
  split; [exact Hall|]. split; [exact Hrun|].
  exact (other_competitors_untouched cfg0 base0 delta0 events registered1
           st' 1 Hall Hrun).
Defined.

Lemma hits_counted_witness :
  let events := [ev hit 1 9 5 0 "1"; ev startLine 1 9 6 0 "";
                 ev hit 1 9 7 0 "2"] in
  let st' := reached (processEvents cfg0 base0 delta0 registered1 events) in
  competitors registered1 !! 1 = Some (newCompetitor 1)
  /\ in_int64 (Hits (newCompetitor 1))
  /\ Forall (fun e => ~ registers 1 e) events
  /\ processEvents cfg0 base0 delta0 registered1 events = Running st'
  /\ exists c', competitors st' !! 1 = Some c' /\ Hits c' = 2.
Proof.
  intros events st'.
  assert (in_int64 (Hits (newCompetitor 1))) as Hr
    by (unfold in_int64, min_int64, max_int64; cbn; lia).
  assert (Forall (fun e => ~ registers 1 e) events) as Hall
    by (repeat constructor; intros [H1 H2]; discriminate).
  assert (processEvents cfg0 base0 delta0 registered1 events = Running st')
    as Hrun by (vm_compute; reflexivity).
  split; [reflexivity|]. split; [exact Hr|]. split; [exact Hall|].
  split; [exact Hrun|].
  destruct (hits_counted cfg0 base0 delta0 events registered1 st' 1
              (newCompetitor 1) eq_refl Hr Hall Hrun) as (c' & Hc & Hh).
  exists c'. split; [exact Hc|]. rewrite Hh. vm_compute. reflexivity.
Defined.

Lemma laps_counted_witness :
  let events := [ev endedTheMainLap 1 10 5 0 ""; ev hit 1 10 6 0 "1";
                 ev endedTheMainLap 1 10 10 0 ""] in
  let st' := reached (processEvents cfg0 base0 delta0 registered1 events) in
  competitors registered1 !! 1 = Some (newCompetitor 1)
  /\ in_int64 (LapsCompleted (newCompetitor 1))
  /\ Forall (fun e => ~ registers 1 e) events
  /\ processEvents cfg0 base0 delta0 registered1 events = Running st'
  /\ exists c',
       competitors st' !! 1 = Some c' /\ LapsCompleted c' = 2
       /\ FinishTime c' = time.clock 10 10 0 0.
Proof.
  intros events st'.
  assert (in_int64 (LapsCompleted (newCompetitor 1))) as Hr
    by (unfold in_int64, min_int64, max_int64; cbn; lia).
  assert (Forall (fun e => ~ registers 1 e) events) as Hall
    by (repeat constructor; intros [H1 H2]; discriminate).
  assert (processEvents cfg0 base0 delta0 registered1 events = Running st')
    as Hrun by (vm_compute; reflexivity).
  split; [reflexivity|]. split; [exact Hr|]. split; [exact Hall|].
  split; [exact Hrun|].
  destruct (laps_counted cfg0 base0 delta0 events registered1 st' 1
              (newCompetitor 1) eq_refl Hr Hall Hrun)
    as (c' & Hc & Hl & Hf).
  exists c'. split; [exact Hc|]. rewrite Hl, Hf.
  split; vm_compute; reflexivity.
Defined.

Lemma flags_history_witness :
  let events := [ev isStarted 1 10 0 30 ""; ev comment 1 10 5 0 "Lost"] in
  let st' := reached (processEvents cfg0 base0 delta0 registered1 events) in
  competitors registered1 !! 1 = Some (newCompetitor 1)
  /\ Forall (fun e => ~ registers 1 e) events
  /\ processEvents cfg0 base0 delta0 registered1 events = Running st'
  /\ exists c',
       competitors st' !! 1 = Some c' /\ Started c' = true
       /\ isDisqualified c' = true.
Proof.
  intros events st'.
  assert (Forall (fun e => ~ registers 1 e) events) as Hall
    by (repeat constructor; intros [H1 H2]; discriminate).
  assert (processEvents cfg0 base0 delta0 registered1 events = Running st')
    as Hrun by (vm_compute; reflexivity).
  split; [reflexivity|]. split; [exact Hall|]. split; [exact Hrun|].
  destruct (flags_history cfg0 base0 delta0 events registered1 st' 1
              (newCompetitor 1) eq_refl Hall Hrun)
    as (c' & Hc & Hs & Hd & _).
  exists c'. split; [exact Hc|]. rewrite Hs, Hd. split; reflexivity.
Defined.

Lemma penalty_segment_witness :
  let enter := ev enteredThePenaltyLaps 1 10 10 0 "" in
  let mid := [ev hit 1 10 10 30 "1"; ev startLine 2 10 10 40 ""] in
  let leave := ev leftThePenaltyLaps 1 10 11 0 "" in
  let st' :=
    reached (processEvents cfg0 base0 delta0 registered1
               (enter :: mid ++ [leave])) in
  competitors registered1 !! 1 = Some (newCompetitor 1)
  /\ concerns enteredThePenaltyLaps 1 enter = true
  /\ concerns leftThePenaltyLaps 1 leave = true
  /\ Forall (fun e => ~ registers 1 e
                      /\ concerns enteredThePenaltyLaps 1 e = false) mid
  /\ processEvents cfg0 base0 delta0 registered1 (enter :: mid ++ [leave])
     = Running st'
  /\ exists c',
       competitors st' !! 1 = Some c'
       /\ last (PenaltyTimes c') = Some (60 * time.Second).
Proof.
  intros enter mid leave st'.
  assert (Forall (fun e => ~ registers 1 e
                           /\ concerns enteredThePenaltyLaps 1 e = false) mid)
    as Hall.
  { repeat constructor; intros [H1 H2]; discriminate. }
  assert (processEvents cfg0 base0 delta0 registered1
            (enter :: mid ++ [leave]) = Running st')
    as Hrun.
  { vm_compute; reflexivity. }
  split; [reflexivity|]. split; [reflexivity|]. split; [reflexivity|].
  split; [exact Hall|]. split; [exact Hrun|].
  destruct (penalty_segment cfg0 base0 delta0 registered1 st' 1
              (newCompetitor 1) enter mid leave eq_refl eq_refl eq_refl
              Hall Hrun) as (c' & Hc & Hp & _).
  exists c'. split; [exact Hc|]. rewrite Hp. vm_compute. reflexivity.
Defined.

Lemma lapTimes_single_witness :
  let events := [ev endedTheMainLap 1 10 5 0 "";
                 ev endedTheMainLap 1 10 10 0 "";
                 ev endedTheMainLap 1 10 15 0 ""] in
  let st' := reached (processEvents cfg0 base0 delta0 registered1 events) in
  competitors registered1 !! 1 = Some (newCompetitor 1)
  /\ Forall (fun e => ~ registers 1 e /\ concerns comment 1 e = false) events
  /\ processEvents cfg0 base0 delta0 registered1 events = Running st'
  /\ exists c',
       competitors st' !! 1 = Some c' /\ (length (lapTimes c') <= 1)%nat.
Proof.
  intros events st'.
  assert (Forall (fun e => ~ registers 1 e /\ concerns comment 1 e = false)
            events) as Hall.
  { repeat constructor; intros [H1 H2]; discriminate. }
  assert (processEvents cfg0 base0 delta0 registered1 events = Running st')
    as Hrun by (vm_compute; reflexivity).
  split; [reflexivity|]. split; [exact Hall|]. split; [exact Hrun|].
  destruct (lapTimes_single cfg0 base0 delta0 events registered1 st' 1
              (newCompetitor 1) eq_refl Hall Hrun) as (c' & Hc & _ & Hl).
  exists c'. split; [exact Hc|]. apply Hl. reflexivity.
Defined.

Lemma record_ID_witness :
  let events := [ev register 7 9 0 0 ""; ev hit 7 9 5 0 "1"] in
  let st := reached (processEvents cfg0 base0 delta0 initial events) in
  processEvents cfg0 base0 delta0 initial events = Running st
  /\ competitors st !! 7 = Some (set_Hits (newCompetitor 7) 1)
  /\ ID (set_Hits (newCompetitor 7) 1) = 7.
Proof.
  intros events st.
  assert (processEvents cfg0 base0 delta0 initial events = Running st)
    as Hrun by (vm_compute; reflexivity).
  assert (competitors st !! 7 = Some (set_Hits (newCompetitor 7) 1)) as Hc
    by (vm_compute; reflexivity).
  split; [exact Hrun|]. split; [exact Hc|].
  exact (record_ID cfg0 base0 delta0 events st 7 _ Hrun Hc).
Defined.

Lemma startOrder_log_witness :
  let events := [ev register 1 9 0 0 ""; ev register 2 9 1 0 "";
                 ev startTime 2 9 2 0 "10:01:30.000";
                 ev startTime 1 9 3 0 "10:00:00.000"] in
  let st := reached (processEvents cfg0 base0 delta0 initial events) in
  processEvents cfg0 base0 delta0 initial events = Running st
  /\ map (fun c => (ID c, StartTime c)) (startOrder st)
     = [(2, time.clock 10 1 30 0); (1, time.clock 10 0 0 0)].
Proof.
  intros events st.
  assert (processEvents cfg0 base0 delta0 initial events = Running st)
    as Hrun by (vm_compute; reflexivity).
  split; [exact Hrun|].
  rewrite (startOrder_log cfg0 base0 delta0 events st Hrun).
  vm_compute. reflexivity.
Defined.

Lemma no_lap_not_finished_witness :
  let events := [ev register 1 9 0 0 ""; ev isStarted 1 10 0 0 "";
                 ev hit 1 10 5 0 "1"] in
  let st := reached (processEvents cfg0 base0 delta0 initial events) in
  let c := set_Hits (set_Started (newCompetitor 1) true) 1 in
  processEvents cfg0 base0 delta0 initial events = Running st
  /\ existsb (concerns endedTheMainLap 1) events = false
  /\ competitors st !! 1 = Some c
  /\ status c cfg0 = "[NotFinished]".
Proof.
  intros events st c.
  assert (processEvents cfg0 base0 delta0 initial events = Running st)
    as Hrun by (vm_compute; reflexivity).
  assert (competitors st !! 1 = Some c) as Hc by (vm_compute; reflexivity).
  split; [exact Hrun|]. split; [reflexivity|]. split; [exact Hc|].
  exact (no_lap_not_finished cfg0 base0 delta0 events st 1 c Hrun eq_refl
           Hc).
Defined.

Lemma parseEvent_eventLine_witness :
  0 <= 9 < 24 /\ 0 <= 30 < 60 /\ 0 <= 1 < 60 /\ 0 <= 5 < 1000
  /\ 0 <= 6 <= max_int64 /\ 0 <= 12 <= max_int64
  /\ free_of newline "3" = true
  /\ parseEvent "[09:30:01.005] 6 12 3"
     = Ok {| Time := time.clock 9 30 1 5000000; RawTime := "09:30:01.005";
             EventID := 6; CompetitorID := 12; Extra := "3" |}.
Proof.
  assert (0 <= 6 <= max_int64) as H6 by (unfold max_int64; lia).
  assert (0 <= 12 <= max_int64) as H12 by (unfold max_int64; lia).
  repeat (split; [first [lia | assumption | reflexivity]|]).
  exact (proj2 (parseEvent_eventLine 9 30 1 5 6 12 "3" ltac:(lia) ltac:(lia)
                  ltac:(lia) ltac:(lia) H6 H12 eq_refl)).
Defined.

Lemma parseEvent_fields_witness :
  let e := {| Time := time.clock 9 30 1 5000000; RawTime := "09:30:01.005";
              EventID := 4; CompetitorID := 1; Extra := "" |} in
  parseEvent "junk[09:30:01.005] 4 1" = Ok e
  /\ timeOfDay (Time e)
  /\ substring (RawTime e) "junk[09:30:01.005] 4 1"
  /\ 0 <= EventID e <= max_int64.
Proof.
  intros e.
  assert (parseEvent "junk[09:30:01.005] 4 1" = Ok e) as Hp
    by (vm_compute; reflexivity).
  split; [exact Hp|].
  destruct (parseEvent_fields _ _ Hp) as (_ & Ht & Hs & Hk & _).
  split; [exact Ht|]. split; [exact Hs | exact Hk].
Defined.

Lemma start_needs_milliseconds_witness :
  let cfg := {| Laps := 2; LapLen := 3500; PenaltyLen := 150;
                FiringLines := 1; Start := "10:00:00";
                StartDelta := "00:01:30" |} in
  0 <= 10 < 100 /\ 0 <= 0 < 100
  /\ Start cfg = hms 10 0 0
  /\ main (Ok cfg) (eventsFile ["[09:30:01.005] 1 1"])
     = Aborted [ErrorLine "Invalid start time in config:"
                  (ErrParseTime "15:04:05.000" "10:00:00")].
Proof.
  intros cfg. split; [lia|]. split; [lia|]. split; [reflexivity|].
  exact (start_needs_milliseconds cfg (eventsFile ["[09:30:01.005] 1 1"])
           10 0 0 ltac:(lia) ltac:(lia) ltac:(lia) eq_refl).
Defined.

Lemma lapClock_wraps_witness :
  0 <= 1 < 24 /\ 0 <= 2 < 60 /\ 0 <= 3 < 60 /\ 0 <= 4 < 1000
  /\ 0 <= 5 < time.Millisecond
  /\ lapClock (1 * time.Day + 1 * time.Hour + 2 * time.Minute
               + 3 * time.Second + 4 * time.Millisecond + 5)
     = "01:02:03.004".
Proof.
  assert (0 <= 5 < time.Millisecond) as H5 by (vm_compute; split; congruence).
  repeat (split; [first [lia | assumption]|]).
  exact (lapClock_wraps 1 2 3 4 5 1 ltac:(lia) ltac:(lia) ltac:(lia)
           ltac:(lia) H5).
Defined.

Lemma assigned_start_echo_witness :
  let e := ev startTime 1 9 0 0 "10:00:00.000" in
  EventID e = startTime
  /\ competitors registered1 !! CompetitorID e = Some (newCompetitor 1)
  /\ time.Format (assignedStart e) = "10:00:00.000".
Proof.
  intros e. split; [reflexivity|]. split; [reflexivity|].
  destruct (assigned_start_echo cfg0 base0 delta0 registered1 e
              (newCompetitor 1) eq_refl eq_refl)
    as (st' & ls & _ & _ & Hvalid & _).
  exact (Hvalid 10 0 0 0 ltac:(lia) ltac:(lia) ltac:(lia) ltac:(lia)
           eq_refl).
Defined.

Lemma loadEvents_all_or_nothing_witness :
  let f := {| os.content := unlines ["[09:00:00.000] 1 1"; "no event";
                                     "[09:02:00.000] 3 1"];
              os.readErr := None |} in
  bufio.Scan f
  = (["[09:00:00.000] 1 1"; "no event"; "[09:02:00.000] 3 1"], None)
  /\ loadEvents (Ok f) = ([], Some ErrInvalidEventFormat).
Proof.
  intros f.
  assert (bufio.Scan f
          = (["[09:00:00.000] 1 1"; "no event"; "[09:02:00.000] 3 1"], None))
    as Hscan by (vm_compute; reflexivity).
  split; [exact Hscan|].
  apply (proj1 (proj2 (loadEvents_all_or_nothing f _ _ Hscan))).
  left. split; [reflexivity|].
  exists ["[09:00:00.000] 1 1"], "no event", ["[09:02:00.000] 3 1"].
  split; [reflexivity|]. split; [|vm_compute; reflexivity].
  repeat constructor.
Defined.

Lemma line_too_long_witness :
  let lines := ["[09:00:00.000] 1 1"] in
  let long := bytes (Z.to_nat 65536) "x" in
  let rest := nl +:+ "[09:01:00.000] 3 1" +:+ nl in
  Forall fitsScanner lines
  /\ free_of newline long = true
  /\ bufio.MaxScanTokenSize <= Z.of_nat (String.length long)
  /\ is_Err (time.Parse timeLayout (Start cfg0)) = false
  /\ is_Err (parseDelta (StartDelta cfg0)) = false
  /\ Forall (fun l => is_Err (parseEvent (bufio.dropCR l)) = false) lines
  /\ main (Ok cfg0)
       (Ok {| os.content := unlines lines +:+ long +:+ rest;
              os.readErr := None |})
     = Aborted [ErrorLine "Events error:" ErrTooLong].
Proof.
  intros lines long rest.
  assert (Forall fitsScanner lines) as Hfit by (repeat constructor).
  assert (free_of newline long = true) as Hfree by (vm_compute; reflexivity).
  assert (bufio.MaxScanTokenSize <= Z.of_nat (String.length long)) as Hlong.
  { apply Z.leb_le. vm_compute. reflexivity. }
  assert (is_Err (time.Parse timeLayout (Start cfg0)) = false) as Hs
    by (vm_compute; reflexivity).
  assert (is_Err (parseDelta (StartDelta cfg0)) = false) as Hd
    by (vm_compute; reflexivity).
  assert (Forall (fun l => is_Err (parseEvent (bufio.dropCR l)) = false)
            lines) as Hp.
  { constructor; [vm_compute; reflexivity | constructor]. }
  split; [exact Hfit|]. split; [exact Hfree|]. split; [exact Hlong|].
  split; [exact Hs|]. split; [exact Hd|]. split; [exact Hp|].
  exact (proj2 (proj2 (line_too_long cfg0 lines long rest None Hfit)
                  Hfree Hlong) Hs Hd Hp).
Defined.
